(** * A shallow embedding of the Ajv orchestrator and of two keywords

    The development follows the TypeScript sources: the [Ajv] class
    (registration of schemas, compilation, keyword registry, error text,
    [$dataMetaSchema], the asynchronous loader), the [enum] code template and
    the [properties] keyword.  JavaScript values are trees, objects that are
    mutated or compared by identity live in an explicit store, and methods of
    the class are state transformers that may throw. *)

From Stdlib Require Import ZArith Lia Bool Ascii String.
From stdpp Require Import gmap strings list sorting pretty.

Set Warnings "-register-all".
Open Scope string_scope.

(** ** JavaScript values *)

Module Js.

(** Values as the validator sees them.  Numbers are integers (printed in
    decimal); an object is the list of its own enumerable properties in
    property order; a property may hold [undefined]. *)
Inductive jsval : Type :=
| VUndef
| VNull
| VBool (b : bool)
| VNum (n : Z)
| VStr (s : string)
| VArr (xs : list jsval)
| VObj (ps : list (string * jsval)).

(** [typeof v] *)
Definition typeof (v : jsval) : string :=
  match v with
  | VUndef => "undefined"
  | VNull | VArr _ | VObj _ => "object"
  | VBool _ => "boolean"
  | VNum _ => "number"
  | VStr _ => "string"
  end.

(** [!!v] *)
Definition truthy (v : jsval) : bool :=
  match v with
  | VUndef | VNull => false
  | VBool b => b
  | VNum n => negb (n =? 0)%Z
  | VStr s => negb (String.eqb s EmptyString)
  | VArr _ | VObj _ => true
  end.

(** [o[k]] on an object given by its property list; [undefined] when absent. *)
Fixpoint getProp (ps : list (string * jsval)) (k : string) : jsval :=
  match ps with
  | [] => VUndef
  | (k', v) :: ps' => if String.eqb k' k then v else getProp ps' k
  end.

(** [v[k]] for a value that is not [undefined] or [null]; primitives have no
    own properties. *)
Definition member (v : jsval) (k : string) : jsval :=
  match v with
  | VObj ps => getProp ps k
  | _ => VUndef
  end.

(** The double quote and the backslash, by code. *)
Definition dquote : string := String (Ascii.ascii_of_N 34) EmptyString.
Definition bslash : string := String (Ascii.ascii_of_N 92) EmptyString.

Definition hexDigit (n : N) : string :=
  String (Ascii.ascii_of_N (if (n <? 10)%N then 48 + n else 87 + n)) EmptyString.

(** One character of [JSON.stringify] applied to a string: the quote and the
    backslash are escaped, control characters get their short escape or
    [\u00XX], everything else is copied. *)
Definition quoteChar (c : ascii) : string :=
  let n := Ascii.N_of_ascii c in
  if (n =? 34)%N then bslash +:+ dquote
  else if (n =? 92)%N then bslash +:+ bslash
  else if (n =? 8)%N then bslash +:+ "b"
  else if (n =? 9)%N then bslash +:+ "t"
  else if (n =? 10)%N then bslash +:+ "n"
  else if (n =? 12)%N then bslash +:+ "f"
  else if (n =? 13)%N then bslash +:+ "r"
  else if (n <? 32)%N then bslash +:+ "u00" +:+ hexDigit (n / 16) +:+ hexDigit (n mod 16)
  else String c EmptyString.

Fixpoint quoteChars (s : string) : string :=
  match s with
  | EmptyString => EmptyString
  | String c s' => quoteChar c +:+ quoteChars s'
  end.

(** [JSON.stringify(s)] for a string [s]. *)
Definition quote (s : string) : string := dquote +:+ quoteChars s +:+ dquote.

(** Insertion into a list of serialized properties sorted by key; keys are
    compared as [Array.prototype.sort] compares strings, code unit by code
    unit. *)
Fixpoint insertByKey (p : string * string) (l : list (string * string))
  : list (string * string) :=
  match l with
  | [] => [p]
  | q :: l' => if String.leb (fst p) (fst q) then p :: l else q :: insertByKey p l'
  end.

Definition sortByKey (l : list (string * string)) : list (string * string) :=
  foldr insertByKey [] l.

(** [out.join(",")] *)
Fixpoint join (sep : string) (l : list string) : string :=
  match l with
  | [] => EmptyString
  | [x] => x
  | x :: l' => x +:+ sep +:+ join sep l'
  end.

(** Modelled from the spec: [stableStringify], the
    fast-json-stable-stringify dependency that the orchestrator imports and
    the enum template calls; its source is not part of the repository.  The
    spec has it as the stable canonicalization that "sorts object keys
    recursively before serializing"; the serialization is JSON's.
    It returns [undefined] for [undefined]; an array element that serializes to
    [undefined] is written [null]; an object is written with its keys sorted,
    and a property whose value serializes to [undefined] is skipped
    ([if (!value) continue]).  The values are serialized first and the
    resulting pairs sorted by key, which is the same as sorting the keys and
    then serializing each value. *)
Fixpoint stableStringify (v : jsval) : option string :=
  match v with
  | VUndef => None
  | VNull => Some "null"
  | VBool true => Some "true"
  | VBool false => Some "false"
  | VNum n => Some (pretty n)
  | VStr s => Some (quote s)
  | VArr xs =>
      Some ("[" +:+
            join "," ((fix elems (l : list jsval) : list string :=
                         match l with
                         | [] => []
                         | x :: l' => default "null" (stableStringify x) :: elems l'
                         end) xs)
            +:+ "]")
  | VObj ps =>
      Some ("{" +:+
            join "," (map (fun kv => quote (fst kv) +:+ ":" +:+ snd kv)
                        (sortByKey
                           ((fix props (l : list (string * jsval)) : list (string * string) :=
                               match l with
                               | [] => []
                               | (k, x) :: l' =>
                                   match stableStringify x with
                                   | Some sx => (k, sx) :: props l'
                                   | None => props l'
                                   end
                               end) ps)))
            +:+ "}")
  end.

(** [Array.isArray(v)] *)
Definition isArray (v : jsval) : bool :=
  match v with
  | VArr _ => true
  | _ => false
  end.

(** Induction on values through the lists of arrays and objects. *)
Section jsval_nested_ind.
Variable P : jsval -> Prop.
Hypothesis HUndef : P VUndef.
Hypothesis HNull : P VNull.
Hypothesis HBool : forall b, P (VBool b).
Hypothesis HNum : forall n, P (VNum n).
Hypothesis HStr : forall s, P (VStr s).
Hypothesis HArr : forall xs, Forall P xs -> P (VArr xs).
Hypothesis HObj : forall ps, Forall (fun kv => P kv.2) ps -> P (VObj ps).

Fixpoint jsval_nested_ind (j : jsval) : P j :=
  match j with
  | VUndef => HUndef
  | VNull => HNull
  | VBool b => HBool b
  | VNum n => HNum n
  | VStr s => HStr s
  | VArr xs =>
      HArr xs ((fix go (l : list jsval) : Forall P l :=
                  match l with
                  | [] => @List.Forall_nil _ P
                  | x :: l' => @List.Forall_cons _ P x l' (jsval_nested_ind x) (go l')
                  end) xs)
  | VObj ps =>
      HObj ps ((fix go (l : list (string * jsval)) : Forall (fun kv => P kv.2) l :=
                  match l with
                  | [] => @List.Forall_nil _ (fun kv => P kv.2)
                  | kv :: l' =>
                      @List.Forall_cons _ (fun kv => P kv.2) kv l'
                        (jsval_nested_ind kv.2) (go l')
                  end) ps)
  end.
End jsval_nested_ind.

(** A property key computed from a value that may be [undefined]:
    [o[undefined]] reads the property named ["undefined"]. *)
Definition propertyKey (k : option string) : string := default "undefined" k.

(** The members of [Object.prototype].  An object literal has no own
    property of these names unless one is assigned, but reading [o[k]] for
    one of them gives the member all the same: a function for each name of
    [prototypeFunctions], and [Object.prototype] itself for [__proto__].
    All of them are truthy, and [delete o[k]] does not take them away. *)
Definition prototypeFunctions : list string :=
  ["constructor"; "hasOwnProperty"; "isPrototypeOf"; "propertyIsEnumerable";
   "toLocaleString"; "toString"; "valueOf";
   "__defineGetter__"; "__defineSetter__"; "__lookupGetter__"; "__lookupSetter__"].

Definition inherited (k : string) : bool :=
  existsb (String.eqb k) ("__proto__" :: prototypeFunctions).

(** A [RegExp] object.  [regex.test(s)] reads [regex.lastIndex]; for a
    pattern with the g or the y flag the match starts there, and the call
    assigns [lastIndex]: the end of the match, or 0 when there is none.
    [re_test] gives the result and the new [lastIndex] from the [lastIndex]
    at the call and the string.  For a pattern without those flags the
    result is a function of the string and [lastIndex] is left alone. *)
Record RegExp : Type := mkRegExp {
  re_test : nat -> string -> bool * nat;
  re_lastIndex : nat
}.

(** A pattern without the g and y flags. *)
Definition stateless (r : RegExp) : Prop :=
  forall li s, re_test r li s = ((re_test r 0 s).1, li).

End Js.

(** ** Error objects and the enum template *)

Module Enum.
Import Js.

(** The fields of an error object that the sources below read or write. *)
Record ErrorObject : Type := mkError {
  keyword : string;
  dataPath : string;
  message : option string;
  schema : option jsval;
  data : option jsval
}.

(** The template-time loop: [$itemsHash[it.stableStringify($item)] = true]
    for each member of [it.schema]. *)
Definition itemsHash (items : list jsval) : gmap string bool :=
  foldl (fun h item => <[propertyKey (stableStringify item) := true]> h) ∅ items.

(** The emitted function [function (data, dataType, dataPath)]: it looks
    the serialized data up in the hash, pushes an error on
    [validate.errors] when the lookup is falsy and returns [valid || false].
    The result is the returned boolean and the new [validate.errors]. *)
Definition enumValidate (verbose : bool) (items : list jsval)
    (data_ : jsval) (dataPath_ : string) (errors : list ErrorObject)
  : bool * list ErrorObject :=
  let valid := default false (itemsHash items !! propertyKey (stableStringify data_)) in
  let errors' :=
    if valid then errors
    else (errors ++ [ {| keyword := "enum";
                         schema := Some (VArr items);
                         dataPath := dataPath_;
                         message := Some "should be equal to one of values";
                         data := if verbose then Some data_ else None |} ])%list in
  (valid, errors').

(** Whether an object has a property of that name. *)
Fixpoint hasProp (ps : list (string * jsval)) (k : string) : bool :=
  match ps with
  | [] => false
  | (k', _) :: ps' => String.eqb k' k || hasProp ps' k
  end.

(** The enum contract as the spec words it: deep structural equality of two
    values.  Two objects are equal when they have the same number of
    properties and every property of the first is a property of the second
    with an equal value; an absent property and a property holding
    [undefined] are different. *)
Fixpoint specDeepEqual (a b : jsval) : bool :=
  match a, b with
  | VUndef, VUndef => true
  | VNull, VNull => true
  | VBool x, VBool y => Bool.eqb x y
  | VNum x, VNum y => (x =? y)%Z
  | VStr x, VStr y => String.eqb x y
  | VArr xs, VArr ys =>
      (fix eqs (l : list jsval) (r : list jsval) : bool :=
         match l, r with
         | [], [] => true
         | x :: l', y :: r' => specDeepEqual x y && eqs l' r'
         | _, _ => false
         end) xs ys
  | VObj ps, VObj qs =>
      (length ps =? length qs)%nat &&
      (fix sub (l : list (string * jsval)) : bool :=
         match l with
         | [] => true
         | (k, x) :: l' => hasProp qs k && specDeepEqual x (getProp qs k) && sub l'
         end) ps
  | _, _ => false
  end.

(** The key under which the hash holds a value. *)
Definition serializedKey (v : jsval) : string := propertyKey (stableStringify v).

End Enum.

(** ** The orchestrator: state, exceptions, collaborators *)

Module Ajv.
Import Js.

(** A compiled validator is a function object; it is known by its identity. *)
Definition ValidateFunction : Type := nat.

(** A registered schema.  [envId] is the identity of the object; the fields
    are those the constructor fills in and nothing changes afterwards.  The
    one field the orchestrator reads that is assigned later, [validate], is
    kept in the store [validateOf] of the instance, keyed by [envId]. *)
Record SchemaEnv : Type := mkSchemaEnv {
  envId : nat;
  schema : jsval;
  baseId : string;
  cacheKey : string;
  meta : bool;
  localRefs : gmap string jsval
}.

(** What reading [schemas[key]] or [refs[key]] gives: a schema environment,
    the key of another entry (a string), or, for a name of a member of
    [Object.prototype] that the table has no own entry for, that member.
    The methods store the first two only. *)
Inductive SchOrRef : Type :=
| Env (sch : SchemaEnv)
| Alias (ref : string)
| Member (name : string).

(** [opts.validateSchema]: [false], [true] or ["log"]. *)
Inductive ValidateSchemaOpt : Type := VSfalse | VStrue | VSlog.

Definition vsTruthy (o : ValidateSchemaOpt) : bool :=
  match o with VSfalse => false | _ => true end.

Record Options : Type := mkOptions {
  opt_validateSchema : ValidateSchemaOpt;
  opt_addUsedSchema : bool;
  opt_data : bool;                      (* [$data] *)
  opt_meta : jsval;                     (* [meta]: undefined, a boolean or a schema *)
  opt_defaultMeta : jsval               (* [defaultMeta]: undefined, an id or a schema *)
}.

(** A value that is one item or an array of items, as [keyword] and [type]
    of a keyword definition are. *)
Inductive OneOrMany (A : Type) : Type :=
| One (a : A)
| Many (l : list A).
Arguments One {A} a.
Arguments Many {A} l.

(** Modelled from the spec: [eachItem] of compile/util, which is not under
    src/; it runs the callback "for each (keyword x dataType) pair", on the
    single item or on each item of the array.  Here it lists the items the
    callback is run on, in order. *)
Definition eachItem {A : Type} (xs : OneOrMany A) : list A :=
  match xs with
  | One a => [a]
  | Many l => l
  end.

Record KeywordDefinition : Type := mkDefinition {
  def_keyword : OneOrMany string;
  def_type : option (OneOrMany string);
  def_hasCode : bool;                   (* ["code" in def] *)
  def_hasValidate : bool;               (* ["validate" in def] *)
  def_data : bool;                      (* [$data] *)
  def_before : option string;
  def_implements : option (list string);
  def_metaSchema : option jsval;
  def_validateSchema : option ValidateFunction
}.

Record Rule : Type := mkRule {
  rule_keyword : string;
  definition : KeywordDefinition
}.

Record RuleGroup : Type := mkRuleGroup {
  group_type : option string;
  rules : list Rule
}.

(** An entry of [RULES.all] is a rule or a bare flag. *)
Inductive RuleEntry : Type :=
| RuleObj (r : Rule)
| RuleFlag (b : bool).

Record ValidationRules : Type := mkRules {
  vr_rules : list RuleGroup;
  vr_keywords : gmap string bool;
  vr_all : gmap string RuleEntry
}.

Inductive Level : Type := LLog | LWarn | LError.

(** [this.errors] *)
Inductive ErrorsField : Type :=
| ErrorsUndefined
| ErrorsNull
| ErrorsArray (l : list Enum.ErrorObject).

(** The instance.  [logger] records the calls made on [this.logger];
    [nextId] is the identity the next allocated object gets. *)
Record Ajv : Type := mkAjv {
  opts : Options;
  _metaOpts : Options;
  errors : ErrorsField;
  schemas : gmap string SchOrRef;
  refs : gmap string SchOrRef;
  RULES : ValidationRules;
  _cache : gmap string SchemaEnv;
  validateOf : gmap nat ValidateFunction;
  nextId : nat;
  logger : list (Level * string)
}.

Definition set_opts (o : Options) (a : Ajv) : Ajv :=
  mkAjv o (_metaOpts a) (errors a) (schemas a) (refs a) (RULES a) (_cache a)
        (validateOf a) (nextId a) (logger a).
Definition set_metaOpts (o : Options) (a : Ajv) : Ajv :=
  mkAjv (opts a) o (errors a) (schemas a) (refs a) (RULES a) (_cache a)
        (validateOf a) (nextId a) (logger a).
Definition set_errors (e : ErrorsField) (a : Ajv) : Ajv :=
  mkAjv (opts a) (_metaOpts a) e (schemas a) (refs a) (RULES a) (_cache a)
        (validateOf a) (nextId a) (logger a).
Definition set_schemas (m : gmap string SchOrRef) (a : Ajv) : Ajv :=
  mkAjv (opts a) (_metaOpts a) (errors a) m (refs a) (RULES a) (_cache a)
        (validateOf a) (nextId a) (logger a).
Definition set_refs (m : gmap string SchOrRef) (a : Ajv) : Ajv :=
  mkAjv (opts a) (_metaOpts a) (errors a) (schemas a) m (RULES a) (_cache a)
        (validateOf a) (nextId a) (logger a).
Definition set_RULES (r : ValidationRules) (a : Ajv) : Ajv :=
  mkAjv (opts a) (_metaOpts a) (errors a) (schemas a) (refs a) r (_cache a)
        (validateOf a) (nextId a) (logger a).
Definition set_cache (c : gmap string SchemaEnv) (a : Ajv) : Ajv :=
  mkAjv (opts a) (_metaOpts a) (errors a) (schemas a) (refs a) (RULES a) c
        (validateOf a) (nextId a) (logger a).
Definition set_validateOf (v : gmap nat ValidateFunction) (a : Ajv) : Ajv :=
  mkAjv (opts a) (_metaOpts a) (errors a) (schemas a) (refs a) (RULES a) (_cache a)
        v (nextId a) (logger a).
Definition set_nextId (n : nat) (a : Ajv) : Ajv :=
  mkAjv (opts a) (_metaOpts a) (errors a) (schemas a) (refs a) (RULES a) (_cache a)
        (validateOf a) n (logger a).
Definition set_logger (l : list (Level * string)) (a : Ajv) : Ajv :=
  mkAjv (opts a) (_metaOpts a) (errors a) (schemas a) (refs a) (RULES a) (_cache a)
        (validateOf a) (nextId a) l.

(** What a method can throw. *)
Inductive Exn : Type :=
| Error (msg : string)
| TypeError (msg : string)
| RangeError (msg : string)
| SyntaxError (msg : string)
| MissingRefError (missingSchema missingRef : string).

Inductive Res (A : Type) : Type :=
| Ok (a : A)
| Throw (e : Exn).
Arguments Ok {A} a.
Arguments Throw {A} e.

(** A method body: it runs on the instance, returns or throws, and leaves
    the instance in a new state either way. *)
Definition M (A : Type) : Type := Ajv -> Res A * Ajv.

Definition ret {A : Type} (a : A) : M A := fun st => (Ok a, st).

Definition bind {A B : Type} (m : M A) (k : A -> M B) : M B :=
  fun st =>
    match m st with
    | (Ok a, st') => k a st'
    | (Throw e, st') => (Throw e, st')
    end.

Definition throw {A : Type} (e : Exn) : M A := fun st => (Throw e, st).
Definition get : M Ajv := fun st => (Ok st, st).
Definition modify (f : Ajv -> Ajv) : M unit := fun st => (Ok tt, f st).

(** [try { m } finally { f }] where [f] cannot throw. *)
Definition finally {A : Type} (m : M A) (f : Ajv -> Ajv) : M A :=
  fun st => let '(r, st') := m st in (r, f st').

(** Running the callback of a [for .. of] loop or a [forEach] on each item. *)
Fixpoint forEach {A : Type} (f : A -> M unit) (l : list A) : M unit :=
  match l with
  | [] => ret tt
  | x :: l' => bind (f x) (fun _ => forEach f l')
  end.

Declare Scope ajv_scope.
Delimit Scope ajv_scope with ajv.
Notation "x <- m ;; k" := (bind m (fun x => k))
  (at level 100, m at next level, right associativity) : ajv_scope.
Notation "m ;;; k" := (bind m (fun _ => k))
  (at level 100, right associativity) : ajv_scope.
Open Scope ajv_scope.

Definition log (lvl : Level) (msg : string) : M unit :=
  modify (fun st => set_logger (logger st ++ [(lvl, msg)])%list st).

(** The result of calling a validator: a boolean, or a promise for an
    asynchronous schema. *)
Inductive ValidateResult : Type :=
| Valid (b : bool)
| Pending.

Definition resultFalsy (r : ValidateResult) : bool :=
  match r with Valid b => negb b | Pending => false end.

(** What the orchestrator calls and src/ does not contain, the two
    methods whose bodies run compiled validators or the resolver, and what
    the state of the model does not record.
    - [serialize] is [this.opts.serialize], fixed by the constructor;
    - [normalizeId] and [getSchemaRefs] come from compile/resolve;
    - [compileSchema] comes from compile: it works on a schema environment
      and may do anything to the instance;
    - [validate] and [getSchema] are the methods of those names: they look a
      schema up through the resolver, compile it and, for [validate], run
      the compiled function on the data;
    - [compileMember] is [sch.validate || this._compileSchemaEnv(sch)] when
      [sch] is not a schema environment but the member of [Object.prototype]
      of that name, which is what [getSchEnv] finds for such a name: the
      compiler is then run on an object it was not written for;
    - [keyBefore] gives the order in which [for (const keyRef in table)]
      visits the keys of a table, which are visited sorted by it.  The
      engine visits the keys in the order of their creation (those that
      are array indices first); the tables of the model are finite maps
      and do not record it, and every order is that of some [keyBefore]. *)
Class Collaborators : Type := {
  serialize : jsval -> string;
  normalizeId : option string -> string;
  getSchemaRefs : jsval -> M (gmap string jsval);
  compileSchema : SchemaEnv -> M unit;
  validate : jsval -> jsval -> M ValidateResult;
  getSchema : string -> M (option ValidateFunction);
  compileMember : string -> M ValidateFunction;
  keyBefore : gmap string SchOrRef -> string -> string -> bool
}.

(** *** Schema registration and compilation *)

Section Methods.
Context `{C : Collaborators}.

(** Modelled from the spec: the default [Cache] (cache.ts, not under src/),
    the "content-addressed store: serialized schema -> compiled environment"
    with [get], [put], [del] and [clear]. *)
Definition cache_get (key : string) : M (option SchemaEnv) :=
  st <- get ;; ret (_cache st !! key).
Definition cache_put (key : string) (sch : SchemaEnv) : M unit :=
  modify (fun st => set_cache (<[key := sch]> (_cache st)) st).
Definition cache_del (key : string) : M unit :=
  modify (fun st => set_cache (delete key (_cache st)) st).
Definition cache_clear : M unit := modify (set_cache ∅).

(** [table[key]] on one of the tables, which are object literals: the own
    entry, and with no own entry the member of [Object.prototype] when the
    key is the name of one. *)
Definition readEntry (table : gmap string SchOrRef) (key : string) : option SchOrRef :=
  match table !! key with
  | Some v => Some v
  | None => if inherited key then Some (Member key) else None
  end.

(** Truthiness of [table[key]]: a schema environment is an object, an alias
    is a string, a member of [Object.prototype] is a function or an object,
    a missing entry is [undefined]. *)
Definition entryTruthy (o : option SchOrRef) : bool :=
  match o with
  | Some (Env _) => true
  | Some (Alias s) => negb (String.eqb s EmptyString)
  | Some (Member _) => true
  | None => false
  end.

Definition alreadyExists (id : string) : string :=
  "schema with key or id " +:+ dquote +:+ id +:+ dquote +:+ " already exists".

Definition _checkUnique (id : string) : M unit :=
  st <- get ;;
  if entryTruthy (readEntry (schemas st) id) || entryTruthy (readEntry (refs st) id)
  then throw (Error (alreadyExists id))
  else ret tt.

(** [schema.$id] when it is a string. *)
Definition schemaId (schema_ : jsval) : option string :=
  match member schema_ "$id" with
  | VStr s => Some s
  | _ => None
  end.

(** Modelled from the spec: the [SchemaEnv] constructor (compile, not under
    src/).  The new object gets a fresh identity; [baseId] is the "canonical
    absolute URI, derived from $id", the other attributes are the
    arguments. *)
Definition newSchemaEnv (schema_ : jsval) (cacheKey_ : string) (meta_ : bool)
    (localRefs_ : gmap string jsval) : M SchemaEnv :=
  st <- get ;;
  modify (set_nextId (S (nextId st))) ;;;
  ret (mkSchemaEnv (nextId st) schema_ (normalizeId (schemaId schema_))
         cacheKey_ meta_ localRefs_).

(** [sch.validate] *)
Definition readValidate (sch : SchemaEnv) : M (option ValidateFunction) :=
  st <- get ;; ret (validateOf st !! envId sch).

Record ErrorsTextOptions : Type := mkErrorsTextOptions {
  separator : option string;
  dataVar : option string
}.

(** The template literal of [errorsText]; a missing [message] prints as
    [undefined]. *)
Definition errorMessage (dataVar_ : string) (e : Enum.ErrorObject) : string :=
  dataVar_ +:+ Enum.dataPath e +:+ " " +:+ default "undefined" (Enum.message e).

Definition errorsText (this_errors : ErrorsField) (errors_ : ErrorsField)
    (o : option ErrorsTextOptions) : string :=
  let errors' := match errors_ with ErrorsUndefined => this_errors | _ => errors_ end in
  let o' := default (mkErrorsTextOptions None None) o in
  let separator_ := default ", " (separator o') in
  let dataVar_ := default "data" (dataVar o') in
  match errors' with
  | ErrorsArray (e :: es) =>
      foldl (fun text msg => text +:+ msg +:+ separator_)
            (errorMessage dataVar_ e) (map (errorMessage dataVar_) es)
  | _ => "No errors"
  end.

(** Each message followed by the separator: [m1 + sep + .. + mn + sep]. *)
Definition withSeparators (sep : string) (msgs : list string) : string :=
  foldr (fun msg acc => msg +:+ sep +:+ acc) EmptyString msgs.

Definition META_SCHEMA_ID : string := "http://json-schema.org/draft-07/schema".

Definition set_defaultMeta (v : jsval) (o : Options) : Options :=
  mkOptions (opt_validateSchema o) (opt_addUsedSchema o) (opt_data o) (opt_meta o) v.

Definition defaultMeta : M jsval :=
  st <- get ;;
  v <- match opt_meta (opts st) with
       | VNull => throw (TypeError "Cannot read property '$id' of null")
       | (VObj _ | VArr _) as meta_ =>
           let id := member meta_ "$id" in
           ret (if truthy id then id else meta_)
       | _ =>
           f <- getSchema META_SCHEMA_ID ;;
           ret (match f with Some _ => VStr META_SCHEMA_ID | None => VUndef end)
       end ;;
  modify (fun st' => set_opts (set_defaultMeta v (opts st')) st') ;;;
  ret v.

Definition validateSchema (schema_ : jsval) (throwOrLogError : bool) : M ValidateResult :=
  match schema_ with
  | VBool _ => ret (Valid true)
  | VUndef | VNull => throw (TypeError "Cannot read property '$schema'")
  | _ =>
      let dschema := member schema_ "$schema" in
      if negb (String.eqb (typeof dschema) "undefined")
         && negb (String.eqb (typeof dschema) "string")
      then throw (Error "$schema must be a string")
      else
        st <- get ;;
        dschema' <- (if truthy dschema then ret dschema
                     else if truthy (opt_defaultMeta (opts st))
                          then ret (opt_defaultMeta (opts st))
                          else defaultMeta) ;;
        if negb (truthy dschema') then
          log LWarn "meta-schema not available" ;;;
          modify (set_errors ErrorsNull) ;;;
          ret (Valid true)
        else
          valid <- validate dschema' schema_ ;;
          (if resultFalsy valid && throwOrLogError then
             st' <- get ;;
             let message_ :=
               "schema is invalid: " +:+ errorsText (errors st') ErrorsUndefined None in
             match opt_validateSchema (opts st') with
             | VSlog => log LError message_
             | _ => throw (Error message_)
             end
           else ret tt) ;;;
          ret valid
  end.

Definition _addSchema (schema_ : jsval) (meta_ : bool)
    (validateSchema_ : option ValidateSchemaOpt) (addSchema_ : option bool)
  : M SchemaEnv :=
  st0 <- get ;;
  let doValidate := vsTruthy (default (opt_validateSchema (opts st0)) validateSchema_) in
  let doAdd := default (opt_addUsedSchema (opts st0)) addSchema_ in
  if negb (String.eqb (typeof schema_) "object")
     && negb (String.eqb (typeof schema_) "boolean")
  then throw (Error "schema must be object or boolean")
  else
    let cacheKey_ := serialize schema_ in
    cached <- cache_get cacheKey_ ;;
    match cached with
    | Some sch => ret sch
    | None =>
        localRefs_ <- getSchemaRefs schema_ ;;
        sch <- newSchemaEnv schema_ cacheKey_ meta_ localRefs_ ;;
        cache_put (cacheKey sch) sch ;;;
        let id := baseId sch in
        (if doAdd && negb (String.prefix "#" id) then
           (if negb (String.eqb id EmptyString) then _checkUnique id else ret tt) ;;;
           modify (fun st => set_refs (<[id := Env sch]> (refs st)) st)
         else ret tt) ;;;
        (if doValidate then (_ <- validateSchema schema_ true ;; ret tt) else ret tt) ;;;
        ret sch
    end.

(** [this.opts] is the object [this._metaOpts] while the meta-schema is
    compiled, so what is assigned to an option meanwhile is assigned in
    [_metaOpts]; the [finally] block puts the saved object back. *)
Definition _compileMetaSchema (sch : SchemaEnv) : M unit :=
  st <- get ;;
  let currentOpts := opts st in
  modify (set_opts (_metaOpts st)) ;;;
  finally (compileSchema sch)
          (fun st' => set_opts currentOpts (set_metaOpts (opts st') st')).

Definition _compileSchemaEnv (sch : SchemaEnv) : M ValidateFunction :=
  (if meta sch then _compileMetaSchema sch else compileSchema sch) ;;;
  v <- readValidate sch ;;
  match v with
  | None => throw (Error "ajv implementation error")
  | Some f => ret f
  end.

Definition compile (schema_ : jsval) (_meta : bool) : M ValidateFunction :=
  sch <- _addSchema schema_ _meta None None ;;
  v <- readValidate sch ;;
  match v with
  | Some f => ret f
  | None => _compileSchemaEnv sch
  end.

(** [key || id] *)
Definition keyOrId (key : option string) (id : jsval) : option string :=
  match key with
  | Some k => if String.eqb k EmptyString
              then (match id with VStr s => Some s | _ => None end)
              else Some k
  | None => match id with VStr s => Some s | _ => None end
  end.

(** The part of [addSchema] that reads and checks [schema.$id]. *)
Definition readId (schema_ : jsval) : M jsval :=
  if String.eqb (typeof schema_) "object" then
    match schema_ with
    | VNull => throw (TypeError "Cannot read property '$id' of null")
    | _ =>
        let id := member schema_ "$id" in
        if negb (String.eqb (typeof id) "undefined")
           && negb (String.eqb (typeof id) "string")
        then throw (Error "schema id must be string")
        else ret id
    end
  else ret VUndef.

(** [addSchema] on a schema that is not an array. *)
Definition addSchemaOne (schema_ : jsval) (key : option string) (_meta : bool)
    (_validateSchema : ValidateSchemaOpt) : M unit :=
  id <- readId schema_ ;;
  let key' := normalizeId (keyOrId key id) in
  _checkUnique key' ;;;
  sch <- _addSchema schema_ _meta (Some _validateSchema) (Some true) ;;
  modify (fun st => set_schemas (<[key' := Env sch]> (schemas st)) st).

(** The key under which [addSchema(schema, key)] registers the schema. *)
Definition schemaKey (key : option string) (schema_ : jsval) : string :=
  normalizeId (keyOrId key (member schema_ "$id")).

Fixpoint addSchemaWith (schema_ : jsval) (key : option string) (_meta : bool)
    (_validateSchema : ValidateSchemaOpt) : M unit :=
  match schema_ with
  | VArr xs =>
      (fix each (l : list jsval) : M unit :=
         match l with
         | [] => ret tt
         | sch :: l' => addSchemaWith sch None _meta _validateSchema ;;; each l'
         end) xs
  | _ => addSchemaOne schema_ key _meta _validateSchema
  end.

(** [addSchema(schema, key, _meta, _validateSchema = this.opts.validateSchema)] *)
Definition addSchema (schema_ : jsval) (key : option string) (_meta : bool)
    (_validateSchema : option ValidateSchemaOpt) : M unit :=
  st <- get ;;
  addSchemaWith schema_ key _meta (default (opt_validateSchema (opts st)) _validateSchema).

Definition addMetaSchema (schema_ : jsval) (key : option string)
    (_validateSchema : option ValidateSchemaOpt) : M unit :=
  addSchema schema_ key true _validateSchema.

(** *** Removal *)

Definition getSchEnv (keyRef : string) : M (option SchOrRef) :=
  st <- get ;;
  let k := normalizeId (Some keyRef) in
  ret (if entryTruthy (readEntry (schemas st) k) then readEntry (schemas st) k
       else readEntry (refs st) k).

(** The keys of a table in the order in which [for (const keyRef in table)]
    visits them. *)
Definition forIn (table : gmap string SchOrRef) : list string :=
  merge_sort (fun a b => Is_true (keyBefore table a b)) (map_to_list table).*1.

(** [!regex || regex.test(keyRef)]: the result, and [regex.lastIndex] after
    the test, given [regex.lastIndex] before it. *)
Definition testKey (regex : option RegExp) (lastIndex : nat) (keyRef : string)
  : bool * nat :=
  match regex with
  | None => (true, lastIndex)
  | Some r => re_test r lastIndex keyRef
  end.

(** What the loop of [_removeAllSchemas] works on: the table, the cache and
    [regex.lastIndex]. *)
Record Removing : Type := mkRemoving {
  rm_table : gmap string SchOrRef;
  rm_cache : gmap string SchemaEnv;
  rm_lastIndex : nat
}.

(** The body of the loop of [_removeAllSchemas] at one key.  A string is
    deleted; an object without [meta] is deleted together with the cache
    line of its [cacheKey] (for a member of [Object.prototype], were one
    stored, [sch.cacheKey] is [undefined]). *)
Definition removeStep (regex : option RegExp) (acc : Removing) (keyRef : string)
  : Removing :=
  let t := testKey regex (rm_lastIndex acc) keyRef in
  if t.1 then
    match rm_table acc !! keyRef with
    | Some (Alias _) => mkRemoving (delete keyRef (rm_table acc)) (rm_cache acc) t.2
    | Some (Env e) =>
        if meta e then mkRemoving (rm_table acc) (rm_cache acc) t.2
        else mkRemoving (delete keyRef (rm_table acc))
                        (delete (cacheKey e) (rm_cache acc)) t.2
    | Some (Member _) =>
        mkRemoving (delete keyRef (rm_table acc))
                   (delete "undefined" (rm_cache acc)) t.2
    | None => mkRemoving (rm_table acc) (rm_cache acc) t.2
    end
  else mkRemoving (rm_table acc) (rm_cache acc) t.2.

Definition _removeAllSchemas (table : gmap string SchOrRef)
    (regex : option RegExp) (cache : gmap string SchemaEnv) (lastIndex : nat)
  : Removing :=
  foldl (removeStep regex) (mkRemoving table cache lastIndex) (forIn table).

(** [this._removeAllSchemas(this.schemas, regex)] and
    [this._removeAllSchemas(this.refs, regex)]; the result is
    [regex.lastIndex] after the loop. *)
Definition removeAllFromSchemas (regex : option RegExp) (lastIndex : nat) : M nat :=
  st <- get ;;
  let r := _removeAllSchemas (schemas st) regex (_cache st) lastIndex in
  modify (fun st' => set_cache (rm_cache r) (set_schemas (rm_table r) st')) ;;;
  ret (rm_lastIndex r).

Definition removeAllFromRefs (regex : option RegExp) (lastIndex : nat) : M nat :=
  st <- get ;;
  let r := _removeAllSchemas (refs st) regex (_cache st) lastIndex in
  modify (fun st' => set_cache (rm_cache r) (set_refs (rm_table r) st')) ;;;
  ret (rm_lastIndex r).

Definition deleteKey (key : string) : M unit :=
  modify (fun st => set_schemas (delete key (schemas st)) st) ;;;
  modify (fun st => set_refs (delete key (refs st)) st).

(** The argument of [removeSchema]: a [RegExp] or any other value. *)
Inductive RemoveArg : Type :=
| RmRegExp (regex : RegExp)
| RmValue (v : jsval).

Definition removeSchema (schemaKeyRef : RemoveArg) : M unit :=
  match schemaKeyRef with
  | RmRegExp r =>
      lastIndex <- removeAllFromSchemas (Some r) (re_lastIndex r) ;;
      removeAllFromRefs (Some r) lastIndex ;;;
      ret tt
  | RmValue VUndef =>
      removeAllFromSchemas None 0 ;;;
      removeAllFromRefs None 0 ;;;
      cache_clear
  | RmValue (VStr k) =>
      sch <- getSchEnv k ;;
      (match sch with
       | Some (Env e) => cache_del (cacheKey e)
       | Some (Member name) =>
           (* [typeof sch == "object"] holds of [Object.prototype] only,
              whose [cacheKey] is [undefined] *)
           if String.eqb name "__proto__" then cache_del "undefined" else ret tt
       | _ => ret tt
       end) ;;;
      deleteKey k
  | RmValue ((VNull | VArr _ | VObj _) as v) =>
      cache_del (serialize v) ;;;
      match v with
      | VNull => throw (TypeError "Cannot read property '$id' of null")
      | _ =>
          let id := member v "$id" in
          if truthy id then
            match id with
            | VStr s => deleteKey (normalizeId (Some s))
            | _ => throw (TypeError "id.replace is not a function")
            end
          else ret tt
      end
  | RmValue _ => throw (Error "ajv.removeSchema: invalid parameter")
  end.

(** *** Vocabulary of the statements about registration and removal *)

(** A method body that removes or replaces no cache line. *)
Definition keepsCache {A : Type} (m : M A) : Prop :=
  forall st k sch, _cache st !! k = Some sch -> _cache (m st).2 !! k = Some sch.

(** Whether a key matches the pattern: what [regex.test(key)] returns
    when [lastIndex] is 0; every key matches when no pattern is given. *)
Definition matchesKey (regex : option RegExp) (k : string) : bool :=
  match regex with
  | None => true
  | Some r => (re_test r 0 k).1
  end.

(** [regex.lastIndex] when [removeSchema] is called. *)
Definition firstIndex (regex : option RegExp) : nat :=
  match regex with
  | None => 0
  | Some r => re_lastIndex r
  end.

(** No pattern, or a pattern without the g and y flags. *)
Definition statelessArg (regex : option RegExp) : Prop :=
  match regex with
  | None => True
  | Some r => stateless r
  end.

(** An entry of a table after [_removeAllSchemas], given whether its key
    matched: aliases and schema environments that are not meta-schemas go,
    meta-schemas stay. *)
Definition afterRemoval (matched : bool) (o : option SchOrRef) : option SchOrRef :=
  match o with
  | Some (Env e) => if matched && negb (meta e) then None else o
  | Some (Alias _) | Some (Member _) => if matched then None else o
  | None => None
  end.

(** The argument of [removeSchema] for a bulk removal: [undefined], or a
    [RegExp]. *)
Definition bulkArg (regex : option RegExp) : RemoveArg :=
  match regex with
  | None => RmValue VUndef
  | Some r => RmRegExp r
  end.

(** What [getSchEnv(keyRef)] finds in a state. *)
Definition foundEnv (st : Ajv) (keyRef : string) : option SchOrRef :=
  let k := normalizeId (Some keyRef) in
  if entryTruthy (readEntry (schemas st) k) then readEntry (schemas st) k
  else readEntry (refs st) k.

(** The cache line that goes with an entry that [_removeAllSchemas]
    removes: that of a schema environment that is not a meta-schema. *)
Definition lineOf (v : SchOrRef) : option string :=
  match v with
  | Env e => if meta e then None else Some (cacheKey e)
  | Alias _ => None
  | Member _ => Some "undefined"
  end.

(** A cache key that [_removeAllSchemas] deletes with an entry of a table
    whose key matches. *)
Definition removable (regex : option RegExp) (table : gmap string SchOrRef)
    (c : string) : Prop :=
  exists k v, table !! k = Some v /\ matchesKey regex k = true /\ lineOf v = Some c.

(** A cache key that [_removeAllSchemas] deletes with one of the keys of a
    list. *)
Definition removableIn (regex : option RegExp) (table : gmap string SchOrRef)
    (l : list string) (c : string) : Prop :=
  exists k v, k ∈ l /\ table !! k = Some v /\ matchesKey regex k = true
              /\ lineOf v = Some c.

(** What the loop keeps whatever the pattern and its flags: an entry that
    is a meta-schema stays, no entry is added or changed, and the cache
    gains or changes no line. *)
Definition removalKeeps (table : gmap string SchOrRef) (cache : gmap string SchemaEnv)
    (r : Removing) : Prop :=
  (forall k e, table !! k = Some (Env e) -> meta e = true ->
               rm_table r !! k = Some (Env e))
  /\ (forall k, rm_table r !! k = None \/ rm_table r !! k = table !! k)
  /\ (forall c, rm_cache r !! c = None \/ rm_cache r !! c = cache !! c).

(** A method body that takes the compiled validator off no schema
    environment. *)
Definition keepsValidators {A : Type} (m : M A) : Prop :=
  forall st id f, validateOf st !! id = Some f -> validateOf (m st).2 !! id = Some f.

End Methods.

(** *** The keyword registry *)

Definition inRange (lo hi : N) (c : ascii) : bool :=
  let n := Ascii.N_of_ascii c in ((lo <=? n) && (n <=? hi))%N.

Definition isChar (k : N) (c : ascii) : bool := (Ascii.N_of_ascii c =? k)%N.

(** [[a-z]] under the [i] flag: a letter of either case. *)
Definition isLetter (c : ascii) : bool := inRange 97 122 c || inRange 65 90 c.
Definition isDigit (c : ascii) : bool := inRange 48 57 c.

(** [[a-z_$]] and [[a-z0-9_$-]] under the [i] flag. *)
Definition nameStart (c : ascii) : bool := isLetter c || isChar 95 c || isChar 36 c.
Definition nameRest (c : ascii) : bool :=
  isLetter c || isDigit c || isChar 95 c || isChar 36 c || isChar 45 c.

Fixpoint allChars (p : ascii -> bool) (s : string) : bool :=
  match s with
  | EmptyString => true
  | String c s' => p c && allChars p s'
  end.

(** [KEYWORD_NAME.test(kwd)] for [/^[a-z_$][a-z0-9_$-]*$/i]. *)
Definition KEYWORD_NAME (kwd : string) : bool :=
  match kwd with
  | EmptyString => false
  | String c s' => nameStart c && allChars nameRest s'
  end.

(** The pattern as the spec writes it, [^[a-z_$][a-z0-9_$-]*$], without a
    flag: lower-case letters only. *)
Definition specNameStart (c : ascii) : bool :=
  inRange 97 122 c || isChar 95 c || isChar 36 c.
Definition specNameRest (c : ascii) : bool :=
  inRange 97 122 c || isDigit c || isChar 95 c || isChar 36 c || isChar 45 c.
Definition specKeywordPattern (kwd : string) : bool :=
  match kwd with
  | EmptyString => false
  | String c s' => specNameStart c && allChars specNameRest s'
  end.

(** [array.findIndex(p)], with [None] for -1. *)
Fixpoint findIndex {A : Type} (p : A -> bool) (l : list A) : option nat :=
  match l with
  | [] => None
  | x :: l' => if p x then Some 0 else S <$> findIndex p l'
  end.

(** [array.splice(i, 0, x)] *)
Definition spliceInsert {A : Type} (i : nat) (x : A) (l : list A) : list A :=
  (take i l ++ x :: drop i l)%list.

(** [array.splice(i, 1)] *)
Definition spliceRemove {A : Type} (i : nat) (l : list A) : list A :=
  (take i l ++ drop (S i) l)%list.

Definition schemaOrData (schema_ : jsval) : jsval :=
  VObj [("anyOf",
         VArr [schema_;
               VObj [("$ref",
                      VStr "https://raw.githubusercontent.com/ajv-validator/ajv/master/lib/refs/data.json#")]])].

Section Keywords.
Context `{C : Collaborators}.

Definition set_vr_rules (g : list RuleGroup) (r : ValidationRules) : ValidationRules :=
  mkRules g (vr_keywords r) (vr_all r).
Definition set_vr_keywords (k : gmap string bool) (r : ValidationRules) : ValidationRules :=
  mkRules (vr_rules r) k (vr_all r).
Definition set_vr_all (a : gmap string RuleEntry) (r : ValidationRules) : ValidationRules :=
  mkRules (vr_rules r) (vr_keywords r) a.

Definition modifyRULES (f : ValidationRules -> ValidationRules) : M unit :=
  modify (fun st => set_RULES (f (RULES st)) st).

(** A rule group is an object of the array [RULES.rules]; groups are only
    ever appended to that array, so the group is known by its index.
    [setGroupRules] assigns the [rules] of the group at that index. *)
Definition setGroupRules (gi : nat) (f : list Rule -> list Rule) : M unit :=
  modifyRULES (fun r =>
    set_vr_rules (alter (fun g => mkRuleGroup (group_type g) (f (rules g))) gi (vr_rules r)) r).

(** [ruleGroup.rules] of the group at index [gi]. *)
Definition groupRules (gi : nat) (st : Ajv) : list Rule :=
  match vr_rules (RULES st) !! gi with
  | Some g => rules g
  | None => []
  end.

(** The [rules] of the group [RULES.rules.find(({type: t}) => t === dataType)],
    empty when there is no such group. *)
Definition groupIndex (dataType : option string) (r : ValidationRules) : option nat :=
  findIndex (fun g => bool_decide (group_type g = dataType)) (vr_rules r).

Definition rulesOfType (dataType : option string) (st : Ajv) : list Rule :=
  match groupIndex dataType (RULES st) with
  | Some i => groupRules i st
  | None => []
  end.

Definition jsonTypes : list string :=
  ["null"; "boolean"; "object"; "array"; "number"; "integer"; "string"].

Definition inList (t : string) (l : list string) : bool :=
  existsb (String.eqb t) l.

(** Modelled from the spec: [checkType] of compile/validate/dataType, which
    is not under src/: "assert each entry is a recognized JSON data type",
    the recognized types being null, boolean, object, array, number,
    integer and string. *)
Definition checkType (t : string) : M unit :=
  if inList t jsonTypes then ret tt
  else throw (Error ("type must be JSONType or JSONType[]: " +:+ t)).

(** Truthiness of [def.type]: an array is truthy, a string is unless empty. *)
Definition typeTruthy (t : OneOrMany string) : bool :=
  match t with
  | One s => negb (String.eqb s EmptyString)
  | Many _ => true
  end.

Definition checkKeyword (keyword : OneOrMany string) (def : option KeywordDefinition)
  : M unit :=
  forEach (fun kwd =>
             st <- get ;;
             if default (inherited kwd) (vr_keywords (RULES st) !! kwd)
             then throw (Error ("Keyword " +:+ kwd +:+ " is already defined"))
             else if negb (KEYWORD_NAME kwd)
             then throw (Error ("Keyword " +:+ kwd +:+ " has invalid name"))
             else ret tt)
          (eachItem keyword) ;;;
  match def with
  | None => ret tt
  | Some d =>
      (match def_type d with
       | Some t => if typeTruthy t then forEach checkType (eachItem t) else ret tt
       | None => ret tt
       end) ;;;
      if def_data d && negb (def_hasCode d || def_hasValidate d)
      then throw (Error ("$data keyword must have " +:+ dquote +:+ "code" +:+ dquote
                         +:+ " or " +:+ dquote +:+ "validate" +:+ dquote +:+ " function"))
      else ret tt
  end.

Definition set_def_validateSchema (v : option ValidateFunction) (d : KeywordDefinition)
  : KeywordDefinition :=
  mkDefinition (def_keyword d) (def_type d) (def_hasCode d) (def_hasValidate d)
    (def_data d) (def_before d) (def_implements d) (def_metaSchema d) v.

Definition set_def_keyword (k : OneOrMany string) (d : KeywordDefinition)
  : KeywordDefinition :=
  mkDefinition k (def_type d) (def_hasCode d) (def_hasValidate d)
    (def_data d) (def_before d) (def_implements d) (def_metaSchema d)
    (def_validateSchema d).

(** [keywordMetaschema] assigns [def.validateSchema]; the definition with
    the field assigned is returned. *)
Definition keywordMetaschema (def : KeywordDefinition) : M KeywordDefinition :=
  match def_metaSchema def with
  | None => ret def
  | Some metaSchema_ =>
      st <- get ;;
      let metaSchema' :=
        if def_data def && opt_data (opts st) then schemaOrData metaSchema_
        else metaSchema_ in
      v <- compile metaSchema' true ;;
      ret (set_def_validateSchema (Some v) def)
  end.

Definition addBeforeRule (ruleGroup : nat) (rule : Rule) (before : string) : M unit :=
  st <- get ;;
  match findIndex (fun _rule => String.eqb (rule_keyword _rule) before)
                  (groupRules ruleGroup st) with
  | Some i => setGroupRules ruleGroup (spliceInsert i rule)
  | None =>
      setGroupRules ruleGroup (fun l => l ++ [rule])%list ;;;
      log LWarn ("rule " +:+ before +:+ " is not defined")
  end.

(** [addRule], with the method [this.addKeyword] it calls on the implied
    keywords as an argument. *)
Definition addRuleWith (addKeyword_ : string -> M unit)
    (keyword : string) (dataType : option string)
    (definition_ : option KeywordDefinition) : M unit :=
  st <- get ;;
  ruleGroup <-
    match groupIndex dataType (RULES st) with
    | Some i => ret i
    | None =>
        modifyRULES (fun r => set_vr_rules (vr_rules r ++ [mkRuleGroup dataType []])%list r) ;;;
        ret (length (vr_rules (RULES st)))
    end ;;
  modifyRULES (fun r => set_vr_keywords (<[keyword := true]> (vr_keywords r)) r) ;;;
  match definition_ with
  | None => ret tt
  | Some d =>
      let rule := mkRule keyword d in
      (match def_before d with
       | Some before =>
           if negb (String.eqb before EmptyString)
           then addBeforeRule ruleGroup rule before
           else setGroupRules ruleGroup (fun l => l ++ [rule])%list
       | None => setGroupRules ruleGroup (fun l => l ++ [rule])%list
       end) ;;;
      modifyRULES (fun r => set_vr_all (<[keyword := RuleObj rule]> (vr_all r)) r) ;;;
      match def_implements d with
      | Some kwds => forEach addKeyword_ kwds
      | None => ret tt
      end
  end.

(** The first argument of [addKeyword]: a name, a definition, or anything
    else. *)
Inductive KwdOrDef : Type :=
| Kwd (keyword : string)
| Def (def : KeywordDefinition)
| NotKwdOrDef.

(** The data types [eachItem(def?.type, ..)] runs on: [undefined] alone when
    there is no definition or no [type]. *)
Definition defTypes (def : option KeywordDefinition) : list (option string) :=
  match def with
  | Some d =>
      match def_type d with
      | Some t => Some <$> eachItem t
      | None => [None]
      end
  | None => [None]
  end.

(** [addKeyword], with the function [addRule] it calls as an argument. *)
Definition addKeywordWith
    (addRule_ : string -> option string -> option KeywordDefinition -> M unit)
    (kwdOrDef : KwdOrDef) (def : option KeywordDefinition) : M unit :=
  kd <- match kwdOrDef, def with
        | Kwd keyword, Some d =>
            log LWarn "these parameters are deprecated, see docs for addKeyword" ;;;
            ret (One keyword, Some (set_def_keyword (One keyword) d))
        | Kwd keyword, None => ret (One keyword, None)
        | Def d, None => ret (def_keyword d, Some d)
        | _, _ => throw (Error "invalid addKeywords parameters")
        end ;;
  let keyword := kd.1 in
  checkKeyword keyword kd.2 ;;;
  def' <- match kd.2 with
          | Some d => d' <- keywordMetaschema d ;; ret (Some d')
          | None => ret None
          end ;;
  forEach (fun kwd => forEach (fun t => addRule_ kwd t def') (defTypes def'))
          (eachItem keyword).

(** The call [this.addKeyword(kwd)] of [addRule] passes a name and no
    definition; [addRule] then returns before it reaches [implements], so
    this call never calls [addKeyword] again. *)
Definition addImpliedKeyword (kwd : string) : M unit :=
  addKeywordWith (addRuleWith (fun _ => ret tt)) (Kwd kwd) None.

Definition addRule : string -> option string -> option KeywordDefinition -> M unit :=
  addRuleWith addImpliedKeyword.

Definition addKeyword : KwdOrDef -> option KeywordDefinition -> M unit :=
  addKeywordWith addRule.

Definition addVocabulary (definitions : list KwdOrDef) : M unit :=
  forEach (fun def => addKeyword def None) definitions.

Definition removeKeyword (keyword : string) : M unit :=
  modifyRULES (fun r => set_vr_keywords (delete keyword (vr_keywords r)) r) ;;;
  modifyRULES (fun r => set_vr_all (delete keyword (vr_all r)) r) ;;;
  modifyRULES (fun r =>
    set_vr_rules
      (map (fun group =>
              match findIndex (fun rule => String.eqb (rule_keyword rule) keyword)
                              (rules group) with
              | Some i => mkRuleGroup (group_type group) (spliceRemove i (rules group))
              | None => group
              end) (vr_rules r)) r).

(** [getKeyword(keyword)]: the definition of the rule object that
    [RULES.all] holds for the keyword, and [!!rule] otherwise.  For a name
    without an entry of its own, [RULES.all[keyword]] is [undefined] or a
    member of [Object.prototype]: a function, so that [!!rule] is [true],
    or for [__proto__] the prototype itself, an object, whose [definition]
    is [undefined]. *)
Definition getKeyword (keyword : string) : M (KeywordDefinition + jsval) :=
  st <- get ;;
  ret (match vr_all (RULES st) !! keyword with
       | Some (RuleObj rule) => inl (definition rule)
       | Some (RuleFlag b) => inr (VBool b)
       | None =>
           if String.eqb keyword "__proto__" then inr VUndef
           else inr (VBool (inherited keyword))
       end).

(** *** Vocabulary of the statements about the registry *)

(** The groups and the log are left as they were. *)
Definition groupsKept (st st' : Ajv) : Prop :=
  (forall t, rulesOfType t st' = rulesOfType t st) /\ logger st' = logger st.

(** What [addRule] does to the group of [dataType] when the definition has a
    [before] hint [X] that is not the empty string. *)
Definition afterBefore (X : string) (rule : Rule) (old : list Rule) : list Rule :=
  match findIndex (fun r => String.eqb (rule_keyword r) X) old with
  | Some i => spliceInsert i rule old
  | None => (old ++ [rule])%list
  end.

Definition logAfterBefore (X : string) (old : list Rule) (l : list (Level * string))
  : list (Level * string) :=
  match findIndex (fun r => String.eqb (rule_keyword r) X) old with
  | Some _ => l
  | None => (l ++ [(LWarn, "rule " +:+ X +:+ " is not defined")])%list
  end.

(** The error of the name check of [checkKeyword] on one name, if any. *)
Definition nameError (r : ValidationRules) (kwd : string) : option Exn :=
  if default (inherited kwd) (vr_keywords r !! kwd)
  then Some (Error ("Keyword " +:+ kwd +:+ " is already defined"))
  else if negb (KEYWORD_NAME kwd)
  then Some (Error ("Keyword " +:+ kwd +:+ " has invalid name"))
  else None.

(** A definition that passes every check of [addKeyword] other than the
    name check: its types are recognised, a [$data] keyword has [code] or
    [validate], and it has no meta-schema to compile and no implied
    keywords to add. *)
Definition otherwiseValid (d : KeywordDefinition) : bool :=
  match def_type d with
  | Some t => negb (typeTruthy t) || forallb (fun t => inList t jsonTypes) (eachItem t)
  | None => true
  end
  && (negb (def_data d) || def_hasCode d || def_hasValidate d)
  && match def_metaSchema d with None => true | Some _ => false end
  && match def_implements d with None | Some [] => true | Some _ => false end.

(** Where [addRule] puts a rule in the rules of its group: before the first
    rule of the keyword [before] names when there is one, at the end
    otherwise. *)
Definition insertRule (rule : Rule) (old : list Rule) : list Rule :=
  match def_before (definition rule) with
  | Some X =>
      if String.eqb X EmptyString then (old ++ [rule])%list
      else afterBefore X rule old
  | None => (old ++ [rule])%list
  end.

(** The keyword is registered with that definition. *)
Definition registered (keyword : string) (d : KeywordDefinition) (st : Ajv) : Prop :=
  vr_all (RULES st) !! keyword = Some (RuleObj (mkRule keyword d))
  /\ vr_keywords (RULES st) !! keyword = Some true.

(** What adding names does to the tables of the registry: [RULES.all] is
    left as it is and no name is taken out of [RULES.keywords]. *)
Definition tablesGrow (st st' : Ajv) : Prop :=
  vr_all (RULES st') = vr_all (RULES st)
  /\ forall k0, vr_keywords (RULES st) !! k0 = Some true ->
                vr_keywords (RULES st') !! k0 = Some true.

(** The errors of the name check on a list of names, in order. *)
Definition nameErrors (r : ValidationRules) (kwds : list string) : list Exn :=
  omap (nameError r) kwds.

(** A list of rules without the first rule of a keyword. *)
Fixpoint removeFirst (keyword : string) (l : list Rule) : list Rule :=
  match l with
  | [] => []
  | rule :: l' =>
      if String.eqb (rule_keyword rule) keyword then l'
      else rule :: removeFirst keyword l'
  end.

(** Whether a list of rules has a rule of a keyword. *)
Definition hasRule (keyword : string) (l : list Rule) : bool :=
  existsb (fun rule => String.eqb (rule_keyword rule) keyword) l.

(** The definition as the registry stores it: [keywordMetaschema] has
    assigned [validateSchema] when the definition has a meta-schema. *)
Definition storedAs (d d' : KeywordDefinition) : Prop :=
  d' = set_def_validateSchema (def_validateSchema d') d
  /\ match def_metaSchema d with
     | None => d' = d
     | Some _ => exists v, def_validateSchema d' = Some v
     end.

End Keywords.

End Ajv.

(** ** Lookup by key and validation

    The bodies of the methods [getSchema] and [validate], which
    [validateSchema] and [defaultMeta] call through the collaborators of
    the same names.  What they call and src/ does not contain is a
    parameter: the resolver, and the call of a compiled function. *)

Module Lookup.
Import Js Ajv.

(** The outcome of code with a loop that may not end. *)
Inductive Loop (A : Type) : Type :=
| OutOfFuel
| Done (a : A).
Arguments OutOfFuel {A}.
Arguments Done {A} a.

Section Bodies.
Context `{C : Collaborators}.

(** [resolveSchema.call(this, root, keyRef)] on a new root environment for
    the schema [{}]. *)
Variable resolveSchema : string -> M (option SchemaEnv).

(** The call [v(data)] of a compiled function: what it returns, and
    [v.errors] after the call. *)
Variable callValidator : ValidateFunction -> jsval -> M (ValidateResult * ErrorsField).

(** [v.$async === true] *)
Variable isAsync : ValidateFunction -> bool.

(** What the loop of [getSchema] ends on: a schema environment, a member
    of [Object.prototype], or [undefined]. *)
Inductive Found : Type :=
| FoundEnv (e : SchemaEnv)
| FoundMember (name : string)
| FoundNothing.

(** The loop
    [while (typeof (sch = getSchEnv.call(this, keyRef)) == "string") keyRef = sch]:
    the key it ends on and what was found there.  [fuel] bounds the number
    of iterations; on a cycle of aliases the loop does not end. *)
Fixpoint followAliases (fuel : nat) (keyRef : string) : M (Loop (string * Found)) :=
  match fuel with
  | 0 => ret OutOfFuel
  | S fuel' =>
      sch <- getSchEnv keyRef ;;
      match sch with
      | Some (Alias ref) => followAliases fuel' ref
      | Some (Env e) => ret (Done (keyRef, FoundEnv e))
      | Some (Member name) => ret (Done (keyRef, FoundMember name))
      | None => ret (Done (keyRef, FoundNothing))
      end
  end.

(** [sch.validate || this._compileSchemaEnv(sch)] *)
Definition validateOrCompile (sch : SchemaEnv) : M ValidateFunction :=
  v <- readValidate sch ;;
  match v with
  | Some f => ret f
  | None => _compileSchemaEnv sch
  end.

Definition getSchema (fuel : nat) (keyRef : string)
  : M (Loop (option ValidateFunction)) :=
  r <- followAliases fuel keyRef ;;
  match r with
  | OutOfFuel => ret OutOfFuel
  | Done (keyRef', found) =>
      sch <- match found with
             | FoundEnv e => ret (Some (Env e))
             | FoundMember name => ret (Some (Member name))
             | FoundNothing =>
                 sch <- resolveSchema keyRef' ;;
                 match sch with
                 | None => ret None
                 | Some e =>
                     modify (fun st => set_refs (<[keyRef' := Env e]> (refs st)) st) ;;;
                     ret (Some (Env e))
                 end
             end ;;
      match sch with
      | Some (Env e) => f <- validateOrCompile e ;; ret (Done (Some f))
      | Some (Member name) => f <- compileMember name ;; ret (Done (Some f))
      | _ => ret (Done None)
      end
  end.

Definition noSchema (keyRef : string) : string :=
  "no schema with key or ref " +:+ dquote +:+ keyRef +:+ dquote.

(** The last lines of [validate]: the call, and the assignment of
    [this.errors] unless the function is asynchronous. *)
Definition runValidator (v : ValidateFunction) (data_ : jsval) : M ValidateResult :=
  r <- callValidator v data_ ;;
  (if negb (isAsync v) then modify (set_errors r.2) else ret tt) ;;;
  ret r.1.

Definition validate (fuel : nat) (schemaKeyRef : jsval) (data_ : jsval)
  : M (Loop ValidateResult) :=
  v <- match schemaKeyRef with
       | VStr keyRef =>
           r <- getSchema fuel keyRef ;;
           match r with
           | OutOfFuel => ret OutOfFuel
           | Done None => throw (Error (noSchema keyRef))
           | Done (Some f) => ret (Done f)
           end
       | _ =>
           sch <- _addSchema schemaKeyRef false None None ;;
           f <- validateOrCompile sch ;;
           ret (Done f)
       end ;;
  match v with
  | OutOfFuel => ret OutOfFuel
  | Done f => valid <- runValidator f data_ ;; ret (Done valid)
  end.

End Bodies.

End Lookup.

(** ** [$dataMetaSchema] on a store of objects

    [$dataMetaSchema] copies its argument and assigns properties of the copy,
    and the claim about it is about identity and mutation, so objects live in
    a store here: a value is a primitive or a reference to an object of the
    store, and an assignment replaces the object at a reference. *)

Module DataMeta.
Import Js Ajv.

Abbreviation loc := nat.

Inductive val : Type :=
| Undef
| Null
| Bool (b : bool)
| Num (n : Z)
| Str (s : string)
| Ref (l : loc).

(** An object with its own properties in order, or an array. *)
Inductive object : Type :=
| Obj (props : list (string * val))
| Arr (elems : list val).

(** The store: the object at reference [l] is the [l]-th; a new object is
    appended. *)
Abbreviation heap := (list object).

Definition truthyVal (v : val) : bool :=
  match v with
  | Undef | Null => false
  | Bool b => b
  | Num n => negb (n =? 0)%Z
  | Str s => negb (String.eqb s EmptyString)
  | Ref _ => true
  end.

Fixpoint lookupProp (ps : list (string * val)) (k : string) : val :=
  match ps with
  | [] => Undef
  | (k', v) :: ps' => if String.eqb k' k then v else lookupProp ps' k
  end.

(** [o[k] = x] on the property list of an object: the property keeps its
    place when it exists and is added at the end otherwise. *)
Fixpoint assignProp (ps : list (string * val)) (k : string) (x : val)
  : list (string * val) :=
  match ps with
  | [] => [(k, x)]
  | (k', v) :: ps' =>
      if String.eqb k' k then (k', x) :: ps' else (k', v) :: assignProp ps' k x
  end.

(** The index a property key denotes in an array of [n] elements. *)
Definition arrayIndex (k : string) (n : nat) : option nat :=
  List.find (fun i => String.eqb (pretty i) k) (seq 0 n).

Fixpoint charAt (s : string) (i : nat) : option ascii :=
  match s, i with
  | EmptyString, _ => None
  | String c _, 0 => Some c
  | String _ s', S i' => charAt s' i'
  end.

(** [v[k]]: a [TypeError] on [undefined] and [null]; the own properties of
    an object, the elements and the [length] of an array, the characters
    and the [length] of a string.  Properties inherited from a prototype
    are not modelled. *)
Definition getMember (h : heap) (v : val) (k : string) : Res val :=
  match v with
  | Undef | Null => Throw (TypeError "Cannot read properties of undefined or null")
  | Bool _ | Num _ => Ok Undef
  | Str s =>
      if String.eqb k "length" then Ok (Num (Z.of_nat (String.length s)))
      else match arrayIndex k (String.length s) ≫= charAt s with
           | Some c => Ok (Str (String c EmptyString))
           | None => Ok Undef
           end
  | Ref l =>
      match h !! l with
      | Some (Obj ps) => Ok (lookupProp ps k)
      | Some (Arr es) =>
          if String.eqb k "length" then Ok (Num (Z.of_nat (length es)))
          else Ok (default Undef (arrayIndex k (length es) ≫= (es !!.)))
      | None => Ok Undef
      end
  end.

(** [v[k] = x] in strict mode, for a [k] at which [v[k]] was read truthy:
    a property of an object or an element of an array is replaced; the
    [length] of an array cannot be an object; a primitive cannot be
    assigned to. *)
Definition assign (h : heap) (v : val) (k : string) (x : val) : Res heap :=
  match v with
  | Ref l =>
      match h !! l with
      | Some (Obj ps) => Ok (<[l := Obj (assignProp ps k x)]> h)
      | Some (Arr es) =>
          if String.eqb k "length" then Throw (RangeError "Invalid array length")
          else match arrayIndex k (length es) with
               | Some i => Ok (<[l := Arr (<[i := x]> es)]> h)
               | None => Ok h
               end
      | None => Ok h
      end
  | _ => Throw (TypeError "Cannot assign to a property of a primitive value")
  end.

(** An element of an array that serializes to [undefined] is written
    [null]; a property that does is left out. *)
Definition arrayItem (j : jsval) : jsval :=
  match j with
  | VUndef => VNull
  | _ => j
  end.

Definition keepProp (kj : string * jsval) : bool :=
  match kj.2 with
  | VUndef => false
  | _ => true
  end.

(** What [JSON.stringify(v)] writes, as the JSON value the text denotes
    ([VUndef] when it returns [undefined]); [None] when the structure is
    circular.  [fuel] bounds the depth of nesting. *)
Fixpoint toJSON (fuel : nat) (h : heap) (v : val) : option jsval :=
  match v with
  | Undef => Some VUndef
  | Null => Some VNull
  | Bool b => Some (VBool b)
  | Num n => Some (VNum n)
  | Str s => Some (VStr s)
  | Ref l =>
      match fuel with
      | 0 => None
      | S fuel' =>
          match h !! l with
          | Some (Arr es) =>
              js ← mapM (toJSON fuel' h) es;
              Some (VArr (arrayItem <$> js))
          | Some (Obj ps) =>
              js ← mapM (toJSON fuel' h) ps.*2;
              Some (VObj (List.filter keepProp (zip ps.*1 js)))
          | None => None
          end
      end
  end.

(** [JSON.parse] of the text of a JSON value: the objects and arrays of
    the value are created, innermost first. *)
Fixpoint fromJSON (j : jsval) (h : heap) : val * heap :=
  match j with
  | VUndef => (Undef, h)
  | VNull => (Null, h)
  | VBool b => (Bool b, h)
  | VNum n => (Num n, h)
  | VStr s => (Str s, h)
  | VArr xs =>
      let r := (fix elems (l : list jsval) (h : heap) : list val * heap :=
                  match l with
                  | [] => ([], h)
                  | x :: l' =>
                      let r1 := fromJSON x h in
                      let r2 := elems l' r1.2 in
                      (r1.1 :: r2.1, r2.2)
                  end) xs h in
      (Ref (length r.2), r.2 ++ [Arr r.1])%list
  | VObj ps =>
      let r := (fix props (l : list (string * jsval)) (h : heap)
                  : list (string * val) * heap :=
                  match l with
                  | [] => ([], h)
                  | (k, x) :: l' =>
                      let r1 := fromJSON x h in
                      let r2 := props l' r1.2 in
                      ((k, r1.1) :: r2.1, r2.2)
                  end) ps h in
      (Ref (length r.2), r.2 ++ [Obj r.1])%list
  end.

(** [JSON.parse(JSON.stringify(v))].  A chain of nested objects longer than
    the store has objects passes through some object twice, so the fuel
    runs out only on a circular structure, on which [JSON.stringify]
    throws. *)
Definition jsonClone (v : val) (h : heap) : Res val * heap :=
  match toJSON (S (length h)) h v with
  | None => (Throw (TypeError "Converting circular structure to JSON"), h)
  | Some VUndef => (Throw (SyntaxError "undefined is not valid JSON"), h)
  | Some j => let r := fromJSON j h in (Ok r.1, r.2)
  end.

(** [s.split("/")] *)
Fixpoint splitSlash (s : string) : list string :=
  match s with
  | EmptyString => [EmptyString]
  | String c s' =>
      if isChar 47 c then EmptyString :: splitSlash s'
      else match splitSlash s' with
           | x :: r => String c x :: r
           | [] => [String c EmptyString]
           end
  end.

(** [for (const seg of segments) keywords = keywords[seg]] *)
Fixpoint navigate (h : heap) (keywords : val) (segments : list string) : Res val :=
  match segments with
  | [] => Ok keywords
  | seg :: rest =>
      match getMember h keywords seg with
      | Ok v => navigate h v rest
      | Throw e => Throw e
      end
  end.

(** [schemaOrData(schema)]: the new object [{anyOf: [schema, $dataRef]}];
    [$dataRef] is the one object of that name of the module. *)
Definition schemaOrDataObj (dataRef : val) (schema_ : val) (h : heap) : val * heap :=
  let h1 := (h ++ [Arr [schema_; dataRef]])%list in
  (Ref (length h1), (h1 ++ [Obj [("anyOf", Ref (length h))]])%list).

(** The loop [for (const key in rules)] on the entries of [RULES.all]. *)
Fixpoint wrapKeywords (rules_ : list (string * RuleEntry)) (dataRef keywords : val)
    (h : heap) : Res unit * heap :=
  match rules_ with
  | [] => (Ok tt, h)
  | (key, RuleFlag _) :: rest => wrapKeywords rest dataRef keywords h
  | (key, RuleObj rule) :: rest =>
      match getMember h keywords key with
      | Throw e => (Throw e, h)
      | Ok schema_ =>
          if def_data (definition rule) && truthyVal schema_ then
            let r := schemaOrDataObj dataRef schema_ h in
            match assign r.2 keywords key r.1 with
            | Ok h' => wrapKeywords rest dataRef keywords h'
            | Throw e => (Throw e, r.2)
            end
          else wrapKeywords rest dataRef keywords h
      end
  end.

(** [$dataMetaSchema(metaSchema, keywordsJsonPointers)], given the entries of
    [this.RULES.all] in the order of [for .. in]. *)
Fixpoint dataMetaSchemaWith (rules_ : list (string * RuleEntry)) (dataRef : val)
    (metaSchema : val) (keywordsJsonPointers : list string) (h : heap)
  : Res val * heap :=
  match keywordsJsonPointers with
  | [] => (Ok metaSchema, h)
  | jsonPointer :: rest =>
      match jsonClone metaSchema h with
      | (Throw e, h1) => (Throw e, h1)
      | (Ok metaSchema', h1) =>
          let segments := tail (splitSlash jsonPointer) in
          match navigate h1 metaSchema' segments with
          | Throw e => (Throw e, h1)
          | Ok keywords =>
              match wrapKeywords rules_ dataRef keywords h1 with
              | (Throw e, h2) => (Throw e, h2)
              | (Ok _, h2) => dataMetaSchemaWith rules_ dataRef metaSchema' rest h2
              end
          end
      end
  end.

Definition dataMetaSchema (this : Ajv) (dataRef : val) (metaSchema : val)
    (keywordsJsonPointers : list string) (h : heap) : Res val * heap :=
  dataMetaSchemaWith (map_to_list (vr_all (RULES this))) dataRef metaSchema
    keywordsJsonPointers h.

(** Whether the rules hold, under a key, a rule object whose definition
    has [$data]. *)
Definition dataRule (rules_ : list (string * RuleEntry)) (key : string) : bool :=
  existsb (fun kr => String.eqb kr.1 key
                     && match kr.2 with
                        | RuleObj rule => def_data (definition rule)
                        | RuleFlag _ => false
                        end) rules_.

(** The value [v] is an object [{anyOf: [schema, $dataRef]}] made of two
    objects that did not exist when the store had [n] objects. *)
Definition wrapped (h : heap) (n : nat) (dataRef schema_ v : val) : Prop :=
  exists o a, v = Ref o /\ n <= a /\ n <= o
              /\ h !! o = Some (Obj [("anyOf", Ref a)])
              /\ h !! a = Some (Arr [schema_; dataRef]).

(** A value that refers to nothing below [n]. *)
Definition above (n : nat) (v : val) : Prop :=
  match v with
  | Ref l => n <= l
  | _ => True
  end.

Definition objAbove (n : nat) (o : object) : Prop :=
  match o with
  | Obj ps => Forall (above n) ps.*2
  | Arr es => Forall (above n) es
  end.

(** The objects [JSON.parse] creates are new, and refer to new objects
    only. *)
Definition extends (h : heap) (r : val * heap) : Prop :=
  exists ext, r.2 = (h ++ ext)%list
              /\ above (length h) r.1
              /\ Forall (objAbove (length h)) ext.

(** ** [$dataMetaSchema] on JSON values

    The three loops of the function once more, on the JSON value that
    [metaSchema] serializes to instead of on the store: [wrapProps] is the
    loop [for (const key in rules)], [updateAt] follows
    [for (const seg of segments) keywords = keywords[seg]] to the object
    that is changed, and [wrapAll] is the loop over the pointers.  The
    functions above are the code; these are what its result is compared
    with. *)

(** [o[k] = x] on the properties of a JSON object, as [assignProp]. *)
Fixpoint putProp (ps : list (string * jsval)) (k : string) (x : jsval)
  : list (string * jsval) :=
  match ps with
  | [] => [(k, x)]
  | (k', v) :: ps' =>
      if String.eqb k' k then (k', x) :: ps' else (k', v) :: putProp ps' k x
  end.

(** [{anyOf: [schema, $dataRef]}] as JSON. *)
Definition schemaOrDataJSON (jd schema_ : jsval) : jsval :=
  VObj [("anyOf", VArr [schema_; jd])].

(** The loop over the rules on the properties of [keywords]: entries of
    [RULES.all] that are no objects are skipped; [keywords[key]] is
    replaced when the definition has [$data] and the value is truthy. *)
Fixpoint wrapProps (rules_ : list (string * RuleEntry)) (jd : jsval)
    (ps : list (string * jsval)) : list (string * jsval) :=
  match rules_ with
  | [] => ps
  | (key, RuleFlag _) :: rest => wrapProps rest jd ps
  | (key, RuleObj rule) :: rest =>
      if def_data (definition rule) && truthy (getProp ps key)
      then wrapProps rest jd (putProp ps key (schemaOrDataJSON jd (getProp ps key)))
      else wrapProps rest jd ps
  end.

(** The JSON value with [f] applied to the properties of the object that the
    segments lead to, through objects; [None] when they do not. *)
Fixpoint updateAt (f : list (string * jsval) -> list (string * jsval))
    (segments : list string) (j : jsval) : option jsval :=
  match segments with
  | [] =>
      match j with
      | VObj ps => Some (VObj (f ps))
      | _ => None
      end
  | seg :: rest =>
      match j with
      | VObj ps =>
          j' ← updateAt f rest (getProp ps seg);
          Some (VObj (putProp ps seg j'))
      | _ => None
      end
  end.

(** One round for each pointer, on the value the round before has left;
    the first segment of [jsonPointer.split("/")] is dropped. *)
Fixpoint wrapAll (rules_ : list (string * RuleEntry)) (jd : jsval)
    (pointers : list string) (j : jsval) : option jsval :=
  match pointers with
  | [] => Some j
  | p :: rest =>
      j' ← updateAt (wrapProps rules_ jd) (tail (splitSlash p)) j;
      wrapAll rules_ jd rest j'
  end.

(** A JSON value as [JSON.stringify] writes one: with no [undefined] in it. *)
Fixpoint clean (j : jsval) : bool :=
  match j with
  | VUndef => false
  | VArr xs => forallb clean xs
  | VObj ps => forallb (fun kx => clean kx.2) ps
  | _ => true
  end.

(** The loops of [fromJSON] over the elements of an array and over the
    properties of an object. *)
Fixpoint fromElems (l : list jsval) (h : heap) : list val * heap :=
  match l with
  | [] => ([], h)
  | x :: l' =>
      let r1 := fromJSON x h in
      let r2 := fromElems l' r1.2 in
      (r1.1 :: r2.1, r2.2)
  end.

Fixpoint fromProps (l : list (string * jsval)) (h : heap)
  : list (string * val) * heap :=
  match l with
  | [] => ([], h)
  | (k, x) :: l' =>
      let r1 := fromJSON x h in
      let r2 := fromProps l' r1.2 in
      ((k, r1.1) :: r2.1, r2.2)
  end.

(** The stores agree on the objects from [lo] up to [hi]. *)
Definition agreeOn (lo hi : nat) (h1 h2 : heap) : Prop :=
  forall i, lo <= i -> i < hi -> h2 !! i = h1 !! i.

(** The second store has every object of the first but the one at [lk]. *)
Definition agreeExcept (lk : loc) (h1 h2 : heap) : Prop :=
  forall i, i <> lk -> i < length h1 -> h2 !! i = h1 !! i.

(** The value serializes to [j], whatever the object at [lk] holds. *)
Definition stable (lk : loc) (h : heap) (v : val) (j : jsval) : Prop :=
  j <> VUndef
  /\ forall h', agreeExcept lk h h' -> exists n, toJSON n h' v = Some j.

(** Properties with the same keys, in the same order, and related values. *)
Definition related (R : val -> jsval -> Prop) (ps : list (string * val))
    (jps : list (string * jsval)) : Prop :=
  Forall2 (fun p q => p.1 = q.1 /\ R p.2 q.2) ps jps.

(** The size of a JSON value; [undefined] is below every other value. *)
Fixpoint jsize (j : jsval) : nat :=
  match j with
  | VUndef => 0
  | VArr xs => S ((fix go (l : list jsval) : nat :=
                     match l with
                     | [] => 0
                     | x :: r => jsize x + go r
                     end) xs)
  | VObj ps => S ((fix go (l : list (string * jsval)) : nat :=
                     match l with
                     | [] => 0
                     | kx :: r => jsize kx.2 + go r
                     end) ps)
  | _ => 1
  end.

End DataMeta.


(** ** The asynchronous loader: [_loadSchema]

    [_loadSchema] is an [async] function with one [await].  JavaScript runs
    the code between two suspension points without interruption, so an
    activation of [_loadSchema] is two atomic steps: the call, up to the
    [return p] or to the [await], and, for an activation that reached the
    [await], the resumption once the awaited promise has settled, which runs
    the [finally] block.  The third kind of event comes from outside: a fetch
    that [loadSchema] started settles. *)

Module Loader.

(** A fetch is what one call of [loadSchema] starts; it is known by the
    promise that call returned. *)
Definition promise : Type := nat.

(** What the call [loadSchema(ref)] does: it returns a promise or throws. *)
Inductive LoadResult : Type := Returns | Throws.

Record State : Type := mkState {
  _loading : gmap string promise;
  (** the fetches that have not settled, with the ref each was started for *)
  unsettled : gmap promise string;
  (** the activations of [_loadSchema] suspended at the [await], by the
      promise each awaits, with its [ref] *)
  suspended : gmap promise string;
  (** the arguments of the calls of [loadSchema], latest first *)
  invoked : list string;
  nextPromise : promise
}.

Definition init : State := mkState ∅ ∅ ∅ [] 0.

Inductive Event : Type :=
| Call (ref : string) (r : LoadResult)
| Settle (p : promise) (fulfilled : bool)
| Resume (p : promise).

(** [_loadSchema(ref)] from its first line to the [return p] or the [await]:
    the new state and the promise the caller gets to wait on ([None] when
    [loadSchema] threw and the [finally] block has already run). *)
Definition call (ref : string) (r : LoadResult) (s : State) : State * option promise :=
  match _loading s !! ref with
  | Some p => (s, Some p)
  | None =>
      match r with
      | Returns =>
          let p := nextPromise s in
          (mkState (<[ref := p]> (_loading s)) (<[p := ref]> (unsettled s))
                   (<[p := ref]> (suspended s)) (ref :: invoked s) (S p),
           Some p)
      | Throws =>
          (mkState (delete ref (_loading s)) (unsettled s) (suspended s)
                   (ref :: invoked s) (nextPromise s),
           None)
      end
  end.

(** One event; [None] when the event cannot happen in the state: only a
    fetch that has not settled can settle, and only an activation whose
    awaited promise has settled can resume. *)
Definition step (ev : Event) (s : State) : option State :=
  match ev with
  | Call ref r => Some (call ref r s).1
  | Settle p _ =>
      match unsettled s !! p with
      | Some _ =>
          Some (mkState (_loading s) (delete p (unsettled s)) (suspended s)
                        (invoked s) (nextPromise s))
      | None => None
      end
  | Resume p =>
      match suspended s !! p, unsettled s !! p with
      | Some ref, None =>
          Some (mkState (delete ref (_loading s)) (unsettled s)
                        (delete p (suspended s)) (invoked s) (nextPromise s))
      | _, _ => None
      end
  end.

Fixpoint run (evs : list Event) (s : State) : option State :=
  match evs with
  | [] => Some s
  | ev :: evs' =>
      match step ev s with
      | Some s' => run evs' s'
      | None => None
      end
  end.

(** The number of calls of [loadSchema(ref)] so far. *)
Fixpoint countRef (ref : string) (l : list string) : nat :=
  match l with
  | [] => 0
  | r :: l' => (if String.eqb r ref then 1 else 0) + countRef ref l'
  end.

Definition invocations (ref : string) (s : State) : nat := countRef ref (invoked s).

(** The entries of [_loading] are the suspended activations, a fetch that
    has not settled has its activation suspended, and promises are new when
    handed out. *)
Record Inv (s : State) : Prop := mkInv {
  inv_loading : forall ref p, _loading s !! ref = Some p -> suspended s !! p = Some ref;
  inv_suspended : forall p ref, suspended s !! p = Some ref -> _loading s !! ref = Some p;
  inv_unsettled : forall p ref, unsettled s !! p = Some ref -> suspended s !! p = Some ref;
  inv_fresh : forall p ref, suspended s !! p = Some ref -> p < nextPromise s
}.

End Loader.


(** ** The [properties] keyword *)

Module Properties.
Import Js.

(** The subset of schemas the keyword is studied on: a boolean, or an object
    with [type], [default] and [properties]. *)
Inductive Schema : Type :=
| SBool (b : bool)
| SObj (type_ : list string) (default_ : option jsval)
       (properties_ : list (string * Schema)).

(** [schema.default], [undefined] for a boolean schema. *)
Definition defaultOf (s : Schema) : option jsval :=
  match s with
  | SBool _ => None
  | SObj _ d _ => d
  end.

(** The fields of the compilation context [it] that the keyword reads. *)
Record It : Type := mkIt {
  useDefaults : jsval;           (* [it.opts.useDefaults] *)
  ownProperties : bool;          (* [it.opts.ownProperties] *)
  compositeRule : bool;
  allErrors : bool
}.

(** The code the keyword emits, as the calls on [gen] build it. *)
Inductive Stmt : Type :=
| ApplySubschema (schemaProp dataProp : string)
| IfPropertyInData (prop : string) (own : bool) (then_ else_ : list Stmt)
| VarValidTrue
| OkValid.

(** Modelled from the spec: [schemaProperties] of vocabularies/util, which is
    not under src/: "for each declared property". *)
Definition schemaProperties (schema_ : list (string * Schema)) : list string :=
  schema_.*1.

Fixpoint subschema (schema_ : list (string * Schema)) (prop : string) : option Schema :=
  match schema_ with
  | [] => None
  | (p, s) :: rest => if String.eqb p prop then Some s else subschema rest prop
  end.

(** [hasDefault(prop)] *)
Definition hasDefault (it : It) (schema_ : list (string * Schema)) (prop : string) : bool :=
  truthy (useDefaults it) && negb (compositeRule it)
  && match subschema schema_ prop ≫= defaultOf with
     | Some d => negb (String.eqb (typeof d) "undefined")
     | None => false
     end.

(** [code(cxt)]: the statements emitted for the keyword value [schema]. *)
Definition code (it : It) (schema_ : list (string * Schema)) : list Stmt :=
  let properties := schemaProperties schema_ in
  if (length properties =? 0)%nat then []
  else
    flat_map
      (fun prop =>
         (if hasDefault it schema_ prop
          then [ApplySubschema prop prop]
          else [IfPropertyInData prop (ownProperties it)
                  [ApplySubschema prop prop]
                  (if negb (allErrors it) then [VarValidTrue] else [])])
         ++ [OkValid])%list
      properties.

(** The property names the emitted code applies a subschema to, in the
    order of the code, the branches of the conditionals included. *)
Fixpoint appliedStmt (st : Stmt) : list string :=
  match st with
  | ApplySubschema sp _ => [sp]
  | IfPropertyInData _ _ then_ else_ =>
      ((fix go (l : list Stmt) : list string :=
          match l with
          | [] => []
          | x :: r => (appliedStmt x ++ go r)%list
          end) then_
       ++
       (fix go (l : list Stmt) : list string :=
          match l with
          | [] => []
          | x :: r => (appliedStmt x ++ go r)%list
          end) else_)%list
  | VarValidTrue | OkValid => []
  end.

Definition applied (stmts : list Stmt) : list string := flat_map appliedStmt stmts.

(** The number of calls [ok(valid)] at the top level of the code. *)
Definition okCalls (stmts : list Stmt) : nat :=
  length (List.filter (fun st => match st with OkValid => true | _ => false end) stmts).

(** What is emitted for a property that is validated only when it is in
    the data. *)
Definition guarded (it : It) (prop : string) : list Stmt :=
  [IfPropertyInData prop (ownProperties it) [ApplySubschema prop prop]
     (if negb (allErrors it) then [VarValidTrue] else []);
   OkValid].

(** What is emitted for a property whose default has been assigned. *)
Definition unguarded (prop : string) : list Stmt :=
  [ApplySubschema prop prop; OkValid].

(** *** Running the emitted code *)

(** [o[k] = x] on the properties of the data. *)
Fixpoint setProp (ps : list (string * jsval)) (k : string) (x : jsval)
  : list (string * jsval) :=
  match ps with
  | [] => [(k, x)]
  | (k', v) :: ps' =>
      if String.eqb k' k then (k', x) :: ps' else (k', v) :: setProp ps' k x
  end.

Fixpoint hasOwn (ps : list (string * jsval)) (k : string) : bool :=
  match ps with
  | [] => false
  | (k', _) :: ps' => String.eqb k' k || hasOwn ps' k
  end.

(** The state of the emitted function: the properties of the data, the
    variable [valid], whether a check has failed, and whether the function has
    returned. *)
Record Run : Type := mkRun {
  fields : list (string * jsval);
  valid : bool;
  failed : bool;
  returned : bool
}.

(** A compiled subschema: the result and the data after the call. *)
Definition Validator : Type := jsval -> bool * jsval.

(** Modelled from the spec: [propertyInData] of vocabularies/util, which is
    not under src/: "if the property is present on the data". *)
Definition propertyInData (ps : list (string * jsval)) (prop : string) (own : bool) : bool :=
  negb (String.eqb (typeof (getProp ps prop)) "undefined")
  && (negb own || hasOwn ps prop).

(** Modelled from the spec: [applySubschema] and [ok] of the compiler, which
    are not under src/.  [applySubschema] "recursively compiles an embedded
    subschema and composes its result": the compiled subschema runs on the
    property, which it may change, and its result is assigned to [valid].
    [ok(valid)] "threads the keyword's boolean result into the overall
    success tracking": a failure is recorded and, unless [allErrors] is set,
    the function returns ("short-circuit on first failure"). *)
Fixpoint execStmt (all : bool) (subs : string -> option Validator)
    (st : Stmt) (r : Run) {struct st} : Run :=
  let block :=
    fix block (stmts : list Stmt) (r : Run) {struct stmts} : Run :=
      match stmts with
      | [] => r
      | st' :: rest =>
          if returned r then r else block rest (execStmt all subs st' r)
      end in
  match st with
  | ApplySubschema sp dp =>
      match subs sp with
      | Some v =>
          let res := v (getProp (fields r) dp) in
          mkRun (if hasOwn (fields r) dp then setProp (fields r) dp res.2
                 else fields r)
                res.1 (failed r) false
      | None => r
      end
  | IfPropertyInData prop own then_ else_ =>
      if propertyInData (fields r) prop own then block then_ r else block else_ r
  | VarValidTrue => mkRun (fields r) true (failed r) false
  | OkValid =>
      if valid r then r
      else mkRun (fields r) (valid r) true (negb all)
  end.

Fixpoint exec (all : bool) (subs : string -> option Validator)
    (stmts : list Stmt) (r : Run) {struct stmts} : Run :=
  match stmts with
  | [] => r
  | st :: rest =>
      if returned r then r else exec all subs rest (execStmt all subs st r)
  end.

(** Modelled from the spec: the type check, "passes iff the data matches
    any listed primitive type (null, boolean, object, array, number, integer,
    string)"; numbers here are integers. *)
Definition matchesType (t : string) (v : jsval) : bool :=
  match v with
  | VUndef => false
  | VNull => String.eqb t "null"
  | VBool _ => String.eqb t "boolean"
  | VNum _ => String.eqb t "number" || String.eqb t "integer"
  | VStr _ => String.eqb t "string"
  | VArr _ => String.eqb t "array"
  | VObj _ => String.eqb t "object"
  end.

Definition typeOk (types : list string) (v : jsval) : bool :=
  match types with
  | [] => true
  | _ => existsb (fun t => matchesType t v) types
  end.

(** Modelled from the spec: the injection of defaults, which the compiler
    does and src/ does not contain: a declared property that is absent from
    the data gets its [default] when "a default is applicable and defaults
    are enabled outside composite contexts", and "the injection precedes
    validation". *)
Fixpoint assignDefaults (schema_ : list (string * Schema))
    (ps : list (string * jsval)) : list (string * jsval) :=
  match schema_ with
  | [] => ps
  | (prop, s) :: rest =>
      let ps' :=
        match defaultOf s with
        | Some d =>
            if String.eqb (typeof (getProp ps prop)) "undefined"
               && negb (String.eqb (typeof d) "undefined")
            then setProp ps prop d else ps
        | None => ps
        end in
      assignDefaults rest ps'
  end.

(** The compiled subschemas of the declared properties, by property. *)
Section Compiled.
Variable compileOne : Schema -> Validator.

Fixpoint compiled (l : list (string * Schema)) (q : string) : option Validator :=
  match l with
  | [] => None
  | (p, sub) :: l' => if String.eqb p q then Some (compileOne sub) else compiled l' q
  end.
End Compiled.

(** Modelled from the spec: the validator the compiler produces for a
    schema of the subset.  A boolean schema accepts or rejects; for an object
    schema the type is checked and, on an object, defaults are injected and
    the code of [properties] runs, with the compiled subschema of each
    property. *)
Fixpoint validator (it : It) (s : Schema) {struct s} : Validator :=
  match s with
  | SBool b => fun data_ => (b, data_)
  | SObj types _ props =>
      fun data_ =>
        match data_ with
        | VObj ps =>
            let ps1 := if truthy (useDefaults it) && negb (compositeRule it)
                       then assignDefaults props ps else ps in
            let r := exec (allErrors it) (compiled (validator it) props)
                          (code it props) (mkRun ps1 true false false) in
            (typeOk types data_ && negb (failed r), VObj (fields r))
        | _ => (typeOk types data_, data_)
        end
  end.

(** The schema [{properties: {x: {default: 5, type: "number"}}}]. *)
Definition defaultFive : Schema :=
  SObj [] None [("x", SObj ["number"] (Some (VNum 5)) [])].

End Properties.


(** ** An instance with an always-successful compiler

    The collaborators of an instance created with [meta: false] whose
    compiler stores a new function object on the schema environment, whose
    resolver knows no schema and whose validators accept. *)

Module Plain.
Import Js Ajv DataMeta.

(** Modelled from the spec: [normalizeId] of compile/resolve, which is not
    under src/; the "URI/JSON-Pointer utilities" that "normalize IDs": a
    trailing [#] or [#/] is dropped, and a missing id is the empty id. *)
Fixpoint stripTrailingHash (s : string) : string :=
  match s with
  | EmptyString => EmptyString
  | String c s' =>
      if isChar 35 c && (String.eqb s' EmptyString || String.eqb s' "/")
      then EmptyString
      else String c (stripTrailingHash s')
  end.

Definition plainNormalizeId (id : option string) : string :=
  match id with
  | Some s => stripTrailingHash s
  | None => EmptyString
  end.

(** A compiler that always succeeds: it creates a function object and
    assigns it to [sch.validate].  On an object that is no schema
    environment the instances below have it assign nothing, so that
    [_compileSchemaEnv] throws; and their tables are visited in the order of
    the keys, as when the keys were created in that order. *)
Definition plainCompileSchema (sch : SchemaEnv) : M unit :=
  bind get (fun st =>
  bind (modify (set_nextId (S (nextId st)))) (fun _ =>
  modify (fun st' => set_validateOf (<[envId sch := nextId st]> (validateOf st')) st'))).

#[export] Instance plain : Collaborators := {
  serialize := fun v => propertyKey (stableStringify v);
  normalizeId := plainNormalizeId;
  getSchemaRefs := fun _ => ret ∅;
  compileSchema := plainCompileSchema;
  validate := fun _ _ => ret (Valid true);
  getSchema := fun _ => ret None;
  compileMember := fun _ => throw (Error "ajv implementation error");
  keyBefore := fun _ => String.leb
}.

Definition plainOptions : Options :=
  mkOptions VStrue true false (VBool false) VUndef.

Definition emptyRules : ValidationRules := mkRules [] ∅ ∅.

(** A new instance, before any vocabulary or schema is added. *)
Definition newAjv : Ajv :=
  mkAjv plainOptions plainOptions ErrorsUndefined ∅ ∅ emptyRules ∅ ∅ 0 [].

(** An instance holding one meta-schema and one other schema, each
    registered in [schemas] and [refs] and cached. *)
Definition metaEnv : SchemaEnv :=
  mkSchemaEnv 0 (VObj [("$id", VStr "m")]) "m" "{meta}" true ∅.
Definition userEnv : SchemaEnv :=
  mkSchemaEnv 1 (VObj [("$id", VStr "a")]) "a" "{user}" false ∅.

Definition twoSchemas : Ajv :=
  mkAjv plainOptions plainOptions ErrorsUndefined
    (<["m" := Env metaEnv]> (<["a" := Env userEnv]> ∅))
    (<["m" := Env metaEnv]> (<["a" := Env userEnv]> ∅))
    emptyRules
    (<["{meta}" := metaEnv]> (<["{user}" := userEnv]> ∅))
    ∅ 2 [].

(** The pattern [/^a/g].  With the g flag the match is looked for from
    [lastIndex] on, and [^] matches at index 0 only: the test succeeds, and
    leaves [lastIndex] at 1, the end of the match, when [lastIndex] is 0 and
    the string starts with [a]; otherwise it fails and leaves [lastIndex]
    at 0. *)
Definition startsWithA_g : RegExp :=
  mkRegExp (fun lastIndex s =>
              match lastIndex, s with
              | 0, String c _ => if isChar 97 c then (true, 1) else (false, 0)
              | _, _ => (false, 0)
              end) 0.

(** The pattern [/^a/], without a flag. *)
Definition startsWithA : RegExp :=
  mkRegExp (fun lastIndex s =>
              (match s with
               | String c _ => isChar 97 c
               | EmptyString => false
               end, lastIndex)) 0.

(** The instance after [addSchema] of three schemas with the ids [a1], [a2]
    and [a3], in that order. *)
Definition threeSchemas : Ajv :=
  (addSchema (VArr [VObj [("$id", VStr "a1")]; VObj [("$id", VStr "a2")];
                    VObj [("$id", VStr "a3")]]) None false None newAjv).2.

(** Keyword definitions with a code emitter and the type [number]. *)
Definition numberKeyword (name : string) (before : option string) : KeywordDefinition :=
  mkDefinition (One name) (Some (One "number")) true false false before None None None.

(** An instance whose group for [number] holds [minimum] and [maximum]. *)
Definition numberRules : Ajv :=
  mkAjv plainOptions plainOptions ErrorsUndefined ∅ ∅
    (mkRules [mkRuleGroup (Some "number")
                [mkRule "minimum" (numberKeyword "minimum" None);
                 mkRule "maximum" (numberKeyword "maximum" None)]]
             (<["minimum" := true]> (<["maximum" := true]> ∅))
             ∅)
    ∅ ∅ 0 [].

(** A store holding [$dataRef] at 0 and a meta-schema
    [{properties: {maxLength: {type: "integer"}, title: {type: "string"}}}]
    at 4. *)
Definition sampleHeap : heap :=
  [ Obj [("$ref", Str "https://raw.githubusercontent.com/ajv-validator/ajv/master/lib/refs/data.json#")];
    Obj [("type", Str "integer")];
    Obj [("type", Str "string")];
    Obj [("maxLength", Ref 1); ("title", Ref 2)];
    Obj [("properties", Ref 3)] ].

Definition sampleRules : list (string * RuleEntry) :=
  [("type", RuleFlag true);
   ("maxLength",
    RuleObj (mkRule "maxLength"
               (mkDefinition (One "maxLength") (Some (One "string")) true false true
                  None None None None)));
   ("title",
    RuleObj (mkRule "title"
               (mkDefinition (One "title") None true false false None None None None)))].

(** An instance whose [RULES.all] holds those keywords. *)
Definition dataKeywords : Ajv :=
  mkAjv plainOptions plainOptions ErrorsUndefined ∅ ∅
    (mkRules [] ∅ (list_to_map sampleRules)) ∅ ∅ 0 [].

(** The collaborators of an instance whose meta-schema validator rejects
    every schema. *)
Definition rejecting : Collaborators := {|
  serialize := fun v => propertyKey (stableStringify v);
  normalizeId := plainNormalizeId;
  getSchemaRefs := fun _ => ret ∅;
  compileSchema := plainCompileSchema;
  validate := fun _ _ => ret (Valid false);
  getSchema := fun _ => ret None;
  compileMember := fun _ => throw (Error "ajv implementation error");
  keyBefore := fun _ => String.leb
|}.

(** A resolver that knows no schema, and compiled functions that accept. *)
Definition noResolver (keyRef : string) : M (option SchemaEnv) := ret None.
Definition accepting (v : ValidateFunction) (data_ : jsval)
  : M (ValidateResult * ErrorsField) := ret (Valid true, ErrorsNull).

End Plain.

(** * Properties *)

Module AjvFacts.
Import Js Ajv.

Lemma append_assoc (a b c : string) : (a +:+ b) +:+ c = a +:+ b +:+ c.
Proof.
  induction a as [|x a IH]; [reflexivity|].
  change (String x ((a +:+ b) +:+ c) = String x (a +:+ b +:+ c)).
  now rewrite IH.
Qed.

Lemma append_nil_r (a : string) : a +:+ EmptyString = a.
Proof.
  induction a as [|x a IH]; [reflexivity|].
  change (String x (a +:+ EmptyString) = String x a).
  now rewrite IH.
Qed.

Lemma reduce_messages (sep : string) (msgs : list string) (text : string) :
  foldl (fun text msg => text +:+ msg +:+ sep) text msgs
  = text +:+ withSeparators sep msgs.
Proof.
  revert text. induction msgs as [|m msgs IH]; intros text; simpl.
  - now rewrite append_nil_r.
  - rewrite IH. now rewrite !append_assoc.
Qed.

(** C10.  For a list of two or more errors, [errorsText] is the first
    message, then the second message followed by the separator, then each
    further message followed by the separator: nothing separates the first
    two messages and the text ends with a separator.  The message of an
    error is [dataVar], its [dataPath], a space and its [message]
    ([undefined] when it has none); the separator and [dataVar] are
    [", "] and [data] when the option is not given. *)
Theorem errorsText_two_or_more
    (this_errors : ErrorsField) (e1 e2 : Enum.ErrorObject)
    (rest : list Enum.ErrorObject) (sep dv : option string) :
  let separator_ := default ", " sep in
  let m := fun e : Enum.ErrorObject =>
             default "data" dv +:+ Enum.dataPath e +:+ " "
             +:+ default "undefined" (Enum.message e) in
  errorsText this_errors (ErrorsArray (e1 :: e2 :: rest))
             (Some (mkErrorsTextOptions sep dv))
  = m e1 +:+ m e2 +:+ separator_
    +:+ foldr (fun e text => m e +:+ separator_ +:+ text) EmptyString rest.
Proof.
  intros separator_ m. unfold errorsText. simpl.
  rewrite reduce_messages. fold separator_.
  change (errorMessage (default "data" dv)) with m.
  rewrite !append_assoc. do 3 f_equal.
  unfold withSeparators. induction rest as [|e rest IH]; simpl; [reflexivity|].
  now rewrite IH.
Qed.

(** ** Running a method body step by step *)

Lemma bind_get {B : Type} (k : Ajv -> M B) (st : Ajv) : bind get k st = k st st.
Proof. reflexivity. Qed.

Lemma bind_ret {A B : Type} (a : A) (k : A -> M B) (st : Ajv) :
  bind (ret a) k st = k a st.
Proof. reflexivity. Qed.

Lemma bind_throw {A B : Type} (e : Exn) (k : A -> M B) (st : Ajv) :
  bind (throw e) k st = (Throw e, st).
Proof. reflexivity. Qed.

Lemma bind_modify {B : Type} (f : Ajv -> Ajv) (k : unit -> M B) (st : Ajv) :
  bind (modify f) k st = k tt (f st).
Proof. reflexivity. Qed.

Lemma bind_bind {A B D : Type} (m : M A) (k1 : A -> M B) (k2 : B -> M D) (st : Ajv) :
  bind (bind m k1) k2 st = bind m (fun a => bind (k1 a) k2) st.
Proof. unfold bind. destruct (m st) as [[a|e] st1]; reflexivity. Qed.

Lemma bind_Ok {A B : Type} (m : M A) (k : A -> M B) (st st1 : Ajv) (a : A) :
  m st = (Ok a, st1) -> bind m k st = k a st1.
Proof. intros H. unfold bind. now rewrite H. Qed.

Lemma bind_Throw {A B : Type} (m : M A) (k : A -> M B) (st st1 : Ajv) (e : Exn) :
  m st = (Throw e, st1) -> bind m k st = (Throw e, st1).
Proof. intros H. unfold bind. now rewrite H. Qed.

Ltac mstep :=
  repeat first
    [ rewrite bind_bind | rewrite bind_get | rewrite bind_ret
    | rewrite bind_throw | rewrite bind_modify ].

(** ** Rule groups *)

Lemma findIndex_Some {A : Type} (p : A -> bool) (l : list A) (i : nat) :
  findIndex p l = Some i ->
  exists x, l !! i = Some x /\ p x = true /\ i < length l.
Proof.
  revert i. induction l as [|y l IH]; intros i; simpl; [discriminate|].
  destruct (p y) eqn:Hy.
  - intros [= <-]. exists y. simpl. repeat split; [assumption | lia].
  - destruct (findIndex p l) as [j|]; simpl; [|discriminate].
    intros [= <-]. destruct (IH j eq_refl) as (x & Hx & Hp & Hlt).
    exists x. simpl. repeat split; [assumption .. | lia].
Qed.

Lemma findIndex_app_Some {A : Type} (p : A -> bool) (l l' : list A) (i : nat) :
  findIndex p l = Some i -> findIndex p (l ++ l') = Some i.
Proof.
  revert i. induction l as [|y l IH]; intros i; simpl; [discriminate|].
  destruct (p y); [trivial|].
  destruct (findIndex p l) as [j|]; simpl; [|discriminate].
  intros [= <-]. now rewrite (IH j eq_refl).
Qed.

Lemma findIndex_app_None {A : Type} (p : A -> bool) (l : list A) (x : A) :
  findIndex p l = None ->
  findIndex p (l ++ [x]) = if p x then Some (length l) else None.
Proof.
  induction l as [|y l IH]; simpl.
  - intros _. now destruct (p x).
  - destruct (p y); [discriminate|].
    destruct (findIndex p l) as [j|]; simpl; [discriminate|].
    intros _. rewrite (IH eq_refl). now destruct (p x).
Qed.

Lemma findIndex_alter {A : Type} (p : A -> bool) (f : A -> A) (i : nat) (l : list A) :
  (forall x, p (f x) = p x) -> findIndex p (alter f i l) = findIndex p l.
Proof.
  intros Hf. revert i. induction l as [|y l IH]; intros [|i]; trivial.
  - change (alter f 0 (y :: l)) with (f y :: l). simpl. now rewrite Hf.
  - change (alter f (S i) (y :: l)) with (y :: alter f i l). simpl. now rewrite IH.
Qed.

Section RuleFacts.
Context `{C : Collaborators}.

Lemma groupsKept_refl st : groupsKept st st.
Proof. now split. Qed.

Lemma groupsKept_trans st1 st2 st3 :
  groupsKept st1 st2 -> groupsKept st2 st3 -> groupsKept st1 st3.
Proof.
  intros [H1 L1] [H2 L2]. split; [|congruence].
  intros t. now rewrite H2, H1.
Qed.

Lemma rulesOfType_ext st st' :
  vr_rules (RULES st') = vr_rules (RULES st) ->
  forall t, rulesOfType t st' = rulesOfType t st.
Proof.
  intros H t. unfold rulesOfType, groupIndex, groupRules. now rewrite H.
Qed.

(** Appending an empty group changes the rules of no type. *)
Lemma rulesOfType_push (st st' : Ajv) (dataType : option string) :
  vr_rules (RULES st') = (vr_rules (RULES st) ++ [mkRuleGroup dataType []])%list ->
  forall t, rulesOfType t st' = rulesOfType t st.
Proof.
  intros H t. unfold rulesOfType, groupIndex, groupRules. rewrite H.
  destruct (findIndex _ (vr_rules (RULES st))) as [i|] eqn:Hi.
  - rewrite (findIndex_app_Some _ _ _ _ Hi).
    destruct (findIndex_Some _ _ _ Hi) as (g & Hg & _ & Hlt).
    now rewrite lookup_app_l by assumption.
  - rewrite (findIndex_app_None _ _ _ Hi). simpl.
    case_bool_decide; [|reflexivity].
    rewrite lookup_app_r by lia. now rewrite Nat.sub_diag.
Qed.

Lemma addRule_undefined_kept (k : string -> M unit) (kwd : string) (st : Ajv) :
  groupsKept st (addRuleWith k kwd None None st).2.
Proof.
  unfold addRuleWith, bind, get, ret, modifyRULES, modify. simpl.
  destruct (groupIndex None (RULES st)) as [i|] eqn:Hi; simpl.
  - split; [|reflexivity]. now apply rulesOfType_ext.
  - split; [|reflexivity]. now apply rulesOfType_push with (dataType := None).
Qed.

Lemma addImpliedKeyword_kept (kwd : string) (st : Ajv) :
  groupsKept st (addImpliedKeyword kwd st).2.
Proof.
  unfold addImpliedKeyword, addKeywordWith, checkKeyword, bind, get, ret. simpl.
  unfold bind, get, throw, ret. simpl.
  destruct (default (inherited kwd) (vr_keywords (RULES st) !! kwd)); simpl;
    [apply groupsKept_refl|].
  destruct (KEYWORD_NAME kwd); simpl; [|apply groupsKept_refl].
  pose proof (addRule_undefined_kept (fun _ => ret tt) kwd st) as H.
  destruct (addRuleWith _ kwd None None st) as [[[]|e] st']; simpl in *; exact H.
Qed.

Lemma forEach_kept {A : Type} (f : A -> M unit) (l : list A) :
  (forall x st, groupsKept st (f x st).2) ->
  forall st, groupsKept st (forEach f l st).2.
Proof.
  intros Hf. induction l as [|x l IH]; intros st; simpl.
  - apply groupsKept_refl.
  - unfold bind. specialize (Hf x st).
    destruct (f x st) as [[[]|e] st1]; simpl in *; [|exact Hf].
    eapply groupsKept_trans; [exact Hf | apply IH].
Qed.

Lemma groupRules_alter (gi : nat) (f : list Rule -> list Rule) (st st' : Ajv) :
  vr_rules (RULES st')
  = alter (fun g => mkRuleGroup (group_type g) (f (rules g))) gi (vr_rules (RULES st)) ->
  gi < length (vr_rules (RULES st)) ->
  groupRules gi st' = f (groupRules gi st).
Proof.
  intros H Hlt. unfold groupRules. rewrite H.
  destruct (lookup_lt_is_Some_2 _ _ Hlt) as [g Hg].
  rewrite list_lookup_alter. destruct (decide (gi = gi)); [|congruence].
  rewrite Hg. reflexivity.
Qed.

Lemma groupIndex_alter (gi : nat) (f : list Rule -> list Rule) (t : option string)
    (r r' : ValidationRules) :
  vr_rules r' = alter (fun g => mkRuleGroup (group_type g) (f (rules g))) gi (vr_rules r) ->
  groupIndex t r' = groupIndex t r.
Proof.
  intros H. unfold groupIndex. rewrite H. now apply findIndex_alter.
Qed.

Lemma rulesOfType_alter (st st' : Ajv) (gi : nat) (f : list Rule -> list Rule)
    (t : option string) :
  vr_rules (RULES st')
  = alter (fun g => mkRuleGroup (group_type g) (f (rules g))) gi (vr_rules (RULES st)) ->
  groupIndex t (RULES st) = Some gi ->
  rulesOfType t st' = f (rulesOfType t st).
Proof.
  intros H Hgi. unfold rulesOfType.
  rewrite (groupIndex_alter gi f t (RULES st) (RULES st') H), Hgi.
  destruct (findIndex_Some _ _ _ Hgi) as (g & Hg & _ & Hlt).
  now apply groupRules_alter.
Qed.

Lemma implements_kept (d : KeywordDefinition) (st : Ajv) :
  groupsKept st
    (match def_implements d with
     | Some kwds => forEach addImpliedKeyword kwds
     | None => ret tt
     end st).2.
Proof.
  destruct (def_implements d) as [kwds|]; [|apply groupsKept_refl].
  apply forEach_kept. apply addImpliedKeyword_kept.
Qed.

Lemma addRule_before_state (st : Ajv) (keyword : string) (dataType : option string)
    (d : KeywordDefinition) (X : string) :
  def_before d = Some X -> X <> EmptyString ->
  let st' := (addRule keyword dataType (Some d) st).2 in
  rulesOfType dataType st' = afterBefore X (mkRule keyword d) (rulesOfType dataType st)
  /\ logger st' = logAfterBefore X (rulesOfType dataType st) (logger st).
Proof.
  intros Hb HX st'. subst st'.
  assert (HXb : String.eqb X EmptyString = false) by now apply String.eqb_neq.
  unfold addRule, addRuleWith.
  rewrite Hb, HXb. simpl negb. cbv iota.
  unfold modifyRULES, addBeforeRule, setGroupRules, modifyRULES, log.
  mstep.
  destruct (groupIndex dataType (RULES st)) as [gi|] eqn:Hgi.
  - mstep.
    destruct (findIndex_Some _ _ _ Hgi) as (g & Hg & _ & Hlt).
    assert (Hold : forall r', vr_rules r' = vr_rules (RULES st) ->
              groupRules gi (set_RULES r' st) = rulesOfType dataType st).
    { intros r' Hr'. unfold rulesOfType, groupRules. simpl. now rewrite Hgi, Hr'. }
    rewrite Hold by reflexivity. unfold afterBefore, logAfterBefore.
    destruct (findIndex _ (rulesOfType dataType st)) as [i|] eqn:Hi; mstep;
      match goal with
      | |- context [ (?m ?s).2 ] =>
          destruct (implements_kept d s) as [Hr Hl]; rewrite Hr, Hl
      end.
    + split; [|reflexivity].
      now apply (rulesOfType_alter st _ gi (spliceInsert i (mkRule keyword d))).
    + split; [|reflexivity].
      now apply (rulesOfType_alter st _ gi (fun l => l ++ [mkRule keyword d])%list).
  - mstep.
    assert (Hnew : groupIndex dataType
                     (set_vr_rules (vr_rules (RULES st) ++ [mkRuleGroup dataType []])%list
                        (RULES st))
                   = Some (length (vr_rules (RULES st)))).
    { unfold groupIndex in *. simpl. rewrite (findIndex_app_None _ _ _ Hgi). simpl.
      now rewrite bool_decide_eq_true_2. }
    set (st1 := set_RULES (set_vr_rules (vr_rules (RULES st) ++ [mkRuleGroup dataType []])%list
                             (RULES st)) st).
    assert (Hold : forall r', vr_rules r' = vr_rules (RULES st1) ->
              groupRules (length (vr_rules (RULES st))) (set_RULES r' st1) = []).
    { intros r' Hr'. unfold groupRules. simpl. rewrite Hr'. simpl.
      rewrite lookup_app_r by lia. now rewrite Nat.sub_diag. }
    rewrite Hold by reflexivity.
    assert (Hnone : rulesOfType dataType st = []).
    { unfold rulesOfType. now rewrite Hgi. }
    rewrite Hnone. unfold afterBefore, logAfterBefore. simpl findIndex. cbv iota.
    mstep.
    match goal with
    | |- context [ (?m ?s).2 ] =>
        destruct (implements_kept d s) as [Hr Hl]; rewrite Hr, Hl
    end.
    split; [|reflexivity].
    assert (H1 : rulesOfType dataType st1 = []).
    { unfold rulesOfType. subst st1. simpl RULES. rewrite Hnew.
      unfold groupRules. simpl. rewrite lookup_app_r by lia. now rewrite Nat.sub_diag. }
    rewrite (rulesOfType_alter st1 _ (length (vr_rules (RULES st)))
               (fun l => l ++ [mkRule keyword d])%list dataType);
      [now rewrite H1 | reflexivity | exact Hnew].
Qed.

(** C9.  A definition with [before: X] (a keyword name, so not the empty
    string) added to the group of [dataType]: when a rule with keyword [X] is
    in the group, the new rule is inserted at the index of the first such
    rule, which then follows it, and nothing is logged; otherwise the new
    rule is appended at the end and the warning [rule X is not defined] is
    logged. *)
Theorem addRule_before (st : Ajv) (keyword : string) (dataType : option string)
    (d : KeywordDefinition) (X : string) :
  def_before d = Some X ->
  truthy (VStr X) = true ->
  let old := rulesOfType dataType st in
  let st' := (addRule keyword dataType (Some d) st).2 in
  let rule := mkRule keyword d in
  match findIndex (fun r => String.eqb (rule_keyword r) X) old with
  | Some i =>
      rulesOfType dataType st' = (take i old ++ rule :: drop i old)%list
      /\ rulesOfType dataType st' !! i = Some rule
      /\ (exists rX, old !! i = Some rX /\ rule_keyword rX = X
                     /\ rulesOfType dataType st' !! S i = Some rX)
      /\ logger st' = logger st
  | None =>
      rulesOfType dataType st' = (old ++ [rule])%list
      /\ logger st' = (logger st ++ [(LWarn, "rule " +:+ X +:+ " is not defined")])%list
  end.
Proof.
  intros Hb HX old st' rule.
  assert (HX' : X <> EmptyString).
  { intros ->. discriminate HX. }
  destruct (addRule_before_state st keyword dataType d X Hb HX') as [Hr Hl].
  fold st' in Hr, Hl. fold old in Hr, Hl. fold rule in Hr.
  unfold afterBefore in Hr. unfold logAfterBefore in Hl.
  destruct (findIndex _ old) as [i|] eqn:Hi; [|now split].
  destruct (findIndex_Some _ _ _ Hi) as (rX & HrX & HkX & Hlt).
  apply String.eqb_eq in HkX.
  assert (Hlen : length (take i old) = i) by (rewrite length_take; lia).
  unfold spliceInsert in Hr. rewrite Hr.
  split; [reflexivity|]. split; [|split; [|exact Hl]].
  - rewrite lookup_app_r by lia. now rewrite Hlen, Nat.sub_diag.
  - exists rX. split; [exact HrX|]. split; [exact HkX|].
    rewrite lookup_app_r by lia. rewrite Hlen.
    replace (S i - i) with 1 by lia. simpl.
    rewrite lookup_drop. now rewrite Nat.add_0_r.
Qed.

(** ** Keyword names *)

Lemma forEach_Ok {A : Type} (f : A -> M unit) (l : list A) :
  (forall x st, (f x st).1 = Ok tt) -> forall st, (forEach f l st).1 = Ok tt.
Proof.
  intros Hf. induction l as [|x l IH]; intros st; simpl; [reflexivity|].
  unfold bind. specialize (Hf x st).
  destruct (f x st) as [[[]|e] st1]; simpl in *; [apply IH | discriminate].
Qed.

Lemma forEach_pure_Ok {A : Type} (f : A -> M unit) (l : list A) (st : Ajv) :
  (forall x, x ∈ l -> f x st = (Ok tt, st)) -> forEach f l st = (Ok tt, st).
Proof.
  induction l as [|x l IH]; intros Hf; simpl; [reflexivity|].
  rewrite (bind_Ok _ _ st st tt) by (apply Hf; left).
  apply IH. intros y Hy. apply Hf. now right.
Qed.

Lemma checkType_recognised (t : string) (st : Ajv) :
  inList t jsonTypes = true -> checkType t st = (Ok tt, st).
Proof. intros H. unfold checkType. now rewrite H. Qed.

Lemma addRule_Ok (keyword : string) (dataType : option string)
    (d : KeywordDefinition) (st : Ajv) :
  match def_implements d with None | Some [] => true | Some _ => false end = true ->
  (addRule keyword dataType (Some d) st).1 = Ok tt.
Proof.
  intros Himpl. unfold addRule, addRuleWith.
  unfold modifyRULES, addBeforeRule, setGroupRules, modifyRULES, log.
  mstep.
  assert (Hend : forall s, (match def_implements d with
                            | Some kwds => forEach addImpliedKeyword kwds
                            | None => ret tt
                            end s).1 = Ok tt).
  { intros s. destruct (def_implements d) as [[|? ?]|]; try discriminate; reflexivity. }
  destruct (groupIndex dataType (RULES st)); mstep;
    destruct (def_before d) as [b|]; mstep;
    try (destruct (negb (b =? EmptyString)); mstep);
    try (match goal with
         | |- context [ findIndex ?p ?l ] => destruct (findIndex p l)
         end; mstep);
    apply Hend.
Qed.

Lemma addKeyword_result (st : Ajv) (d : KeywordDefinition) (k : string) :
  def_keyword d = One k ->
  otherwiseValid d = true ->
  (addKeyword (Def d) None st).1
  = match nameError (RULES st) k with
    | Some e => Throw e
    | None => Ok tt
    end.
Proof.
  intros Hk Hv. unfold otherwiseValid in Hv.
  apply andb_prop in Hv as [Hv Himpl]. apply andb_prop in Hv as [Hv Hmeta].
  apply andb_prop in Hv as [Htypes Hdata].
  unfold addKeyword, addKeywordWith. mstep. simpl fst. simpl snd. rewrite Hk.
  unfold checkKeyword, nameError. simpl eachItem. simpl forEach. mstep.
  destruct (default (inherited k) (vr_keywords (RULES st) !! k)); mstep; [reflexivity|].
  destruct (KEYWORD_NAME k); simpl negb; cbv iota; mstep; [|reflexivity].
  assert (Htypes' : (match def_type d with
                     | Some t => if typeTruthy t then forEach checkType (eachItem t)
                                 else ret tt
                     | None => ret tt
                     end) st = (Ok tt, st)).
  { destruct (def_type d) as [t|]; [|reflexivity].
    destruct (typeTruthy t); [|reflexivity]. simpl in Htypes.
    apply forEach_pure_Ok. intros x Hx. apply checkType_recognised.
    rewrite forallb_forall in Htypes. apply Htypes. now apply list_elem_of_In. }
  rewrite (bind_Ok _ _ st st tt Htypes').
  assert (Hd : def_data d && negb (def_hasCode d || def_hasValidate d) = false).
  { destruct (def_data d), (def_hasCode d), (def_hasValidate d); simpl in *;
      congruence. }
  rewrite Hd. mstep.
  unfold keywordMetaschema. destruct (def_metaSchema d); [discriminate|]. mstep.
  simpl forEach. mstep.
  match goal with
  | |- (bind (forEach ?f ?l) _ ?s).1 = _ =>
      pose proof (forEach_Ok f l (fun t s' => addRule_Ok k t d s' Himpl) s) as Hall;
      unfold bind; destruct (forEach f l s) as [[[]|e] s1]; simpl in *;
      [reflexivity | discriminate]
  end.
Qed.

(** C8 (as the code has it).  For a definition that is otherwise valid and
    a name that is not the name of a member of [Object.prototype],
    [addKeyword] throws exactly when the name is already in
    [RULES.keywords] or does not match [KEYWORD_NAME], which is the pattern
    with the [i] flag and accepts letters of either case; for a fresh name
    that matches it returns. *)
Theorem addKeyword_name_check (st : Ajv) (d : KeywordDefinition) (k : string) :
  def_keyword d = One k ->
  otherwiseValid d = true ->
  inherited k = false ->
  ((exists e, (addKeyword (Def d) None st).1 = Throw e)
   <-> (default false (vr_keywords (RULES st) !! k) = true \/ KEYWORD_NAME k = false))
  /\ (default false (vr_keywords (RULES st) !! k) = false ->
      KEYWORD_NAME k = true ->
      (addKeyword (Def d) None st).1 = Ok tt).
Proof.
  intros Hk Hv Hinh. rewrite (addKeyword_result st d k Hk Hv). unfold nameError.
  rewrite Hinh.
  destruct (default false (vr_keywords (RULES st) !! k));
    destruct (KEYWORD_NAME k); simpl; split;
    try (intros; congruence);
    (split; [intros [e He]; try discriminate; auto | intros [H|H]; try discriminate; eauto]).
Qed.

End RuleFacts.

(** ** Bulk removal *)

Section RemovalFacts.
Context `{C : Collaborators}.

Lemma forIn_NoDup (table : gmap string SchOrRef) : NoDup (forIn table).
Proof.
  unfold forIn. rewrite merge_sort_Permutation. apply NoDup_fst_map_to_list.
Qed.

Lemma forIn_elem (table : gmap string SchOrRef) (k : string) :
  k ∈ forIn table <-> is_Some (table !! k).
Proof.
  unfold forIn. rewrite merge_sort_Permutation. rewrite list_elem_of_fmap. split.
  - intros ([k' v] & -> & Hin). apply elem_of_map_to_list in Hin. simpl. eauto.
  - intros [v Hv]. exists (k, v). split; [reflexivity|].
    now apply elem_of_map_to_list.
Qed.

Lemma testKey_stateless (regex : option RegExp) (li : nat) (k : string) :
  statelessArg regex -> testKey regex li k = (matchesKey regex k, li).
Proof. destruct regex as [r|]; simpl; [intros H; apply H | reflexivity]. Qed.

Lemma afterRemoval_false (o : option SchOrRef) : afterRemoval false o = o.
Proof. now destruct o as [[e|a|n]|]. Qed.

(** The loop on keys that are visited once each, without a pattern or with
    a pattern without the g and y flags. *)
Lemma removeLoop_stateless (table : gmap string SchOrRef) (regex : option RegExp)
    (cache : gmap string SchemaEnv) (li : nat) :
  statelessArg regex ->
  forall l, NoDup l ->
    let r := foldl (removeStep regex) (mkRemoving table cache li) l in
    rm_lastIndex r = li
    /\ (forall k, k ∈ l ->
          rm_table r !! k = afterRemoval (matchesKey regex k) (table !! k))
    /\ (forall k, k ∉ l -> rm_table r !! k = table !! k)
    /\ (forall c, removableIn regex table l c -> rm_cache r !! c = None)
    /\ (forall c, ~ removableIn regex table l c -> rm_cache r !! c = cache !! c).
Proof.
  intros Hst l. induction l as [|x l IH] using rev_ind; intros Hnd.
  { simpl. split; [reflexivity|]. split; [intros k Hk; inversion Hk|].
    split; [reflexivity|]. split; [|reflexivity].
    intros c (k & v & Hk & _). inversion Hk. }
  apply NoDup_app in Hnd as (Hnd & Hx & _).
  assert (Hxl : x ∉ l) by (intros Hin; apply (Hx x Hin); left).
  destruct (IH Hnd) as (Hli & Hin & Hout & Hgone & Hkept). clear IH.
  rewrite foldl_snoc. cbv zeta.
  set (acc := foldl (removeStep regex) (mkRemoving table cache li) l) in *.
  assert (Hnew : forall c, ~ removableIn regex table (l ++ [x]) c ->
                   ~ removableIn regex table l c
                   /\ forall v, table !! x = Some v -> matchesKey regex x = true ->
                                lineOf v <> Some c).
  { intros c Hc. split.
    - intros (k & v & Hk & H). apply Hc. exists k, v. split; [|exact H].
      apply elem_of_app. now left.
    - intros v Hv Hm Hl. apply Hc. exists x, v. repeat split; trivial.
      apply elem_of_app. right. left. }
  assert (Hold : forall c, removableIn regex table (l ++ [x]) c ->
                   removableIn regex table l c
                   \/ exists v, table !! x = Some v /\ matchesKey regex x = true
                                /\ lineOf v = Some c).
  { intros c (k & v & Hk & H). apply elem_of_app in Hk as [Hk|Hk].
    - left. now exists k, v.
    - apply list_elem_of_singleton in Hk. subst k. right. now exists v. }
  unfold removeStep. rewrite (testKey_stateless regex _ x Hst). cbn [fst snd].
  rewrite (Hout x Hxl), Hli.
  assert (Hsame : forall t,
             t = rm_table acc ->
             (forall k, k ∈ (l ++ [x])%list ->
                t !! k = if bool_decide (k = x) then table !! x
                         else afterRemoval (matchesKey regex k) (table !! k))
             /\ (forall k, k ∉ (l ++ [x])%list -> t !! k = table !! k)).
  { intros t ->. split.
    - intros k Hk. case_bool_decide as E; [subst k; now apply Hout|].
      apply Hin. apply elem_of_app in Hk as [Hk|Hk]; [exact Hk|].
      apply list_elem_of_singleton in Hk. contradiction.
    - intros k Hk. apply Hout. intros H. apply Hk. apply elem_of_app. now left. }
  assert (Hdel : forall t,
             t = delete x (rm_table acc) ->
             (forall k, k ∈ (l ++ [x])%list ->
                t !! k = if bool_decide (k = x) then None
                         else afterRemoval (matchesKey regex k) (table !! k))
             /\ (forall k, k ∉ (l ++ [x])%list -> t !! k = table !! k)).
  { intros t ->. split.
    - intros k Hk. case_bool_decide as E; [subst k; apply lookup_delete_eq|].
      rewrite lookup_delete_ne by congruence.
      apply Hin. apply elem_of_app in Hk as [Hk|Hk]; [exact Hk|].
      apply list_elem_of_singleton in Hk. contradiction.
    - intros k Hk. assert (k <> x).
      { intros ->. apply Hk. apply elem_of_app. right. left. }
      rewrite lookup_delete_ne by congruence.
      apply Hout. intros H0. apply Hk. apply elem_of_app. now left. }
  destruct (matchesKey regex x) eqn:Hm; cbv iota.
  - destruct (table !! x) as [[e|a|n]|] eqn:Hx'.
    + destruct (meta e) eqn:He; cbn [rm_table rm_cache rm_lastIndex].
      * destruct (Hsame _ eq_refl) as [H1 H2].
        split; [reflexivity|]. split; [|split; [exact H2|]].
        { intros k Hk. rewrite (H1 k Hk). case_bool_decide as E; [|reflexivity].
          subst k. rewrite Hx', Hm. simpl. now rewrite He. }
        split.
        { intros c Hc. destruct (Hold c Hc) as [H|(v & Hv & _ & Hl)]; [now apply Hgone|].
          injection Hv as <-. simpl in Hl. rewrite He in Hl. discriminate. }
        { intros c Hc. apply Hkept. now apply Hnew. }
      * destruct (Hdel _ eq_refl) as [H1 H2].
        split; [reflexivity|]. split; [|split; [exact H2|]].
        { intros k Hk. rewrite (H1 k Hk). case_bool_decide as E; [|reflexivity].
          subst k. rewrite Hx', Hm. simpl. now rewrite He. }
        split.
        { intros c Hc. destruct (decide (cacheKey e = c)) as [<-|Hne];
            [apply lookup_delete_eq|]. rewrite lookup_delete_ne by assumption.
          destruct (Hold c Hc) as [H|(v & Hv & _ & Hl)]; [now apply Hgone|].
          injection Hv as <-. simpl in Hl. rewrite He in Hl. congruence. }
        { intros c Hc. destruct (Hnew c Hc) as [Hc1 Hc2].
          rewrite lookup_delete_ne; [now apply Hkept|].
          intros <-. apply (Hc2 (Env e) eq_refl eq_refl). simpl. now rewrite He. }
    + cbn [rm_table rm_cache rm_lastIndex]. destruct (Hdel _ eq_refl) as [H1 H2].
      split; [reflexivity|]. split; [|split; [exact H2|]].
      { intros k Hk. rewrite (H1 k Hk). case_bool_decide as E; [|reflexivity].
        subst k. now rewrite Hx', Hm. }
      split.
      { intros c Hc. destruct (Hold c Hc) as [H|(v & Hv & _ & Hl)]; [now apply Hgone|].
        injection Hv as <-. discriminate Hl. }
      { intros c Hc. apply Hkept. now apply Hnew. }
    + cbn [rm_table rm_cache rm_lastIndex]. destruct (Hdel _ eq_refl) as [H1 H2].
      split; [reflexivity|]. split; [|split; [exact H2|]].
      { intros k Hk. rewrite (H1 k Hk). case_bool_decide as E; [|reflexivity].
        subst k. now rewrite Hx', Hm. }
      split.
      { intros c Hc. destruct (decide ("undefined" = c)) as [<-|Hne];
          [apply lookup_delete_eq|]. rewrite lookup_delete_ne by assumption.
        destruct (Hold c Hc) as [H|(v & Hv & _ & Hl)]; [now apply Hgone|].
        injection Hv as <-. simpl in Hl. congruence. }
      { intros c Hc. destruct (Hnew c Hc) as [Hc1 Hc2].
        rewrite lookup_delete_ne; [now apply Hkept|].
        intros <-. now apply (Hc2 (Member n) eq_refl eq_refl). }
    + cbn [rm_table rm_cache rm_lastIndex]. destruct (Hsame _ eq_refl) as [H1 H2].
      split; [reflexivity|]. split; [|split; [exact H2|]].
      { intros k Hk. rewrite (H1 k Hk). case_bool_decide as E; [|reflexivity].
        subst k. now rewrite Hx'. }
      split.
      { intros c Hc. destruct (Hold c Hc) as [H|(v & Hv & _)]; [now apply Hgone|].
        discriminate Hv. }
      { intros c Hc. apply Hkept. now apply Hnew. }
  - cbn [rm_table rm_cache rm_lastIndex]. destruct (Hsame _ eq_refl) as [H1 H2].
    split; [reflexivity|]. split; [|split; [exact H2|]].
    { intros k Hk. rewrite (H1 k Hk). case_bool_decide as E; [|reflexivity].
      subst k. now rewrite Hm, afterRemoval_false. }
    split.
    { intros c Hc. destruct (Hold c Hc) as [H|(v & _ & Hm' & _)]; [now apply Hgone|].
      discriminate Hm'. }
    { intros c Hc. apply Hkept. now apply Hnew. }
Qed.

(** [_removeAllSchemas] without a pattern or with a pattern without the g
    and y flags: the entries with a matching key go unless they are
    meta-schemas, and the cache loses the lines of the schema environments
    that go, and no other. *)
Lemma removeAllSchemas_spec (table : gmap string SchOrRef)
    (regex : option RegExp) (cache : gmap string SchemaEnv) (li : nat) :
  statelessArg regex ->
  let r := _removeAllSchemas table regex cache li in
  rm_lastIndex r = li
  /\ (forall k, rm_table r !! k = afterRemoval (matchesKey regex k) (table !! k))
  /\ (forall c, removable regex table c -> rm_cache r !! c = None)
  /\ (forall c, ~ removable regex table c -> rm_cache r !! c = cache !! c).
Proof.
  intros Hst. unfold _removeAllSchemas.
  destruct (removeLoop_stateless table regex cache li Hst (forIn table)
              (forIn_NoDup table)) as (Hli & Hin & Hout & Hgone & Hkept).
  split; [exact Hli|]. split; [|split].
  - intros k. destruct (table !! k) as [v|] eqn:Hk.
    + rewrite <- Hk. apply Hin. apply forIn_elem. rewrite Hk. eauto.
    + rewrite Hout, Hk; [reflexivity|]. rewrite forIn_elem, Hk.
      intros [? ?]. discriminate.
  - intros c (k & v & Hk & Hm & Hl). apply Hgone. exists k, v.
    split; [|auto]. apply forIn_elem. rewrite Hk. eauto.
  - intros c Hc. apply Hkept. intros (k & v & _ & Hk & Hm & Hl).
    apply Hc. now exists k, v.
Qed.

Lemma removeStep_keeps (table : gmap string SchOrRef) (cache : gmap string SchemaEnv)
    (regex : option RegExp) (acc : Removing) (x : string) :
  removalKeeps table cache acc -> removalKeeps table cache (removeStep regex acc x).
Proof.
  intros (H1 & H2 & H3). unfold removeStep.
  assert (Hdel : forall li c,
             (forall e, rm_table acc !! x = Some (Env e) -> meta e = false) ->
             (forall c', c !! c' = None \/ c !! c' = cache !! c') ->
             removalKeeps table cache
               (mkRemoving (delete x (rm_table acc)) c li)).
  { intros li c Hx Hc.
    split; [|split; [|exact Hc]]; cbn [rm_table].
    - intros k e Hk He. destruct (decide (x = k)) as [->|Hne].
      + specialize (H1 k e Hk He). rewrite (Hx e H1) in He. discriminate.
      + rewrite lookup_delete_ne by assumption. now apply H1.
    - intros k. destruct (decide (x = k)) as [->|Hne].
      + left. apply lookup_delete_eq.
      + rewrite lookup_delete_ne by assumption. apply H2. }
  assert (Hcache : forall c0 c', delete c0 (rm_cache acc) !! c' = None
                                 \/ delete c0 (rm_cache acc) !! c' = cache !! c').
  { intros c0 c'. destruct (decide (c0 = c')) as [->|Hne].
    - left. apply lookup_delete_eq.
    - rewrite lookup_delete_ne by assumption. apply H3. }
  destruct (testKey regex (rm_lastIndex acc) x) as [[] li]; cbn [fst snd];
    [|now repeat split].
  destruct (rm_table acc !! x) as [[e|a|n]|] eqn:Hx; [| | |now repeat split].
  - destruct (meta e) eqn:He; [now repeat split|].
    apply Hdel; [intros e' [= <-]; exact He | apply Hcache].
  - apply Hdel; [intros e' [=] | exact H3].
  - apply Hdel; [intros e' [=] | apply Hcache].
Qed.

Lemma removeAllSchemas_keeps (table : gmap string SchOrRef)
    (regex : option RegExp) (cache : gmap string SchemaEnv) (li : nat) :
  removalKeeps table cache (_removeAllSchemas table regex cache li).
Proof.
  unfold _removeAllSchemas.
  assert (H0 : removalKeeps table cache (mkRemoving table cache li)).
  { split; [|split]; cbn [rm_table rm_cache]; auto. }
  revert H0. generalize (mkRemoving table cache li).
  induction (forIn table) as [|x l IH]; intros acc Hacc; simpl; [exact Hacc|].
  apply IH. now apply removeStep_keeps.
Qed.

(** The instance after [removeSchema()] and [removeSchema(regex)]: the
    loop has run on [schemas] and then on [refs], with the cache and the
    [lastIndex] that the first run left. *)
Lemma removeSchema_bulk_run (st : Ajv) (regex : option RegExp) :
  let r1 := _removeAllSchemas (schemas st) regex (_cache st) (firstIndex regex) in
  let r2 := _removeAllSchemas (refs st) regex (rm_cache r1)
              (match regex with Some _ => rm_lastIndex r1 | None => 0 end) in
  let st' := (removeSchema (bulkArg regex) st).2 in
  (removeSchema (bulkArg regex) st).1 = Ok tt
  /\ schemas st' = rm_table r1
  /\ refs st' = rm_table r2
  /\ _cache st' = match regex with None => ∅ | Some _ => rm_cache r2 end.
Proof.
  destruct regex as [r|]; simpl; unfold removeAllFromSchemas, removeAllFromRefs,
    cache_clear; mstep; simpl; repeat split.
Qed.

(** X27.  Bulk removal, whatever the argument: [removeSchema()] and
    [removeSchema(regex)] return and keep every entry of [schemas] and of
    [refs] that is a meta-schema environment; no entry is added or changed,
    and the cache gains or changes no line.  Without a pattern, and with a
    pattern without the g and y flags, every entry with a matching key that
    is a schema environment and not a meta-schema is removed, and its cache
    line is gone afterwards ([removeSchema()] matches every key). *)
Theorem removeSchema_bulk_keeps_meta (st : Ajv) (regex : option RegExp) :
  let st' := (removeSchema (bulkArg regex) st).2 in
  (removeSchema (bulkArg regex) st).1 = Ok tt
  /\ (forall k e, meta e = true ->
        (schemas st !! k = Some (Env e) -> schemas st' !! k = Some (Env e))
        /\ (refs st !! k = Some (Env e) -> refs st' !! k = Some (Env e)))
  /\ (forall k,
        (schemas st' !! k = None \/ schemas st' !! k = schemas st !! k)
        /\ (refs st' !! k = None \/ refs st' !! k = refs st !! k))
  /\ (forall c, _cache st' !! c = None \/ _cache st' !! c = _cache st !! c)
  /\ (statelessArg regex ->
      forall k e, meta e = false -> matchesKey regex k = true ->
        (schemas st !! k = Some (Env e) ->
         schemas st' !! k = None /\ _cache st' !! cacheKey e = None)
        /\ (refs st !! k = Some (Env e) ->
            refs st' !! k = None /\ _cache st' !! cacheKey e = None)).
Proof.
  destruct (removeSchema_bulk_run st regex) as (Hok & Hs & Hr & Hc).
  cbv zeta in *.
  set (r1 := _removeAllSchemas (schemas st) regex (_cache st) (firstIndex regex)) in *.
  set (li := match regex with Some _ => rm_lastIndex r1 | None => 0 end) in *.
  set (r2 := _removeAllSchemas (refs st) regex (rm_cache r1) li) in *.
  destruct (removeAllSchemas_keeps (schemas st) regex (_cache st) (firstIndex regex))
    as (K1 & K2 & K3). fold r1 in K1, K2, K3.
  destruct (removeAllSchemas_keeps (refs st) regex (rm_cache r1) li)
    as (L1 & L2 & L3). fold r2 in L1, L2, L3.
  assert (Hcache : forall c, rm_cache r2 !! c = None ->
                             _cache (removeSchema (bulkArg regex) st).2 !! c = None).
  { intros c H. rewrite Hc. destruct regex; [exact H | apply lookup_empty]. }
  split; [exact Hok|]. rewrite Hs, Hr. split; [|split; [|split]].
  - intros k e He. split; intros Hk; [now apply K1 | now apply L1].
  - intros k. split; [apply K2 | apply L2].
  - intros c. rewrite Hc. destruct regex; [|left; apply lookup_empty].
    destruct (L3 c) as [H|H]; [now left|]. rewrite H. apply K3.
  - intros Hst k e He Hm.
    destruct (removeAllSchemas_spec (schemas st) regex (_cache st) (firstIndex regex) Hst)
      as (_ & S1 & S2 & _). fold r1 in S1, S2.
    destruct (removeAllSchemas_spec (refs st) regex (rm_cache r1) li Hst)
      as (_ & R1 & R2 & _). fold r2 in R1, R2.
    split; intros Hk; split.
    + rewrite S1, Hk. simpl. now rewrite Hm, He.
    + apply Hcache. destruct (L3 (cacheKey e)) as [H|H]; [exact H|].
      rewrite H. apply S2. exists k, (Env e). repeat split; trivial.
      simpl. now rewrite He.
    + rewrite R1, Hk. simpl. now rewrite Hm, He.
    + apply Hcache. apply R2. exists k, (Env e). repeat split; trivial.
      simpl. now rewrite He.
Qed.

End RemovalFacts.

(** ** Registering a schema twice *)

Lemma bind_inv_Ok {A B : Type} (m : M A) (k : A -> M B) (st st' : Ajv) (b : B) :
  bind m k st = (Ok b, st') ->
  exists a st1, m st = (Ok a, st1) /\ k a st1 = (Ok b, st').
Proof.
  unfold bind. destruct (m st) as [[a|e] st1]; [eauto | discriminate].
Qed.

Section RegistrationFacts.
Context `{C : Collaborators}.

Lemma readId_pure (schema_ : jsval) (st : Ajv) :
  readId schema_ st = (Ok (member schema_ "$id"), st)
  \/ exists e, forall st', readId schema_ st' = (Throw e, st').
Proof.
  unfold readId.
  destruct schema_ as [| |b|n|s|xs|ps]; simpl; try (left; reflexivity).
  - right. eexists. reflexivity.
  - set (id := getProp ps "$id").
    destruct (negb (typeof id =? "undefined") && negb (typeof id =? "string"));
      [right; eexists; reflexivity | left; reflexivity].
Qed.

Lemma readId_Ok (schema_ : jsval) (st st1 : Ajv) (id : jsval) :
  readId schema_ st = (Ok id, st1) ->
  forall st', readId schema_ st' = (Ok (member schema_ "$id"), st')
              /\ id = member schema_ "$id" /\ st1 = st.
Proof.
  intros H st'.
  destruct (readId_pure schema_ st) as [H1|[e He]].
  - rewrite H1 in H. injection H as <- <-.
    destruct (readId_pure schema_ st') as [H2|[e He]]; [now split|].
    rewrite He in H1. discriminate.
  - rewrite He in H. discriminate.
Qed.

Lemma checkUnique_Ok (id : string) (st st1 : Ajv) :
  _checkUnique id st = (Ok tt, st1) -> st1 = st.
Proof.
  unfold _checkUnique. mstep.
  destruct (entryTruthy (readEntry (schemas st) id)
            || entryTruthy (readEntry (refs st) id));
    [discriminate | now intros [= <-]].
Qed.

Lemma readEntry_own (table : gmap string SchOrRef) (k : string) (v : SchOrRef) :
  table !! k = Some v -> readEntry table k = Some v.
Proof. intros H. unfold readEntry. now rewrite H. Qed.

Lemma readEntry_plain (table : gmap string SchOrRef) (k : string) :
  inherited k = false -> readEntry table k = table !! k.
Proof. intros H. unfold readEntry. rewrite H. now destruct (table !! k). Qed.

Lemma checkUnique_taken (id : string) (st : Ajv) :
  entryTruthy (readEntry (schemas st) id) = true ->
  _checkUnique id st = (Throw (Error (alreadyExists id)), st).
Proof.
  intros H. unfold _checkUnique. mstep. now rewrite H.
Qed.

Lemma addSchemaOne_again (schema_ : jsval) (key : option string)
    (meta1 meta2 : bool) (vs1 vs2 : ValidateSchemaOpt) (st st' : Ajv) :
  addSchemaOne schema_ key meta1 vs1 st = (Ok tt, st') ->
  addSchemaOne schema_ key meta2 vs2 st'
  = (Throw (Error (alreadyExists (schemaKey key schema_))), st').
Proof.
  unfold addSchemaOne. fold (readId schema_). intros H.
  apply bind_inv_Ok in H as (id & st1 & Hid & H).
  destruct (readId_Ok _ _ _ _ Hid st') as (Hid' & -> & ->).
  apply bind_inv_Ok in H as ([] & st2 & Hu & H).
  apply checkUnique_Ok in Hu as ->.
  apply bind_inv_Ok in H as (sch & st3 & Ha & H).
  unfold modify in H. injection H as <-.
  rewrite (bind_Ok _ _ _ _ _ Hid').
  fold (schemaKey key schema_).
  apply bind_Throw. apply checkUnique_taken.
  simpl. now rewrite (readEntry_own _ _ (Env sch)) by apply lookup_insert_eq.
Qed.

(** C1 (as the code has it).  After [addSchema(s, key)] has returned for a
    schema [s] that is not an array, a second [addSchema(s, key)] throws
    [schema with key or id "<key>" already exists], whether or not [s]
    declares an [$id]; the instance is left as the first call left it. *)
Theorem addSchema_again_fails (schema_ : jsval) (key : option string)
    (meta1 meta2 : bool) (vs1 vs2 : option ValidateSchemaOpt) (st st' : Ajv) :
  isArray schema_ = false ->
  addSchema schema_ key meta1 vs1 st = (Ok tt, st') ->
  addSchema schema_ key meta2 vs2 st'
  = (Throw (Error (alreadyExists (schemaKey key schema_))), st').
Proof.
  intros Harr. unfold addSchema. mstep.
  assert (Hone : forall m v, addSchemaWith schema_ key m v = addSchemaOne schema_ key m v).
  { intros m v. destruct schema_; try reflexivity. discriminate Harr. }
  rewrite !Hone. apply addSchemaOne_again.
Qed.

(** ** Compiling a schema twice *)

Lemma keepsCache_ret {A : Type} (a : A) : keepsCache (ret a).
Proof. intros st k sch H. exact H. Qed.

Lemma keepsCache_throw {A : Type} (e : Exn) : keepsCache (throw e : M A).
Proof. intros st k sch H. exact H. Qed.

Lemma keepsCache_get : keepsCache get.
Proof. intros st k sch H. exact H. Qed.

Lemma keepsCache_modify (f : Ajv -> Ajv) :
  (forall st, _cache (f st) = _cache st) -> keepsCache (modify f).
Proof. intros Hf st k sch H. simpl. now rewrite Hf. Qed.

Lemma keepsCache_bind {A B : Type} (m : M A) (k : A -> M B) :
  keepsCache m -> (forall a, keepsCache (k a)) -> keepsCache (bind m k).
Proof.
  intros Hm Hk st key sch H. unfold bind. specialize (Hm st key sch H).
  destruct (m st) as [[a|e] st1]; simpl in *; [now apply Hk | exact Hm].
Qed.

Lemma keepsCache_finally {A : Type} (m : M A) (f : Ajv -> Ajv) :
  keepsCache m -> (forall st, _cache (f st) = _cache st) -> keepsCache (finally m f).
Proof.
  intros Hm Hf st key sch H. unfold finally. specialize (Hm st key sch H).
  destruct (m st) as [r st1]. simpl in *. now rewrite Hf.
Qed.

Lemma keepsCache_if {A : Type} (b : bool) (m1 m2 : M A) :
  keepsCache m1 -> keepsCache m2 -> keepsCache (if b then m1 else m2).
Proof. now destruct b. Qed.

Create HintDb keeps.
#[local] Hint Resolve keepsCache_ret keepsCache_throw keepsCache_get
  keepsCache_bind keepsCache_finally keepsCache_if : keeps.

Section CompileFacts.

(** The collaborators that take the instance remove or replace no cache
    line: compiling a schema, resolving a reference and running a validator
    only ever add schemas. *)
Hypothesis compileSchema_keeps : forall sch, keepsCache (compileSchema sch).
Hypothesis validate_keeps : forall s d, keepsCache (validate s d).
Hypothesis getSchema_keeps : forall k, keepsCache (getSchema k).

Lemma keepsCache_log (lvl : Level) (msg : string) : keepsCache (log lvl msg).
Proof. now apply keepsCache_modify. Qed.

Lemma keepsCache_checkUnique (id : string) : keepsCache (_checkUnique id).
Proof.
  unfold _checkUnique. apply keepsCache_bind; [auto with keeps|].
  intros st. auto with keeps.
Qed.

Lemma keepsCache_defaultMeta : keepsCache defaultMeta.
Proof.
  unfold defaultMeta. apply keepsCache_bind; [auto with keeps|]. intros st.
  apply keepsCache_bind.
  - destruct (opt_meta (opts st)); auto with keeps;
      (apply keepsCache_bind; [apply getSchema_keeps | auto with keeps]).
  - intros v. apply keepsCache_bind; [now apply keepsCache_modify | auto with keeps].
Qed.

Lemma keepsCache_validateSchema (schema_ : jsval) (b : bool) :
  keepsCache (validateSchema schema_ b).
Proof.
  assert (Hbody : forall dschema,
    keepsCache
      (if negb (String.eqb (typeof dschema) "undefined")
          && negb (String.eqb (typeof dschema) "string")
       then throw (Error "$schema must be a string")
       else
         st <- get ;;
         dschema' <- (if truthy dschema then ret dschema
                      else if truthy (opt_defaultMeta (opts st))
                           then ret (opt_defaultMeta (opts st))
                           else defaultMeta) ;;
         if negb (truthy dschema') then
           log LWarn "meta-schema not available" ;;;
           modify (set_errors ErrorsNull) ;;;
           ret (Valid true)
         else
           valid <- validate dschema' schema_ ;;
           (if resultFalsy valid && b then
              st' <- get ;;
              let message_ :=
                "schema is invalid: " +:+ errorsText (errors st') ErrorsUndefined None in
              match opt_validateSchema (opts st') with
              | VSlog => log LError message_
              | _ => throw (Error message_)
              end
            else ret tt) ;;;
           ret valid)).
  { intros dschema. apply keepsCache_if; [auto with keeps|].
    apply keepsCache_bind; [auto with keeps|]. intros st.
    apply keepsCache_bind.
    - repeat apply keepsCache_if; auto using keepsCache_defaultMeta with keeps.
    - intros d'. apply keepsCache_if.
      + apply keepsCache_bind; [apply keepsCache_log|]. intros _.
        apply keepsCache_bind; [now apply keepsCache_modify | auto with keeps].
      + apply keepsCache_bind; [apply validate_keeps|]. intros valid.
        apply keepsCache_bind; [|auto with keeps].
        apply keepsCache_if; [|auto with keeps].
        apply keepsCache_bind; [auto with keeps|]. intros st'.
        destruct (opt_validateSchema (opts st'));
          auto using keepsCache_log with keeps. }
  unfold validateSchema. destruct schema_; auto with keeps; apply Hbody.
Qed.

Lemma addSchema_cached (schema_ : jsval) (meta_ : bool)
    (vs : option ValidateSchemaOpt) (addS : option bool) (st st1 : Ajv)
    (sch : SchemaEnv) :
  _addSchema schema_ meta_ vs addS st = (Ok sch, st1) ->
  _cache st1 !! serialize schema_ = Some sch.
Proof.
  unfold _addSchema, cache_get. mstep.
  destruct (negb (typeof schema_ =? "object") && negb (typeof schema_ =? "boolean"));
    [discriminate|].
  mstep. destruct (_cache st !! serialize schema_) as [s0|] eqn:Hc.
  - intros [= <- <-]. exact Hc.
  - intros H. apply bind_inv_Ok in H as (lr & sta & _ & H).
    unfold newSchemaEnv, cache_put in H. revert H. mstep. simpl cacheKey. simpl baseId.
    set (sch0 := mkSchemaEnv _ _ _ _ _ _).
    set (stc := set_cache _ _).
    intros H.
    apply bind_inv_Ok in H as ([] & std & HA & H).
    apply bind_inv_Ok in H as ([] & ste & HB & H).
    injection H as <- <-.
    assert (Hput : _cache stc !! serialize schema_ = Some sch0).
    { subst stc. simpl. apply lookup_insert_eq. }
    assert (HkA : _cache std !! serialize schema_ = Some sch0).
    { match type of HA with
      | ?m stc = _ =>
          assert (Hk : keepsCache m);
          [ apply keepsCache_if; [|auto with keeps];
            apply keepsCache_bind;
            [ apply keepsCache_if; auto using keepsCache_checkUnique with keeps
            | intros _; now apply keepsCache_modify ]
          | specialize (Hk stc _ _ Hput); now rewrite HA in Hk ]
      end. }
    match type of HB with
    | ?m std = _ =>
        assert (Hk : keepsCache m);
        [ apply keepsCache_if; [|auto with keeps];
          apply keepsCache_bind; [apply keepsCache_validateSchema | auto with keeps]
        | specialize (Hk std _ _ HkA); now rewrite HB in Hk ]
    end.
Qed.

Lemma addSchema_hit (schema_ : jsval) (meta_ : bool)
    (vs : option ValidateSchemaOpt) (addS : option bool) (st : Ajv)
    (sch : SchemaEnv) :
  negb (typeof schema_ =? "object") && negb (typeof schema_ =? "boolean") = false ->
  _cache st !! serialize schema_ = Some sch ->
  _addSchema schema_ meta_ vs addS st = (Ok sch, st).
Proof.
  intros Ht Hc. unfold _addSchema, cache_get. mstep. rewrite Ht. mstep.
  now rewrite Hc.
Qed.

Lemma addSchema_typeof (schema_ : jsval) (meta_ : bool)
    (vs : option ValidateSchemaOpt) (addS : option bool) (st st1 : Ajv)
    (sch : SchemaEnv) :
  _addSchema schema_ meta_ vs addS st = (Ok sch, st1) ->
  negb (typeof schema_ =? "object") && negb (typeof schema_ =? "boolean") = false.
Proof.
  unfold _addSchema. mstep.
  destruct (negb (typeof schema_ =? "object") && negb (typeof schema_ =? "boolean"));
    [discriminate | reflexivity].
Qed.

Lemma keepsCache_compileSchemaEnv (sch : SchemaEnv) :
  keepsCache (if meta sch then _compileMetaSchema sch else compileSchema sch).
Proof.
  apply keepsCache_if; [|apply compileSchema_keeps].
  unfold _compileMetaSchema. apply keepsCache_bind; [auto with keeps|]. intros st.
  apply keepsCache_bind; [now apply keepsCache_modify|]. intros _.
  apply keepsCache_finally; [apply compileSchema_keeps | reflexivity].
Qed.

(** C2.  When [compile(s)] returns a validator, a second [compile(s)] returns
    the same function object and changes nothing: the cache maps the
    serialized schema to the schema environment of the first call, and the
    validator is the one stored on that environment. *)
Theorem compile_twice_same (schema_ : jsval) (meta1 meta2 : bool) (st st' : Ajv)
    (v : ValidateFunction) :
  compile schema_ meta1 st = (Ok v, st') ->
  compile schema_ meta2 st' = (Ok v, st')
  /\ exists sch, _cache st' !! serialize schema_ = Some sch
                 /\ validateOf st' !! envId sch = Some v.
Proof.
  unfold compile. intros H.
  apply bind_inv_Ok in H as (sch & st1 & Hadd & H).
  pose proof (addSchema_cached _ _ _ _ _ _ _ Hadd) as Hc1.
  pose proof (addSchema_typeof _ _ _ _ _ _ _ Hadd) as Ht.
  unfold readValidate in H. revert H. mstep. intros H.
  assert (Hfin : _cache st' !! serialize schema_ = Some sch
                 /\ validateOf st' !! envId sch = Some v).
  { destruct (validateOf st1 !! envId sch) as [f|] eqn:Hv.
    - injection H as <- <-. now split.
    - unfold _compileSchemaEnv in H.
      apply bind_inv_Ok in H as ([] & st2 & Hcomp & H).
      unfold readValidate in H. revert H. mstep.
      destruct (validateOf st2 !! envId sch) as [f|] eqn:Hv2; [|discriminate].
      intros [= <- <-]. split; [|exact Hv2].
      pose proof (keepsCache_compileSchemaEnv sch st1 _ _ Hc1) as Hk.
      now rewrite Hcomp in Hk. }
  destruct Hfin as [Hc Hv]. split; [|now exists sch].
  rewrite (bind_Ok _ _ _ _ _ (addSchema_hit schema_ meta2 None None st' sch Ht Hc)).
  unfold readValidate. mstep. now rewrite Hv.
Qed.

End CompileFacts.

End RegistrationFacts.

End AjvFacts.

(** ** The instance with the always-successful compiler *)

Module PlainFacts.
Import Js Ajv Plain AjvFacts.

Lemma plain_compileSchema_keeps (sch : SchemaEnv) : keepsCache (compileSchema sch).
Proof. intros st k e H. exact H. Qed.

Lemma plain_validate_keeps (s d : jsval) : keepsCache (validate s d).
Proof. intros st k e H. exact H. Qed.

Lemma plain_getSchema_keeps (k : string) : keepsCache (getSchema k).
Proof. intros st k' e H. exact H. Qed.

(** C1, against the claim: the schema [{}] declares no [$id] and no key is
    given; the first [addSchema] returns and the second throws. *)
Lemma addSchema_again_without_id :
  member (VObj []) "$id" = VUndef
  /\ exists st',
       addSchema (VObj []) None false None newAjv = (Ok tt, st')
       /\ (addSchema (VObj []) None false None st').1
          = Throw (Error (alreadyExists EmptyString)).
Proof.
  split; [reflexivity|].
  exists (addSchema (VObj []) None false None newAjv).2.
  split; vm_compute; reflexivity.
Qed.

Lemma addSchema_again_fails_witness :
  let s := VObj [("$id", VStr "a")] in
  let st' := (addSchema s None false None newAjv).2 in
  addSchema s None false None st' = (Throw (Error (alreadyExists "a")), st').
Proof.
  intros s st'.
  assert (H1 : addSchema s None false None newAjv = (Ok tt, st'))
    by (vm_compute; reflexivity).
  exact (addSchema_again_fails s None false false None None newAjv st' eq_refl H1).
Defined.

Lemma compile_twice_same_witness :
  let st' := (compile (VObj []) false newAjv).2 in
  compile (VObj []) false st' = (Ok 1, st')
  /\ exists sch, _cache st' !! serialize (VObj []) = Some sch
                 /\ validateOf st' !! envId sch = Some 1.
Proof.
  intros st'.
  assert (H1 : compile (VObj []) false newAjv = (Ok 1, st'))
    by (vm_compute; reflexivity).
  exact (compile_twice_same plain_compileSchema_keeps plain_validate_keeps
           plain_getSchema_keeps (VObj []) false false newAjv st' 1 H1).
Defined.

(** C8, against the claim: the name [A] does not match the pattern as the
    spec writes it and is not registered, and [addKeyword] accepts it. *)
Lemma addKeyword_uppercase_accepted :
  ~ ((exists e, (addKeyword (Def (numberKeyword "A" None)) None newAjv).1 = Throw e)
     <-> (default false (vr_keywords (RULES newAjv) !! "A") = true
          \/ specKeywordPattern "A" = false)).
Proof.
  intros [_ H]. destruct H as [e He]; [right; reflexivity|].
  vm_compute in He. discriminate He.
Qed.

Lemma addKeyword_name_check_witness :
  (addKeyword (Def (numberKeyword "A" None)) None newAjv).1 = Ok tt.
Proof.
  apply (addKeyword_name_check newAjv (numberKeyword "A" None) "A" eq_refl eq_refl);
    reflexivity.
Defined.

Lemma addRule_before_witness :
  let d := numberKeyword "multipleOf" (Some "maximum") in
  rulesOfType (Some "number") (addRule "multipleOf" (Some "number") (Some d) numberRules).2
  = [mkRule "minimum" (numberKeyword "minimum" None);
     mkRule "multipleOf" d;
     mkRule "maximum" (numberKeyword "maximum" None)].
Proof.
  intros d.
  exact (proj1 (addRule_before numberRules "multipleOf" (Some "number") d "maximum"
                  eq_refl eq_refl)).
Defined.

Lemma removeSchema_bulk_keeps_meta_witness :
  let st' := (removeSchema (RmValue VUndef) twoSchemas).2 in
  schemas st' !! "m" = Some (Env metaEnv)
  /\ refs st' !! "m" = Some (Env metaEnv)
  /\ schemas st' !! "a" = None
  /\ refs st' !! "a" = None
  /\ _cache st' !! "{user}" = None.
Proof.
  intros st'.
  destruct (removeSchema_bulk_keeps_meta twoSchemas None) as (_ & Hm & _ & _ & Hn).
  destruct (Hm "m" metaEnv eq_refl) as [Hm1 Hm2].
  destruct (Hn I "a" userEnv eq_refl eq_refl) as [Hn1 Hn2].
  destruct (Hn1 eq_refl) as [Hs Hc].
  destruct (Hn2 eq_refl) as [Hr _].
  split; [exact (Hm1 eq_refl)|]. split; [exact (Hm2 eq_refl)|].
  split; [exact Hs|]. split; [exact Hr | exact Hc].
Defined.

(** C6, at the failing input.  Three schemas that are no meta-schemas are
    registered under [a1], [a2] and [a3], and each of the keys matches
    [/^a/]; [removeSchema(/^a/g)] leaves [a2] in [schemas] and [a1] and [a3]
    in [refs], because [regex.test] starts at the [lastIndex] that the
    test on the key before has left, in the same table or in the other
    one.  With [/^a/], the same pattern without the flag, all of them are
    removed. *)
Lemma removeSchema_global_regexp_misses :
  let st' := (removeSchema (RmRegExp startsWithA_g) threeSchemas).2 in
  (forall k, k ∈ ["a1"; "a2"; "a3"] ->
     matchesKey (Some startsWithA_g) k = true
     /\ exists e, schemas threeSchemas !! k = Some (Env e)
                  /\ refs threeSchemas !! k = Some (Env e)
                  /\ meta e = false)
  /\ forIn (schemas threeSchemas) = ["a1"; "a2"; "a3"]
  /\ forIn (refs threeSchemas) = ["a1"; "a2"; "a3"]
  /\ (removeSchema (RmRegExp startsWithA_g) threeSchemas).1 = Ok tt
  /\ (schemas st' !! "a1" = None
      /\ schemas st' !! "a2" = schemas threeSchemas !! "a2"
      /\ schemas st' !! "a3" = None)
  /\ (refs st' !! "a1" = refs threeSchemas !! "a1"
      /\ refs st' !! "a2" = None
      /\ refs st' !! "a3" = refs threeSchemas !! "a3")
  /\ (forall k, k ∈ ["a1"; "a2"; "a3"] ->
        schemas (removeSchema (RmRegExp startsWithA) threeSchemas).2 !! k = None
        /\ refs (removeSchema (RmRegExp startsWithA) threeSchemas).2 !! k = None).
Proof.
  assert (Hall : forall (P : string -> Prop),
             P "a1" -> P "a2" -> P "a3" -> forall k, k ∈ ["a1"; "a2"; "a3"] -> P k).
  { intros P H1 H2 H3 k Hk. repeat (apply elem_of_cons in Hk as [->|Hk]; [assumption|]).
    inversion Hk. }
  split; [|split; [|split; [|split; [|split; [|split]]]]].
  - apply Hall; (split; [reflexivity|]); eexists; vm_compute; repeat split.
  - vm_compute. reflexivity.
  - vm_compute. reflexivity.
  - vm_compute. reflexivity.
  - vm_compute. repeat split.
  - vm_compute. repeat split.
  - apply Hall; vm_compute; repeat split.
Qed.

End PlainFacts.

(** ** The enum template *)

Module EnumFacts.
Import Js Enum.

Lemma itemsHash_fold (items : list jsval) (h : gmap string bool) (k : string) :
  foldl (fun h item => <[serializedKey item := true]> h) h items !! k
  = if existsb (fun m => String.eqb (serializedKey m) k) items then Some true
    else h !! k.
Proof.
  revert h. induction items as [|x items IH]; intros h; simpl; [reflexivity|].
  rewrite IH. destruct (existsb _ items); [now rewrite orb_true_r|].
  rewrite orb_false_r. destruct (String.eqb_spec (serializedKey x) k) as [->|Hne].
  - apply lookup_insert_eq.
  - now apply lookup_insert_ne.
Qed.

Lemma itemsHash_lookup (items : list jsval) (k : string) :
  itemsHash items !! k
  = if existsb (fun m => String.eqb (serializedKey m) k) items then Some true else None.
Proof. unfold itemsHash. fold serializedKey. now rewrite itemsHash_fold, lookup_empty. Qed.

(** C3 (as the code has it).  The emitted validator returns [true] exactly
    when the stable serialization of the data is that of some member of the
    enum.  For [{enum: [{"a":1},{"b":2}]}] the data [{"a":1}] passes,
    [{"a":1,"b":2}] fails, and [{"b":2,"a":undefined}] passes, because a
    property holding [undefined] is not serialized. *)
Theorem enumValidate_by_serialization :
  (forall (verbose : bool) (items : list jsval) (data_ : jsval) (dataPath_ : string)
          (errors : list ErrorObject),
     (enumValidate verbose items data_ dataPath_ errors).1 = true
     <-> exists m, m ∈ items /\ serializedKey m = serializedKey data_)
  /\ (let items := [VObj [("a", VNum 1)]; VObj [("b", VNum 2)]] in
      (enumValidate false items (VObj [("a", VNum 1)]) EmptyString []).1 = true
      /\ (enumValidate false items (VObj [("a", VNum 1); ("b", VNum 2)]) EmptyString []).1
         = false
      /\ (enumValidate false items (VObj [("b", VNum 2); ("a", VUndef)]) EmptyString []).1
         = true).
Proof.
  split.
  - intros verbose items data_ dataPath_ errors. unfold enumValidate. simpl.
    fold (serializedKey data_). rewrite itemsHash_lookup.
    destruct (existsb _ items) eqn:Hex; simpl.
    + split; [intros _|reflexivity].
      apply existsb_exists in Hex as (m & Hin & Hm).
      exists m. split; [now apply list_elem_of_In | now apply String.eqb_eq].
    + split; [discriminate|]. intros (m & Hin & Hm).
      assert (Htrue : existsb (fun m => String.eqb (serializedKey m) (serializedKey data_))
                        items = true).
      { apply existsb_exists. exists m.
        split; [now apply list_elem_of_In | now apply String.eqb_eq]. }
      congruence.
  - vm_compute. repeat split.
Qed.

(** C3, against the claim: [{"b":2,"a":undefined}] is deeply equal to no
    member of [[{"a":1},{"b":2}]], and the validator returns [true] on it. *)
Lemma enum_undefined_property_accepted :
  let items := [VObj [("a", VNum 1)]; VObj [("b", VNum 2)]] in
  let data_ := VObj [("b", VNum 2); ("a", VUndef)] in
  existsb (specDeepEqual data_) items = false
  /\ (enumValidate false items data_ EmptyString []).1 = true.
Proof. vm_compute. split; reflexivity. Qed.

End EnumFacts.

(** ** [$dataMetaSchema] *)

Module DataMetaFacts.
Import Js Ajv DataMeta Plain.

Lemma above_le (n m : nat) (v : val) : m <= n -> above n v -> above m v.
Proof. destruct v; simpl; trivial. lia. Qed.

Lemma objAbove_le (n m : nat) (o : object) : m <= n -> objAbove n o -> objAbove m o.
Proof.
  intros Hle. destruct o; simpl; intros H; (eapply Forall_impl; [exact H|]);
    intros v; now apply above_le.
Qed.

Lemma fromJSON_extends (j : jsval) : forall h, extends h (fromJSON j h).
Proof.
  induction j as [| | b | n | s | xs IH | ps IH] using jsval_nested_ind; intros h;
    try (exists []; simpl; rewrite app_nil_r; repeat split; constructor).
  - simpl.
    set (elems := fix elems (l : list jsval) (h : heap) : list val * heap :=
                    match l with
                    | [] => ([], h)
                    | x :: l' =>
                        let r1 := fromJSON x h in
                        let r2 := elems l' r1.2 in (r1.1 :: r2.1, r2.2)
                    end).
    assert (He : forall h0, exists ext, (elems xs h0).2 = (h0 ++ ext)%list
                              /\ Forall (above (length h0)) (elems xs h0).1
                              /\ Forall (objAbove (length h0)) ext).
    { clear h. induction IH as [|x xs Hx _ IHxs]; intros h0; simpl.
      - exists []. rewrite app_nil_r. repeat split; constructor.
      - destruct (Hx h0) as (e1 & H1 & A1 & C1).
        destruct (IHxs (fromJSON x h0).2) as (e2 & H2 & A2 & C2).
        exists (e1 ++ e2)%list. rewrite H2, H1, <- app_assoc.
        rewrite H1, length_app in A2, C2.
        split; [reflexivity|]. split.
        + constructor; [exact A1|].
          eapply Forall_impl; [exact A2|]. intros v. apply above_le. lia.
        + apply Forall_app. split; [exact C1|].
          eapply Forall_impl; [exact C2|]. intros o. apply objAbove_le. lia. }
    destruct (He h) as (ext & H1 & A1 & C1).
    exists (ext ++ [Arr (elems xs h).1])%list. simpl. rewrite H1, <- app_assoc.
    split; [reflexivity|]. split; [rewrite length_app; lia|].
    apply Forall_app. split; [exact C1|]. constructor; [exact A1 | constructor].
  - simpl.
    set (props := fix props (l : list (string * jsval)) (h : heap)
                    : list (string * val) * heap :=
                    match l with
                    | [] => ([], h)
                    | (k, x) :: l' =>
                        let r1 := fromJSON x h in
                        let r2 := props l' r1.2 in ((k, r1.1) :: r2.1, r2.2)
                    end).
    assert (He : forall h0, exists ext, (props ps h0).2 = (h0 ++ ext)%list
                              /\ Forall (above (length h0)) (props ps h0).1.*2
                              /\ Forall (objAbove (length h0)) ext).
    { clear h. induction IH as [|[k x] ps Hx _ IHps]; intros h0; simpl.
      - exists []. rewrite app_nil_r. repeat split; constructor.
      - simpl in Hx. destruct (Hx h0) as (e1 & H1 & A1 & C1).
        destruct (IHps (fromJSON x h0).2) as (e2 & H2 & A2 & C2).
        exists (e1 ++ e2)%list. rewrite H2, H1, <- app_assoc.
        rewrite H1, length_app in A2, C2.
        split; [reflexivity|]. split.
        + constructor; [exact A1|].
          eapply Forall_impl; [exact A2|]. intros v. apply above_le. lia.
        + apply Forall_app. split; [exact C1|].
          eapply Forall_impl; [exact C2|]. intros o. apply objAbove_le. lia. }
    destruct (He h) as (ext & H1 & A1 & C1).
    exists (ext ++ [Obj (props ps h).1])%list. simpl. rewrite H1, <- app_assoc.
    split; [reflexivity|]. split; [rewrite length_app; lia|].
    apply Forall_app. split; [exact C1|]. constructor; [exact A1 | constructor].
Qed.






(** The copy of an object is a new object; the store is extended. *)
Lemma jsonClone_extends (v v' : val) (h h1 : heap) :
  jsonClone v h = (Ok v', h1) -> extends h (v', h1).
Proof.
  unfold jsonClone. destruct (toJSON (S (length h)) h v) as [j|]; [|discriminate].
  pose proof (fromJSON_extends j h) as He.
  destruct j; try discriminate; intros [= <- <-]; exact He.
Qed.






(** A value that serializes in a store serializes to the same JSON in a
    store that extends it, with at least as much fuel. *)
Lemma toJSON_mono (n : nat) :
  forall (m : nat) (h h' : heap) (v : val) (j : jsval),
    n <= m -> h `prefix_of` h' ->
    toJSON n h v = Some j -> toJSON m h' v = Some j.
Proof.
  induction n as [|n IH]; intros m h h' v j Hnm Hp;
    destruct v as [| | b | z | s | l]; cbn [toJSON];
    try (intros H; destruct m; cbn [toJSON]; exact H).
  - discriminate.
  - destruct m as [|m]; [lia|]. cbn [toJSON].
    destruct (h !! l) as [o|] eqn:Ho; [|discriminate].
    rewrite (prefix_lookup_Some _ _ _ _ Ho Hp).
    assert (Hmap : forall (l0 : list val) js,
               mapM (toJSON n h) l0 = Some js -> mapM (toJSON m h') l0 = Some js).
    { intros l0 js H. apply mapM_Some in H. apply mapM_Some.
      eapply Forall2_impl; [exact H|]. intros x y Hxy.
      apply (IH m h h' x y); [lia | exact Hp | exact Hxy]. }
    destruct o as [ps|es].
    + destruct (mapM (toJSON n h) ps.*2) as [js|] eqn:Hm; [|discriminate].
      now rewrite (Hmap _ _ Hm).
    + destruct (mapM (toJSON n h) es) as [js|] eqn:Hm; [|discriminate].
      now rewrite (Hmap _ _ Hm).
Qed.




End DataMetaFacts.

(** ** The loader *)

Module LoaderFacts.
Import Loader.

Lemma Inv_init : Inv init.
Proof. split; intros *; simpl; rewrite lookup_empty; discriminate. Qed.

Lemma Inv_step (ev : Event) (s s' : State) :
  Inv s -> step ev s = Some s' -> Inv s'.
Proof.
  intros [I1 I2 I3 I4]. destruct ev as [ref r | p ok | p]; simpl.
  - unfold call. destruct (_loading s !! ref) as [p|] eqn:Hl.
    + intros [= <-]. now split.
    + destruct r; intros [= <-]; split; simpl.
      * intros ref' p'. destruct (decide (ref = ref')) as [<-|Hne].
        -- rewrite lookup_insert_eq. intros [= <-]. apply lookup_insert_eq.
        -- rewrite lookup_insert_ne by assumption. intros H.
           pose proof (I1 _ _ H) as Hs. pose proof (I4 _ _ Hs).
           rewrite lookup_insert_ne by lia. exact Hs.
      * intros p' ref'. destruct (decide (nextPromise s = p')) as [<-|Hne].
        -- rewrite lookup_insert_eq. intros [= <-]. apply lookup_insert_eq.
        -- rewrite lookup_insert_ne by assumption. intros H.
           pose proof (I2 _ _ H) as Hlo.
           rewrite lookup_insert_ne by congruence. exact Hlo.
      * intros p' ref'. destruct (decide (nextPromise s = p')) as [<-|Hne].
        -- rewrite !lookup_insert_eq. trivial.
        -- rewrite !lookup_insert_ne by assumption. apply I3.
      * intros p' ref'. destruct (decide (nextPromise s = p')) as [<-|Hne].
        -- lia.
        -- rewrite lookup_insert_ne by assumption. intros H.
           pose proof (I4 _ _ H). lia.
      * intros ref' p'. rewrite delete_id by assumption. apply I1.
      * intros p' ref'. rewrite delete_id by assumption. apply I2.
      * exact I3.
      * exact I4.
  - destruct (unsettled s !! p) as [ref|] eqn:Hu; [|discriminate].
    intros [= <-]. split; simpl; try assumption.
    intros p' ref'. destruct (decide (p = p')) as [<-|Hne].
    + rewrite lookup_delete_eq. discriminate.
    + rewrite lookup_delete_ne by assumption. apply I3.
  - destruct (suspended s !! p) as [ref|] eqn:Hs; [|discriminate].
    destruct (unsettled s !! p) eqn:Hu; [discriminate|].
    intros [= <-]. split; simpl.
    + intros ref' p'. destruct (decide (ref = ref')) as [<-|Hne].
      * rewrite lookup_delete_eq. discriminate.
      * rewrite lookup_delete_ne by assumption. intros H.
        pose proof (I1 _ _ H) as Hs'.
        rewrite lookup_delete_ne by congruence. exact Hs'.
    + intros p' ref'. destruct (decide (p = p')) as [<-|Hne].
      * rewrite lookup_delete_eq. discriminate.
      * rewrite lookup_delete_ne by assumption. intros H.
        pose proof (I2 _ _ H) as Hlo. pose proof (I2 _ _ Hs) as Hlo'.
        rewrite lookup_delete_ne by congruence. exact Hlo.
    + intros p' ref' H. pose proof (I3 _ _ H) as Hs'.
      rewrite lookup_delete_ne by congruence. exact Hs'.
    + intros p' ref'. destruct (decide (p = p')) as [<-|Hne].
      * rewrite lookup_delete_eq. discriminate.
      * rewrite lookup_delete_ne by assumption. apply I4.
Qed.

Lemma Inv_run (evs : list Event) (s s' : State) :
  Inv s -> run evs s = Some s' -> Inv s'.
Proof.
  revert s. induction evs as [|ev evs IH]; intros s HI; simpl.
  - now intros [= <-].
  - destruct (step ev s) as [s1|] eqn:Hs; [|discriminate].
    apply IH. now apply (Inv_step ev s).
Qed.

(** While [_loading[ref]] holds a promise, no event other than the
    resumption of the activation awaiting it calls [loadSchema(ref)] or
    touches the entry. *)
Lemma step_while_loading (ref : string) (p : promise) (ev : Event) (s s' : State) :
  Inv s -> _loading s !! ref = Some p -> ev <> Resume p ->
  step ev s = Some s' ->
  invocations ref s' = invocations ref s /\ _loading s' !! ref = Some p.
Proof.
  intros HI Hl Hev. destruct ev as [ref' r | p' ok | p']; simpl.
  - unfold call. destruct (decide (ref' = ref)) as [->|Hne].
    + rewrite Hl. now intros [= <-].
    + destruct (_loading s !! ref') eqn:Hl'; [now intros [= <-]|].
      assert (Hc : forall l, countRef ref (ref' :: l) = countRef ref l).
      { intros l. simpl. now rewrite (proj2 (String.eqb_neq ref' ref) Hne). }
      destruct r; intros [= <-]; unfold invocations; simpl invoked;
        rewrite Hc; (split; [reflexivity|]); simpl.
      * now rewrite lookup_insert_ne.
      * now rewrite lookup_delete_ne.
  - destruct (unsettled s !! p'); [|discriminate]. now intros [= <-].
  - destruct (suspended s !! p') as [ref'|] eqn:Hs; [|discriminate].
    destruct (unsettled s !! p'); [discriminate|]. intros [= <-].
    split; [reflexivity|]. simpl.
    pose proof (inv_suspended s HI _ _ Hs) as Hl'.
    assert (ref' <> ref) by (intros ->; apply Hev; congruence).
    now rewrite lookup_delete_ne.
Qed.

Lemma run_while_loading (ref : string) (p : promise) (evs : list Event) (s s' : State) :
  Inv s -> _loading s !! ref = Some p -> Resume p ∉ evs ->
  run evs s = Some s' ->
  invocations ref s' = invocations ref s /\ _loading s' !! ref = Some p.
Proof.
  revert s. induction evs as [|ev evs IH]; intros s HI Hl Hno; simpl.
  - now intros [= <-].
  - destruct (step ev s) as [s1|] eqn:Hs; [|discriminate]. intros Hrun.
    assert (Hev : ev <> Resume p) by (intros ->; apply Hno; left).
    assert (Hno' : Resume p ∉ evs) by (intros Hin; apply Hno; now right).
    destruct (step_while_loading ref p ev s s1 HI Hl Hev Hs) as [Hc Hl1].
    destruct (IH s1 (Inv_step _ _ _ HI Hs) Hl1 Hno' Hrun) as [Hc' Hl'].
    split; [congruence | exact Hl'].
Qed.

(** C5.  In every state the loader can reach: (1) no ref has two fetches
    that have not settled; (2) while a fetch for [ref] has not settled, a
    call of [_loadSchema(ref)] changes nothing, does not call [loadSchema]
    and hands out the promise stored in [_loading]; (3) from a call that
    starts a fetch until the activation that started it resumes,
    [loadSchema(ref)] is called exactly once, whatever else happens;
    (4) once the fetch settles, fulfilled or rejected, the activation can
    resume, and resuming removes the entry of [_loading]. *)
Theorem loadSchema_once_per_ref (evs : list Event) (s : State) :
  run evs init = Some s ->
  (forall ref p1 p2,
     unsettled s !! p1 = Some ref -> unsettled s !! p2 = Some ref -> p1 = p2)
  /\ (forall ref p r,
        unsettled s !! p = Some ref ->
        _loading s !! ref = Some p /\ call ref r s = (s, Some p))
  /\ (forall ref evs' s',
        _loading s !! ref = None ->
        Resume (nextPromise s) ∉ evs' ->
        run (Call ref Returns :: evs') s = Some s' ->
        invocations ref s' = S (invocations ref s))
  /\ (forall ref p fulfilled,
        unsettled s !! p = Some ref ->
        exists s1 s2,
          step (Settle p fulfilled) s = Some s1
          /\ step (Resume p) s1 = Some s2
          /\ _loading s2 !! ref = None
          /\ invoked s2 = invoked s).
Proof.
  intros Hrun. pose proof (Inv_run evs init s Inv_init Hrun) as HI.
  assert (Hload : forall ref p, unsettled s !! p = Some ref -> _loading s !! ref = Some p).
  { intros ref p Hu. apply (inv_suspended s HI). now apply (inv_unsettled s HI). }
  split; [|split; [|split]].
  - intros ref p1 p2 H1 H2. apply Hload in H1, H2. congruence.
  - intros ref p r Hu. split; [now apply Hload|].
    unfold call. now rewrite (Hload _ _ Hu).
  - intros ref evs' s' Hl Hno. simpl run. unfold call. rewrite Hl. simpl.
    set (s1 := mkState _ _ _ _ _). intros Hrun'.
    assert (HI1 : Inv s1).
    { apply (Inv_step (Call ref Returns) s); [exact HI|].
      simpl. unfold call. now rewrite Hl. }
    assert (Hl1 : _loading s1 !! ref = Some (nextPromise s)).
    { simpl. apply lookup_insert_eq. }
    destruct (run_while_loading ref _ evs' s1 s' HI1 Hl1 Hno Hrun') as [Hc _].
    rewrite Hc. unfold invocations. simpl. now rewrite String.eqb_refl.
  - intros ref p fulfilled Hu. simpl. rewrite Hu.
    eexists. eexists. split; [reflexivity|]. simpl.
    rewrite (inv_unsettled s HI _ _ Hu), lookup_delete_eq.
    split; [reflexivity|]. simpl. split; [apply lookup_delete_eq | reflexivity].
Qed.

(** Two callers ask for ["b"] while its fetch is pending, the fetch is
    rejected, and the first activation resumes. *)
Lemma loadSchema_once_per_ref_witness :
  let evs := [Call "b" Returns; Call "b" Returns] in
  exists s, run evs init = Some s
            /\ invocations "b" s = 1
            /\ _loading s !! "b" = Some 0
            /\ exists s1 s2,
                 step (Settle 0 false) s = Some s1
                 /\ step (Resume 0) s1 = Some s2
                 /\ _loading s2 !! "b" = None
                 /\ invoked s2 = invoked s.
Proof.
  intros evs.
  assert (Hrun : run evs init = Some (call "b" Returns init).1)
    by (vm_compute; reflexivity).
  exists (call "b" Returns init).1.
  destruct (loadSchema_once_per_ref evs _ Hrun) as (_ & H2 & _ & H4).
  split; [exact Hrun|]. split; [reflexivity|].
  split; [exact (proj1 (H2 "b" 0 Returns eq_refl))|].
  exact (H4 "b" 0 false eq_refl).
Defined.

End LoaderFacts.

(** ** The [properties] keyword *)

Module PropertiesFacts.
Import Js Properties.

Lemma validator_SObj (it : It) (types : list string) (dflt : option jsval)
    (props : list (string * Schema)) (data_ : jsval) :
  validator it (SObj types dflt props) data_
  = match data_ with
    | VObj ps =>
        let ps1 := if truthy (useDefaults it) && negb (compositeRule it)
                   then assignDefaults props ps else ps in
        let r := exec (allErrors it) (compiled (validator it) props)
                      (code it props) (mkRun ps1 true false false) in
        (typeOk types data_ && negb (failed r), VObj (fields r))
    | _ => (typeOk types data_, data_)
    end.
Proof. reflexivity. Qed.

(** A schema without properties checks the type and changes nothing. *)
Lemma validator_leaf (it : It) (types : list string) (dflt : option jsval) (v : jsval) :
  validator it (SObj types dflt []) v = (typeOk types v, v).
Proof.
  rewrite validator_SObj. destruct v; try reflexivity.
  cbn [assignDefaults code schemaProperties fmap list_fmap length Nat.eqb exec].
  destruct (truthy (useDefaults it) && negb (compositeRule it)); cbn;
    now rewrite andb_true_r.
Qed.

Lemma exec_absent (it : It) (subs : string -> option Validator)
    (schema_ : list (string * Schema)) (props : list string) (v : bool) :
  truthy (useDefaults it) = false ->
  (if v then True else allErrors it = false) ->
  exec (allErrors it) subs
    (flat_map
       (fun prop =>
          (if hasDefault it schema_ prop
           then [ApplySubschema prop prop]
           else [IfPropertyInData prop (ownProperties it)
                   [ApplySubschema prop prop]
                   (if negb (allErrors it) then [VarValidTrue] else [])])
          ++ [OkValid])%list
       props)
    (mkRun [] true false false)
  = mkRun [] true false false.
Proof.
  intros Hu _. induction props as [|p props IH]; [reflexivity|].
  cbn [flat_map]. unfold hasDefault at 1. rewrite Hu. cbn [andb app].
  cbn [exec returned execStmt]. unfold propertyInData. cbn [getProp typeof].
  cbn [String.eqb negb andb fields].
  destruct (allErrors it); simpl; exact IH.
Qed.

(** C4.  For a declared property [x] with a default [d]: when [useDefaults]
    is set outside a composite rule, the emitted code applies the subschema
    of [x] unconditionally, and validating [{}] against
    [{properties: {x: {default: d, type: ..}}}] gives [{x: d}] and the result
    of checking [d] against the type; when [useDefaults] is not set, the
    subschema is applied under the test that the property is in the data, and
    validating [{}] gives [true] and leaves the data as it is, whatever the
    declared properties.  With [d = 5] and type [number] the two results are
    [true], with data [{x: 5}] and [{}]. *)
Theorem properties_with_defaults :
  (forall (it : It) (types : list string) (d : jsval) (sub : list (string * Schema)),
     truthy (useDefaults it) = true ->
     compositeRule it = false ->
     typeof d <> "undefined" ->
     code it [("x", SObj types (Some d) sub)] = [ApplySubschema "x" "x"; OkValid]
     /\ validator it (SObj [] None [("x", SObj types (Some d) [])]) (VObj [])
        = (typeOk types d, VObj [("x", d)]))
  /\ (forall (it : It) (s : Schema),
        truthy (useDefaults it) = false ->
        code it [("x", s)]
        = [IfPropertyInData "x" (ownProperties it) [ApplySubschema "x" "x"]
             (if negb (allErrors it) then [VarValidTrue] else []);
           OkValid])
  /\ (forall (it : It) (props : list (string * Schema)),
        truthy (useDefaults it) = false ->
        validator it (SObj [] None props) (VObj []) = (true, VObj []))
  /\ (forall (own all : bool),
        validator (mkIt (VBool true) own false all) defaultFive (VObj [])
        = (true, VObj [("x", VNum 5)])
        /\ validator (mkIt (VBool false) own false all) defaultFive (VObj [])
           = (true, VObj [])).
Proof.
  split; [|split; [|split]].
  - intros it types d sub Hu Hc Hd.
    assert (Hd' : negb (String.eqb (typeof d) "undefined") = true).
    { apply negb_true_iff. now apply String.eqb_neq. }
    split.
    + unfold code. cbn [schemaProperties fmap list_fmap fst length Nat.eqb flat_map].
      unfold hasDefault. rewrite Hu, Hc. cbn. now rewrite Hd'.
    + rewrite validator_SObj. cbv zeta. rewrite Hu, Hc.
      cbn [negb andb assignDefaults defaultOf getProp typeof String.eqb].
      rewrite Hd'. cbn [andb setProp].
      unfold code. cbn [schemaProperties fmap list_fmap fst length Nat.eqb flat_map].
      unfold hasDefault. rewrite Hu, Hc.
      cbn [negb andb subschema String.eqb Ascii.eqb Bool.eqb mbind option_bind defaultOf].
      rewrite Hd'. cbn [app exec returned execStmt compiled String.eqb Ascii.eqb Bool.eqb].
      rewrite validator_leaf.
      cbn [getProp fields String.eqb Ascii.eqb Bool.eqb hasOwn orb setProp fst snd
           returned valid failed].
      destruct (typeOk types d); reflexivity.
  - intros it s Hu. unfold code.
    cbn [schemaProperties fmap list_fmap fst length Nat.eqb flat_map].
    unfold hasDefault. rewrite Hu. reflexivity.
  - intros it props Hu. rewrite validator_SObj. cbv zeta. rewrite Hu. cbn [andb].
    unfold code. destruct (length (schemaProperties props) =? 0)%nat.
    + reflexivity.
    + rewrite (exec_absent it _ props (schemaProperties props) true Hu I). reflexivity.
  - intros [] []; split; vm_compute; reflexivity.
Qed.

Lemma properties_with_defaults_witness :
  let withDefaults := mkIt (VStr "shared") true false true in
  let without := mkIt VUndef false false false in
  let s := SObj [] None [("x", SObj ["string"] (Some (VStr "a")) [])] in
  validator withDefaults s (VObj []) = (true, VObj [("x", VStr "a")])
  /\ validator without s (VObj []) = (true, VObj []).
Proof.
  intros withDefaults without s.
  destruct properties_with_defaults as (H1 & _ & H3 & _).
  split.
  - assert (Hd : typeof (VStr "a") <> "undefined") by discriminate.
    exact (proj2 (H1 withDefaults ["string"] (VStr "a") [] eq_refl eq_refl Hd)).
  - exact (H3 without [("x", SObj ["string"] (Some (VStr "a")) [])] eq_refl).
Defined.

End PropertiesFacts.

(** ** The keyword registry: lookup, reservation, removal *)

Module KeywordFacts.
Import Js Ajv AjvFacts.

Lemma findIndex_map {A B : Type} (p : B -> bool) (q : A -> bool) (f : A -> B)
    (l : list A) :
  (forall x, p (f x) = q x) -> findIndex p (map f l) = findIndex q l.
Proof.
  intros Hf. induction l as [|x l IH]; simpl; [reflexivity|].
  rewrite Hf. destruct (q x); [reflexivity|]. now rewrite IH.
Qed.

Lemma removeFirst_findIndex (k : string) (l : list Rule) :
  match findIndex (fun rule => String.eqb (rule_keyword rule) k) l with
  | Some i => spliceRemove i l
  | None => l
  end = removeFirst k l.
Proof.
  induction l as [|r l IH]; simpl; [reflexivity|].
  destruct (String.eqb (rule_keyword r) k); [reflexivity|].
  destruct (findIndex _ l) as [i|]; simpl in *; [|now rewrite <- IH].
  rewrite <- IH. reflexivity.
Qed.

Lemma removeFirst_absent (k : string) (l : list Rule) :
  hasRule k l = false -> removeFirst k l = l.
Proof.
  unfold hasRule. induction l as [|r l IH]; simpl; [reflexivity|].
  destruct (String.eqb (rule_keyword r) k); simpl; [discriminate|].
  intros H. now rewrite IH.
Qed.

Lemma removeFirst_app (k : string) (l1 l2 : list Rule) (r : Rule) :
  hasRule k l1 = false -> rule_keyword r = k ->
  removeFirst k (l1 ++ r :: l2) = (l1 ++ l2)%list.
Proof.
  unfold hasRule. intros H Hr. induction l1 as [|x l1 IH]; simpl in *.
  - now rewrite Hr, String.eqb_refl.
  - destruct (String.eqb (rule_keyword x) k); simpl in *; [discriminate|].
    now rewrite IH.
Qed.

Lemma hasRule_take (k : string) (i : nat) (l : list Rule) :
  hasRule k l = false -> hasRule k (take i l) = false.
Proof.
  unfold hasRule. revert i. induction l as [|x l IH]; intros [|i]; simpl; trivial.
  destruct (String.eqb (rule_keyword x) k); simpl; [discriminate|]. apply IH.
Qed.

Lemma removeFirst_insertRule (k : string) (d : KeywordDefinition) (old : list Rule) :
  hasRule k old = false ->
  removeFirst k (insertRule (mkRule k d) old) = old.
Proof.
  intros H. unfold insertRule, afterBefore, spliceInsert. simpl definition.
  assert (Happ : removeFirst k (old ++ [mkRule k d]) = old).
  { rewrite removeFirst_app by (trivial; reflexivity). apply app_nil_r. }
  destruct (def_before d) as [X|]; [|exact Happ].
  destruct (String.eqb X EmptyString); [exact Happ|].
  destruct (findIndex _ old) as [i|]; [|exact Happ].
  rewrite removeFirst_app; [apply take_drop | now apply hasRule_take | reflexivity].
Qed.

Lemma removeFirst_others (k : string) (l : list Rule) :
  List.filter (fun r => negb (String.eqb (rule_keyword r) k)) (removeFirst k l)
  = List.filter (fun r => negb (String.eqb (rule_keyword r) k)) l.
Proof.
  induction l as [|r l IH]; simpl; [reflexivity|].
  destruct (String.eqb (rule_keyword r) k) eqn:Hr; simpl; [reflexivity|].
  now rewrite Hr, IH.
Qed.

Section Registry.
Context `{C : Collaborators}.

Lemma forEach_state {A : Type} (f : A -> M unit) (l : list A) :
  (forall x st, (f x st).2 = st) -> forall st, (forEach f l st).2 = st.
Proof.
  intros Hf. induction l as [|x l IH]; intros st; simpl; [reflexivity|].
  unfold bind. specialize (Hf x st).
  destruct (f x st) as [[[]|e] st1]; simpl in *; subst; [apply IH | reflexivity].
Qed.

(** A loop of checks that do not touch the instance stops at the first
    check that fails. *)
Lemma forEach_checks {A : Type} (f : A -> M unit) (err : A -> option Exn)
    (l : list A) (st : Ajv) :
  (forall x, f x st = (match err x with Some e => Throw e | None => Ok tt end, st)) ->
  forEach f l st = (match head (omap err l) with Some e => Throw e | None => Ok tt end, st).
Proof.
  intros Hf. induction l as [|x l IH]; simpl; [reflexivity|].
  unfold bind. rewrite Hf. destruct (err x) as [e|]; simpl; [reflexivity|].
  exact IH.
Qed.

Lemma forEach_invariant {A : Type} (P : Ajv -> Prop) (f : A -> M unit) (l : list A) :
  (forall x st, P st -> P (f x st).2) ->
  forall st, P st -> P (forEach f l st).2.
Proof.
  intros Hf. induction l as [|x l IH]; intros st HP; simpl; [exact HP|].
  unfold bind. specialize (Hf x st HP).
  destruct (f x st) as [[[]|e] st1]; simpl in *; [now apply IH | exact Hf].
Qed.

Lemma forEach_established {A : Type} (P : Ajv -> Prop) (f : A -> M unit)
    (l : list A) (x : A) :
  (forall y st, P st -> P (f y st).2) ->
  (forall st, P (f x st).2) ->
  x ∈ l ->
  forall st st', forEach f l st = (Ok tt, st') -> P st'.
Proof.
  intros Hkeep Hx. induction l as [|y l IH]; intros Hin st st' H.
  - inversion Hin.
  - simpl in H. apply bind_inv_Ok in H as ([] & s1 & Hy & H).
    apply elem_of_cons in Hin as [->|Hin].
    + pose proof (Hx st) as HP. rewrite Hy in HP. simpl in HP.
      pose proof (forEach_invariant P f l Hkeep s1 HP) as HP'.
      now rewrite H in HP'.
    + now apply (IH Hin s1).
Qed.

(** *** What [checkKeyword] does *)

Lemma checkType_run (t : string) (st : Ajv) :
  checkType t st
  = (match (if inList t jsonTypes then None
            else Some (Error ("type must be JSONType or JSONType[]: " +:+ t))) with
     | Some e => Throw e
     | None => Ok tt
     end, st).
Proof. unfold checkType. now destruct (inList t jsonTypes). Qed.

Lemma names_checked (l : list string) (st : Ajv) :
  forEach (fun kwd =>
             st <- get ;;
             if default (inherited kwd) (vr_keywords (RULES st) !! kwd)
             then throw (Error ("Keyword " +:+ kwd +:+ " is already defined"))
             else if negb (KEYWORD_NAME kwd)
             then throw (Error ("Keyword " +:+ kwd +:+ " has invalid name"))
             else ret tt) l st
  = (match head (nameErrors (RULES st) l) with Some e => Throw e | None => Ok tt end, st).
Proof.
  apply forEach_checks. intros x. unfold nameError. mstep.
  destruct (default (inherited x) (vr_keywords (RULES st) !! x)); [reflexivity|].
  now destruct (KEYWORD_NAME x).
Qed.

Lemma checkKeyword_state (keyword : OneOrMany string) (def : option KeywordDefinition)
    (st : Ajv) :
  (checkKeyword keyword def st).2 = st.
Proof.
  unfold checkKeyword. unfold bind at 1. rewrite names_checked.
  destruct (head _) as [e|]; [reflexivity|].
  destruct def as [d|]; [|reflexivity].
  assert (Ht : forall t : option (OneOrMany string),
             (match t with
              | Some t => if typeTruthy t then forEach checkType (eachItem t) else ret tt
              | None => ret tt
              end st).2 = st).
  { intros [t|]; [|reflexivity]. destruct (typeTruthy t); [|reflexivity].
    apply forEach_state. intros x s. now rewrite checkType_run. }
  specialize (Ht (def_type d)). unfold bind.
  match type of Ht with
  | (?m st).2 = st => destruct (m st) as [[[]|e] s1]
  end; simpl in Ht; subst s1; [|reflexivity].
  now destruct (def_data d && negb (def_hasCode d || def_hasValidate d)).
Qed.

Lemma checkKeyword_names (keyword : OneOrMany string) (def : option KeywordDefinition)
    (st : Ajv) (e : Exn) :
  head (nameErrors (RULES st) (eachItem keyword)) = Some e ->
  checkKeyword keyword def st = (Throw e, st).
Proof.
  intros He. unfold checkKeyword. unfold bind at 1. rewrite names_checked.
  now rewrite He.
Qed.

(** X1.  When one of the names of a definition is refused by the name check
    ([already defined] or [invalid name]), [addKeyword] throws the error of
    the first refused name and the instance is as it was: none of the names
    is registered, the valid ones before the refused one included. *)
Theorem addKeyword_refused_name (st : Ajv) (d : KeywordDefinition) (e : Exn) :
  head (nameErrors (RULES st) (eachItem (def_keyword d))) = Some e ->
  addKeyword (Def d) None st = (Throw e, st).
Proof.
  intros He. unfold addKeyword, addKeywordWith. mstep. simpl fst. simpl snd.
  apply bind_Throw. now apply checkKeyword_names.
Qed.

(** *** What [addRule] does to the registry *)

Lemma rulesOfType_alter_other (st st' : Ajv) (gi : nat) (f : list Rule -> list Rule)
    (t t' : option string) :
  vr_rules (RULES st')
  = alter (fun g => mkRuleGroup (group_type g) (f (rules g))) gi (vr_rules (RULES st)) ->
  groupIndex t (RULES st) = Some gi ->
  t' <> t ->
  rulesOfType t' st' = rulesOfType t' st.
Proof.
  intros H Hgi Hne. unfold rulesOfType.
  rewrite (groupIndex_alter gi f t' (RULES st) (RULES st') H).
  destruct (groupIndex t' (RULES st)) as [gi'|] eqn:Hgi'; [|reflexivity].
  unfold groupIndex in *.
  destruct (findIndex_Some _ _ _ Hgi) as (g & Hg & Hp & _).
  destruct (findIndex_Some _ _ _ Hgi') as (g' & Hg' & Hp' & _).
  apply bool_decide_eq_true in Hp, Hp'.
  assert (gi <> gi') by (intros ->; congruence).
  unfold groupRules. rewrite H. now rewrite list_lookup_alter_ne.
Qed.

Lemma insert_step (gi : nat) (k : string) (d : KeywordDefinition) (s0 : Ajv) :
  exists (F : list Rule -> list Rule) (s1 : Ajv),
    (match def_before d with
     | Some before =>
         if negb (String.eqb before EmptyString)
         then addBeforeRule gi (mkRule k d) before
         else setGroupRules gi (fun l => l ++ [mkRule k d])%list
     | None => setGroupRules gi (fun l => l ++ [mkRule k d])%list
     end) s0 = (Ok tt, s1)
    /\ vr_rules (RULES s1)
       = alter (fun g => mkRuleGroup (group_type g) (F (rules g))) gi (vr_rules (RULES s0))
    /\ F (groupRules gi s0) = insertRule (mkRule k d) (groupRules gi s0)
    /\ vr_keywords (RULES s1) = vr_keywords (RULES s0)
    /\ vr_all (RULES s1) = vr_all (RULES s0)
    /\ logger s1 = match def_before d with
                   | Some X => if String.eqb X EmptyString then logger s0
                               else logAfterBefore X (groupRules gi s0) (logger s0)
                   | None => logger s0
                   end.
Proof.
  unfold insertRule, afterBefore, logAfterBefore, addBeforeRule, setGroupRules,
    modifyRULES, log. simpl definition.
  destruct (def_before d) as [X|]; cbv beta iota.
  - destruct (String.eqb X EmptyString); cbn [negb]; cbv iota.
    + exists (fun l => l ++ [mkRule k d])%list. eexists. repeat split.
    + mstep. destruct (findIndex _ (groupRules gi s0)) as [i|]; mstep.
      * exists (spliceInsert i (mkRule k d)). eexists. repeat split.
      * exists (fun l => l ++ [mkRule k d])%list. eexists. repeat split.
  - exists (fun l => l ++ [mkRule k d])%list. eexists. repeat split.
Qed.

Lemma tablesGrow_refl (st : Ajv) : tablesGrow st st.
Proof. now split. Qed.

Lemma tablesGrow_trans (st1 st2 st3 : Ajv) :
  tablesGrow st1 st2 -> tablesGrow st2 st3 -> tablesGrow st1 st3.
Proof. intros [A1 K1] [A2 K2]. split; [congruence | auto]. Qed.

Lemma addImpliedKeyword_tables (kwd : string) (st : Ajv) :
  tablesGrow st (addImpliedKeyword kwd st).2.
Proof.
  unfold addImpliedKeyword, addKeywordWith. mstep. simpl fst. simpl snd.
  unfold bind at 1.
  pose proof (checkKeyword_state (One kwd) None st) as Hs.
  destruct (checkKeyword (One kwd) None st) as [[[]|e] s1]; simpl in Hs; subst s1;
    [|apply tablesGrow_refl].
  mstep. simpl. unfold addRuleWith, modifyRULES. mstep.
  destruct (groupIndex None (RULES st)); mstep; simpl; (split; [reflexivity|]); simpl;
    intros k0 Hk0;
    (destruct (decide (kwd = k0)) as [->|Hne];
     [apply lookup_insert_eq | now rewrite lookup_insert_ne]).
Qed.

Lemma implements_tables (d0 : KeywordDefinition) (st : Ajv) :
  tablesGrow st
    (match def_implements d0 with
     | Some kwds => forEach addImpliedKeyword kwds
     | None => ret tt
     end st).2.
Proof.
  destruct (def_implements d0) as [kwds|]; [|apply tablesGrow_refl].
  apply (forEach_invariant (tablesGrow st)); [|apply tablesGrow_refl].
  intros x s Hs. eapply tablesGrow_trans; [exact Hs | apply addImpliedKeyword_tables].
Qed.

Lemma addRule_rules (st : Ajv) (k : string) (t : option string) (d : KeywordDefinition) :
  let st' := (addRule k t (Some d) st).2 in
  rulesOfType t st' = insertRule (mkRule k d) (rulesOfType t st)
  /\ (forall t', t' <> t -> rulesOfType t' st' = rulesOfType t' st)
  /\ registered k d st'
  /\ (forall k0, k0 <> k -> vr_all (RULES st') !! k0 = vr_all (RULES st) !! k0)
  /\ (forall k0, vr_keywords (RULES st) !! k0 = Some true ->
                 vr_keywords (RULES st') !! k0 = Some true)
  /\ logger st' = match def_before d with
                  | Some X => if String.eqb X EmptyString then logger st
                              else logAfterBefore X (rulesOfType t st) (logger st)
                  | None => logger st
                  end.
Proof.
  intros st'. subst st'.
  (* the state in which the rule is inserted: the group exists *)
  assert (Hpre : exists gi s0,
    (addRule k t (Some d) st).2
    = (bind (match def_before d with
             | Some before =>
                 if negb (String.eqb before EmptyString)
                 then addBeforeRule gi (mkRule k d) before
                 else setGroupRules gi (fun l => l ++ [mkRule k d])%list
             | None => setGroupRules gi (fun l => l ++ [mkRule k d])%list
             end)
         (fun _ =>
            bind (modifyRULES (fun r => set_vr_all (<[k := RuleObj (mkRule k d)]> (vr_all r)) r))
              (fun _ => match def_implements d with
                        | Some kwds => forEach addImpliedKeyword kwds
                        | None => ret tt
                        end)) s0).2
    /\ groupIndex t (RULES s0) = Some gi
    /\ (forall t', rulesOfType t' s0 = rulesOfType t' st)
    /\ vr_keywords (RULES s0) = <[k := true]> (vr_keywords (RULES st))
    /\ vr_all (RULES s0) = vr_all (RULES st)
    /\ logger s0 = logger st).
  { unfold addRule, addRuleWith, modifyRULES. mstep.
    destruct (groupIndex t (RULES st)) as [gi|] eqn:Hgi; mstep.
    - eexists gi, _. split; [reflexivity|]. simpl.
      split; [exact Hgi|]. split; [|repeat split].
      now apply rulesOfType_ext.
    - eexists (length (vr_rules (RULES st))), _. split; [reflexivity|]. simpl.
      split; [|split; [|repeat split]].
      + unfold groupIndex in *. simpl. rewrite (findIndex_app_None _ _ _ Hgi). simpl.
        now rewrite bool_decide_eq_true_2.
      + now apply rulesOfType_push with (dataType := t). }
  destruct Hpre as (gi & s0 & -> & Hgi & Hsame & Hkw & Hall & Hlog).
  destruct (insert_step gi k d s0) as (F & s1 & Hstep & Hrules & HF & Hk1 & Ha1 & Hl1).
  rewrite (bind_Ok _ _ _ _ _ Hstep). unfold modifyRULES. mstep.
  set (s2 := set_RULES _ s1).
  assert (Hgr : groupRules gi s0 = rulesOfType t s0).
  { unfold rulesOfType. now rewrite Hgi. }
  assert (H2 : forall t', rulesOfType t' s2 = rulesOfType t' s1).
  { now apply rulesOfType_ext. }
  destruct (implements_kept d s2) as [Hr Hl].
  destruct (implements_tables d s2) as [Ha Hk].
  assert (Hk2 : vr_keywords (RULES s2) = <[k := true]> (vr_keywords (RULES st))).
  { subst s2. simpl. now rewrite Hk1. }
  assert (Ha2 : vr_all (RULES s2) = <[k := RuleObj (mkRule k d)]> (vr_all (RULES st))).
  { subst s2. simpl. now rewrite Ha1, Hall. }
  split; [|split; [|split; [|split; [|split]]]].
  - rewrite Hr, H2, (rulesOfType_alter s0 s1 gi F t Hrules Hgi).
    now rewrite <- Hgr, HF, Hgr, Hsame.
  - intros t' Hne.
    rewrite Hr, H2, (rulesOfType_alter_other s0 s1 gi F t t' Hrules Hgi Hne).
    apply Hsame.
  - split.
    + rewrite Ha, Ha2. apply lookup_insert_eq.
    + apply Hk. rewrite Hk2. apply lookup_insert_eq.
  - intros k0 Hne. rewrite Ha, Ha2. now rewrite lookup_insert_ne.
  - intros k0 Hk0. apply Hk. rewrite Hk2.
    destruct (decide (k = k0)) as [->|Hne];
      [apply lookup_insert_eq | now rewrite lookup_insert_ne].
  - rewrite Hl. subst s2. simpl. rewrite Hl1, Hgr, Hsame, Hlog. reflexivity.
Qed.

(** X2.  A definition without a [before] hint, or whose hint is the empty
    string, is appended to the rules of the group of its data type; the rules
    of every other data type and the log are left as they were, and the
    keyword is registered: [getKeyword] returns the definition. *)
Theorem addRule_without_before (st : Ajv) (k : string) (t : option string)
    (d : KeywordDefinition) :
  def_before d = None \/ def_before d = Some EmptyString ->
  let st' := (addRule k t (Some d) st).2 in
  rulesOfType t st' = (rulesOfType t st ++ [mkRule k d])%list
  /\ (forall t', t' <> t -> rulesOfType t' st' = rulesOfType t' st)
  /\ logger st' = logger st
  /\ getKeyword k st' = (Ok (inl d), st')
  /\ vr_keywords (RULES st') !! k = Some true.
Proof.
  intros Hb st'.
  destruct (addRule_rules st k t d) as (Hr & Hf & [Ha Hk] & _ & _ & Hl).
  fold st' in Hr, Hf, Ha, Hk, Hl. unfold insertRule in Hr. simpl definition in Hr.
  split; [|split; [exact Hf|split; [|split; [|exact Hk]]]].
  - destruct Hb as [Hb|Hb]; rewrite Hb in Hr; exact Hr.
  - destruct Hb as [Hb|Hb]; rewrite Hb in Hl; exact Hl.
  - unfold getKeyword. mstep. now rewrite Ha.
Qed.

(** *** Registering and looking up *)

Lemma keywordMetaschema_storedAs (d d' : KeywordDefinition) (st st1 : Ajv) :
  keywordMetaschema d st = (Ok d', st1) -> storedAs d d'.
Proof.
  unfold keywordMetaschema, storedAs.
  destruct (def_metaSchema d) as [ms|].
  - mstep. intros H. apply bind_inv_Ok in H as (v & s & _ & H).
    injection H as <- _. split; [reflexivity|]. now exists v.
  - intros [= <- _]. split; [now destruct d | reflexivity].
Qed.

Lemma addRule_keeps_registered (k k' : string) (t : option string)
    (d : KeywordDefinition) (st : Ajv) :
  registered k d st -> registered k d (addRule k' t (Some d) st).2.
Proof.
  intros [Ha Hk].
  destruct (addRule_rules st k' t d) as (_ & _ & Hreg & Hall & Hkw & _).
  destruct (decide (k' = k)) as [->|Hne]; [exact Hreg|].
  split; [|now apply Hkw]. rewrite Hall by congruence. exact Ha.
Qed.

(** X3.  After [addKeyword(def)] has returned, every name of the definition
    is in [RULES.keywords] and [getKeyword] returns for it the definition,
    with [validateSchema] assigned when the definition has a meta-schema; a
    second definition of the name is refused.  The definition must have a
    data type to register under: none, one, or a list that is not empty. *)
Theorem addKeyword_then_getKeyword (st st' : Ajv) (d : KeywordDefinition) (k : string) :
  addKeyword (Def d) None st = (Ok tt, st') ->
  k ∈ eachItem (def_keyword d) ->
  defTypes (Some d) <> [] ->
  exists d',
    storedAs d d'
    /\ getKeyword k st' = (Ok (inl d'), st')
    /\ vr_keywords (RULES st') !! k = Some true
    /\ forall d2, def_keyword d2 = One k ->
         addKeyword (Def d2) None st'
         = (Throw (Error ("Keyword " +:+ k +:+ " is already defined")), st').
Proof.
  intros H Hk Ht. unfold addKeyword, addKeywordWith in H. revert H. mstep.
  simpl fst. simpl snd. intros H.
  apply bind_inv_Ok in H as ([] & s1 & Hc & H).
  pose proof (checkKeyword_state (def_keyword d) (Some d) st) as Hs.
  rewrite Hc in Hs. simpl in Hs. subst s1.
  revert H. mstep. intros H.
  apply bind_inv_Ok in H as (d' & s2 & Hm & H).
  pose proof (keywordMetaschema_storedAs _ _ _ _ Hm) as Hst.
  revert H. mstep. intros H.
  assert (Htypes : defTypes (Some d') = defTypes (Some d)).
  { destruct Hst as [-> _]. reflexivity. }
  assert (Hreg : registered k d' st').
  { apply (forEach_established (registered k d')
             (fun kwd => forEach (fun t => addRule kwd t (Some d')) (defTypes (Some d')))
             (eachItem (def_keyword d)) k) with (st := s2); [| |exact Hk|exact H].
    - intros y s Hs. apply forEach_invariant; [|exact Hs].
      intros t s'. apply addRule_keeps_registered.
    - intros s. rewrite Htypes.
      destruct (defTypes (Some d)) as [|t0 ts]; [congruence|]. simpl.
      unfold bind.
      destruct (addRule_rules s k t0 d') as (_ & _ & Hr0 & _).
      destruct (addRule k t0 (Some d') s) as [[[]|e] s']; simpl in *; [|exact Hr0].
      apply forEach_invariant; [|exact Hr0].
      intros t s''. apply addRule_keeps_registered. }
  destruct Hreg as [Ha Hkw].
  exists d'. split; [exact Hst|]. split; [|split; [exact Hkw|]].
  - unfold getKeyword. mstep. now rewrite Ha.
  - intros d2 Hd2. unfold addKeyword, addKeywordWith. mstep. simpl fst. simpl snd.
    apply bind_Throw. apply checkKeyword_names. rewrite Hd2. simpl.
    unfold nameError. now rewrite Hkw.
Qed.

(** X4.  [addKeyword(name)] without a definition, for a name that passes the
    name check, reserves the name: it is in [RULES.keywords] afterwards and
    a second [addKeyword] of it is refused, while [RULES.all], the rules of
    every data type and everything outside [RULES] are left as they were. *)
Theorem addKeyword_name_only (st : Ajv) (k : string) :
  nameError (RULES st) k = None ->
  let st' := (addKeyword (Kwd k) None st).2 in
  (addKeyword (Kwd k) None st).1 = Ok tt
  /\ vr_keywords (RULES st') !! k = Some true
  /\ vr_all (RULES st') = vr_all (RULES st)
  /\ (forall t, rulesOfType t st' = rulesOfType t st)
  /\ set_RULES (RULES st) st' = st
  /\ addKeyword (Kwd k) None st'
     = (Throw (Error ("Keyword " +:+ k +:+ " is already defined")), st').
Proof.
  intros Hn st'.
  assert (Hrun : exists r, addKeyword (Kwd k) None st = (Ok tt, set_RULES r st)
                           /\ vr_keywords r = <[k := true]> (vr_keywords (RULES st))
                           /\ vr_all r = vr_all (RULES st)
                           /\ (forall s, RULES s = r ->
                                 forall t, rulesOfType t s = rulesOfType t st)).
  { unfold addKeyword, addKeywordWith. mstep. simpl fst. simpl snd.
    assert (Hc : checkKeyword (One k) None st = (Ok tt, st)).
    { unfold checkKeyword. unfold bind at 1. rewrite names_checked. simpl.
      now rewrite Hn. }
    rewrite (bind_Ok _ _ _ _ _ Hc). mstep. simpl.
    unfold addRule, addRuleWith, modifyRULES. mstep.
    destruct (groupIndex None (RULES st)) as [gi|] eqn:Hgi; mstep; simpl;
      eexists; (split; [reflexivity|]); simpl; repeat split;
      intros s Hs.
    - apply rulesOfType_ext. now rewrite Hs.
    - apply rulesOfType_push with (dataType := None). now rewrite Hs. }
  destruct Hrun as (r & Hrun & Hk & Ha & Hr). subst st'. rewrite Hrun. simpl.
  split; [reflexivity|]. split; [rewrite Hk; apply lookup_insert_eq|].
  split; [exact Ha|]. split; [now apply Hr|]. split; [now destruct st|].
  unfold addKeyword, addKeywordWith. mstep. simpl fst. simpl snd.
  apply bind_Throw. apply checkKeyword_names. simpl. unfold nameError. simpl.
  rewrite Hk, lookup_insert_eq. reflexivity.
Qed.

(** *** Removal *)

Lemma removeKeyword_rules (st : Ajv) (k : string) (t : option string) :
  rulesOfType t (removeKeyword k st).2 = removeFirst k (rulesOfType t st).
Proof.
  unfold removeKeyword, modifyRULES. mstep. simpl.
  unfold rulesOfType, groupIndex, groupRules. simpl.
  match goal with
  | |- context [ map ?f ?l ] => set (strip := f)
  end.
  assert (Hty : forall g, group_type (strip g) = group_type g).
  { intros g. subst strip. simpl. now destruct (findIndex _ (rules g)). }
  rewrite (findIndex_map _ (fun g => bool_decide (group_type g = t)) strip)
    by (intros g; now rewrite Hty).
  destruct (findIndex _ (vr_rules (RULES st))) as [i|]; [|reflexivity].
  change (map strip (vr_rules (RULES st))) with (strip <$> vr_rules (RULES st)).
  rewrite list_lookup_fmap.
  destruct (vr_rules (RULES st) !! i) as [g|]; simpl; [|reflexivity].
  rewrite <- removeFirst_findIndex. subst strip. cbv beta.
  now destruct (findIndex _ (rules g)).
Qed.

(** X5.  [removeKeyword(k)] returns; afterwards [RULES.keywords] and
    [RULES.all] have no entry of their own for the name, and the entries of
    the other names are untouched; each group has lost the first of its
    rules of the keyword and nothing else, the other rules keeping their
    order.  For a name that is not the name of a member of
    [Object.prototype], [getKeyword(k)] is then [false], and the name can be
    defined again if it matches [KEYWORD_NAME].  For the name of such a
    member the lookups still find the member: [getKeyword(k)] is [true]
    ([undefined] for [__proto__]) and the name check still refuses the name
    as already defined. *)
Theorem removeKeyword_removes_first (st : Ajv) (k : string) :
  let st' := (removeKeyword k st).2 in
  (removeKeyword k st).1 = Ok tt
  /\ vr_keywords (RULES st') !! k = None
  /\ vr_all (RULES st') !! k = None
  /\ (forall k', k' <> k ->
        vr_keywords (RULES st') !! k' = vr_keywords (RULES st) !! k'
        /\ vr_all (RULES st') !! k' = vr_all (RULES st) !! k')
  /\ (forall t, rulesOfType t st' = removeFirst k (rulesOfType t st))
  /\ (forall t,
        List.filter (fun r => negb (String.eqb (rule_keyword r) k)) (rulesOfType t st')
        = List.filter (fun r => negb (String.eqb (rule_keyword r) k)) (rulesOfType t st))
  /\ getKeyword k st'
     = (Ok (inr (if String.eqb k "__proto__" then VUndef else VBool (inherited k))), st')
  /\ nameError (RULES st') k
     = (if inherited k then Some (Error ("Keyword " +:+ k +:+ " is already defined"))
        else if KEYWORD_NAME k then None
        else Some (Error ("Keyword " +:+ k +:+ " has invalid name"))).
Proof.
  intros st'.
  assert (Hrules : forall t, rulesOfType t st' = removeFirst k (rulesOfType t st)).
  { intros t. apply removeKeyword_rules. }
  assert (Hk : vr_keywords (RULES st') = delete k (vr_keywords (RULES st))) by reflexivity.
  assert (Ha : vr_all (RULES st') = delete k (vr_all (RULES st))) by reflexivity.
  split; [reflexivity|].
  split; [rewrite Hk; apply lookup_delete_eq|].
  split; [rewrite Ha; apply lookup_delete_eq|].
  split; [|split; [exact Hrules|split; [|split]]].
  - intros k' Hne. rewrite Hk, Ha. now rewrite !lookup_delete_ne.
  - intros t. rewrite Hrules. apply removeFirst_others.
  - unfold getKeyword. mstep. rewrite Ha, lookup_delete_eq.
    now destruct (String.eqb k "__proto__").
  - unfold nameError. rewrite Hk, lookup_delete_eq. simpl.
    destruct (inherited k); [reflexivity|]. now destruct (KEYWORD_NAME k).
Qed.

Lemma forEach_addRule_rules (k : string) (d : KeywordDefinition)
    (types : list (option string)) :
  NoDup types ->
  forall st t,
    let st' := (forEach (fun t => addRule k t (Some d)) types st).2 in
    (t ∉ types -> rulesOfType t st' = rulesOfType t st)
    /\ (rulesOfType t st' = rulesOfType t st
        \/ rulesOfType t st' = insertRule (mkRule k d) (rulesOfType t st)).
Proof.
  induction 1 as [|t0 types Hnin Hnd IH]; intros st t; simpl.
  - split; [reflexivity | now left].
  - unfold bind.
    destruct (addRule_rules st k t0 d) as (Hr & Hf & _).
    destruct (addRule k t0 (Some d) st) as [[[]|e] s1]; simpl in *.
    + destruct (IH s1 t) as [Hout Hin].
      destruct (decide (t = t0)) as [->|Hne].
      * split; [intros Hn; exfalso; apply Hn; left|].
        right. now rewrite (proj1 (IH s1 t0) Hnin).
      * rewrite <- (Hf t Hne). split; [|exact Hin].
        intros Hn. apply Hout. intros Hin'. apply Hn. now right.
    + destruct (decide (t = t0)) as [->|Hne].
      * split; [intros Hn; exfalso; apply Hn; left | now right].
      * split; [intros _|left]; now apply Hf.
Qed.

(** X6.  Adding a keyword and removing it again restores the rules of every
    data type, whether or not [addKeyword] returned: for a definition with
    one name, no meta-schema and data types that do not repeat, on an
    instance none of whose groups holds a rule of the name,
    [removeKeyword(name)] after [addKeyword(def)] leaves every group as it
    was before the two calls, and [RULES.keywords] and [RULES.all] hold no
    entry for the name. *)
Theorem addKeyword_removeKeyword (st : Ajv) (d : KeywordDefinition) (k : string) :
  def_keyword d = One k ->
  def_metaSchema d = None ->
  NoDup (defTypes (Some d)) ->
  (forall t, hasRule k (rulesOfType t st) = false) ->
  let st1 := (addKeyword (Def d) None st).2 in
  let st2 := (removeKeyword k st1).2 in
  (forall t, rulesOfType t st2 = rulesOfType t st)
  /\ vr_all (RULES st2) !! k = None
  /\ vr_keywords (RULES st2) !! k = None.
Proof.
  intros Hk Hmeta Hnd Hfresh st1 st2.
  assert (Hst1 : exists b : bool,
             st1 = if b then st
                   else (forEach (fun t => addRule k t (Some d))
                           (defTypes (Some d)) st).2).
  { subst st1. unfold addKeyword, addKeywordWith. mstep.
    simpl fst. simpl snd. rewrite Hk. unfold bind at 1.
    pose proof (checkKeyword_state (One k) (Some d) st) as Hs.
    destruct (checkKeyword (One k) (Some d) st) as [[[]|e] s1]; simpl in Hs; subst s1;
      [|now exists true].
    exists false. unfold keywordMetaschema. rewrite Hmeta. mstep.
    cbn [forEach eachItem]. unfold bind.
    unfold defTypes.
    now destruct (forEach (fun t => addRule k t (Some d)) _ st) as [[[]|e] s1]. }
  assert (H1 : forall t, rulesOfType t st1 = rulesOfType t st
                         \/ rulesOfType t st1
                            = insertRule (mkRule k d) (rulesOfType t st)).
  { intros t. destruct Hst1 as [[] ->]; [now left|].
    exact (proj2 (forEach_addRule_rules k d _ Hnd st t)). }
  split; [|split].
  - intros t. subst st2. rewrite removeKeyword_rules.
    destruct (H1 t) as [-> | ->].
    + now apply removeFirst_absent.
    + now apply removeFirst_insertRule.
  - assert (Ha : vr_all (RULES st2) = delete k (vr_all (RULES st1))) by reflexivity.
    rewrite Ha. apply lookup_delete_eq.
  - assert (Hkw : vr_keywords (RULES st2) = delete k (vr_keywords (RULES st1)))
      by reflexivity.
    rewrite Hkw. apply lookup_delete_eq.
Qed.

(** X7.  A definition whose [type] is the empty array registers nothing:
    when its names pass the name check and it has no meta-schema,
    [addKeyword] leaves the instance as it was, so the names are not even
    reserved.  It returns, unless the definition has [$data] and neither
    [code] nor [validate]: then it throws
    [$data keyword must have "code" or "validate" function]. *)
Theorem addKeyword_empty_type_list (st : Ajv) (d : KeywordDefinition) :
  def_type d = Some (Many []) ->
  def_metaSchema d = None ->
  nameErrors (RULES st) (eachItem (def_keyword d)) = [] ->
  addKeyword (Def d) None st
  = (if def_data d && negb (def_hasCode d || def_hasValidate d)
     then Throw (Error ("$data keyword must have " +:+ dquote +:+ "code" +:+ dquote
                        +:+ " or " +:+ dquote +:+ "validate" +:+ dquote +:+ " function"))
     else Ok tt, st).
Proof.
  intros Ht Hmeta Hnames. unfold addKeyword, addKeywordWith. mstep.
  simpl fst. simpl snd.
  destruct (def_data d && negb (def_hasCode d || def_hasValidate d)) eqn:Hdata.
  { apply bind_Throw. unfold checkKeyword. unfold bind at 1.
    rewrite names_checked, Hnames. simpl. rewrite Ht. simpl. mstep.
    now rewrite Hdata. }
  assert (Hc : checkKeyword (def_keyword d) (Some d) st = (Ok tt, st)).
  { unfold checkKeyword. unfold bind at 1. rewrite names_checked, Hnames. simpl.
    rewrite Ht. simpl. mstep. now rewrite Hdata. }
  rewrite (bind_Ok _ _ _ _ _ Hc). unfold keywordMetaschema. rewrite Hmeta. mstep.
  unfold defTypes. rewrite Ht. simpl.
  apply forEach_pure_Ok. intros x _. reflexivity.
Qed.

End Registry.

End KeywordFacts.

(** *** On the instances of [Plain] *)

Module PlainKeywordFacts.
Import Js Ajv Plain AjvFacts KeywordFacts.

(** [minimum] is defined already: neither name is registered. *)
Lemma addKeyword_refused_name_witness :
  let d := mkDefinition (Many ["even"; "minimum"]) (Some (One "number")) true false false
             None None None None in
  addKeyword (Def d) None numberRules
  = (Throw (Error "Keyword minimum is already defined"), numberRules).
Proof.
  intros d. apply (addKeyword_refused_name numberRules d). reflexivity.
Defined.

Lemma addRule_without_before_witness :
  let d := numberKeyword "multipleOf" None in
  rulesOfType (Some "number") (addRule "multipleOf" (Some "number") (Some d) numberRules).2
  = [mkRule "minimum" (numberKeyword "minimum" None);
     mkRule "maximum" (numberKeyword "maximum" None);
     mkRule "multipleOf" d].
Proof.
  intros d.
  exact (proj1 (addRule_without_before numberRules "multipleOf" (Some "number") d
                  (or_introl eq_refl))).
Defined.

Lemma addKeyword_then_getKeyword_witness :
  let d := mkDefinition (Many ["even"; "odd"]) (Some (Many ["number"; "integer"]))
             true false false None None None None in
  let st' := (addKeyword (Def d) None newAjv).2 in
  exists d', storedAs d d'
             /\ getKeyword "odd" st' = (Ok (inl d'), st')
             /\ vr_keywords (RULES st') !! "odd" = Some true.
Proof.
  intros d st'.
  assert (H : addKeyword (Def d) None newAjv = (Ok tt, st')) by (vm_compute; reflexivity).
  assert (Hin : "odd" ∈ eachItem (def_keyword d)) by (right; left).
  assert (Ht : defTypes (Some d) <> []) by discriminate.
  destruct (addKeyword_then_getKeyword newAjv st' d "odd" H Hin Ht)
    as (d' & Hst & Hget & Hkw & _).
  exists d'. split; [exact Hst|]. split; [exact Hget | exact Hkw].
Defined.

Lemma addKeyword_name_only_witness :
  let st' := (addKeyword (Kwd "then") None numberRules).2 in
  (addKeyword (Kwd "then") None numberRules).1 = Ok tt
  /\ vr_keywords (RULES st') !! "then" = Some true
  /\ rulesOfType (Some "number") st' = rulesOfType (Some "number") numberRules.
Proof.
  intros st'.
  destruct (addKeyword_name_only numberRules "then" eq_refl) as (H1 & H2 & _ & H4 & _).
  split; [exact H1|]. split; [exact H2 | exact (H4 (Some "number"))].
Defined.

Lemma addKeyword_removeKeyword_witness :
  let d := numberKeyword "multipleOf" (Some "maximum") in
  let st1 := (addKeyword (Def d) None numberRules).2 in
  rulesOfType (Some "number") st1
  = [mkRule "minimum" (numberKeyword "minimum" None);
     mkRule "multipleOf" d;
     mkRule "maximum" (numberKeyword "maximum" None)]
  /\ rulesOfType (Some "number") (removeKeyword "multipleOf" st1).2
     = [mkRule "minimum" (numberKeyword "minimum" None);
        mkRule "maximum" (numberKeyword "maximum" None)].
Proof.
  intros d st1. split; [vm_compute; reflexivity|].
  assert (Hnd : NoDup (defTypes (Some d))).
  { apply NoDup_cons. split; [apply not_elem_of_nil | apply NoDup_nil_2]. }
  assert (Hfresh : forall t, hasRule "multipleOf" (rulesOfType t numberRules) = false).
  { intros t. unfold rulesOfType, groupIndex. simpl. now case_bool_decide. }
  exact (proj1 (addKeyword_removeKeyword numberRules d "multipleOf" eq_refl eq_refl
                  Hnd Hfresh) (Some "number")).
Defined.

Lemma addKeyword_empty_type_list_witness :
  let d := mkDefinition (One "even") (Some (Many [])) true false false
             None None None None in
  addKeyword (Def d) None newAjv = (Ok tt, newAjv)
  /\ getKeyword "even" newAjv = (Ok (inr (VBool false)), newAjv).
Proof.
  intros d. split; [|reflexivity].
  exact (addKeyword_empty_type_list newAjv d eq_refl eq_refl eq_refl).
Defined.

End PlainKeywordFacts.

(** ** Registration, compilation and removal of schemas *)

Module SchemaFacts.
Import Js Ajv AjvFacts.

Section Registration.
Context `{C : Collaborators}.

(** X8.  A value that is [undefined], a number or a string is no schema
    (its [typeof] is neither [object] nor [boolean]; [null] and arrays are
    objects to [typeof]): [compile] throws
    [schema must be object or boolean] and leaves the instance as it was,
    so nothing is cached or registered.  [addSchema] checks the key first:
    it throws [schema with key or id .. already exists] when [schemas] or
    [refs] holds something truthy under the key, an inherited member of
    [Object.prototype] included, and [schema must be object or boolean]
    otherwise, and leaves the instance as it was in both cases. *)
Theorem compile_rejects_non_schema (s : jsval) (st : Ajv) :
  negb (String.eqb (typeof s) "object") && negb (String.eqb (typeof s) "boolean") = true ->
  (forall m, compile s m st = (Throw (Error "schema must be object or boolean"), st))
  /\ (forall key m vs,
        addSchema s key m vs st
        = (Throw (Error (if entryTruthy (readEntry (schemas st) (schemaKey key s))
                            || entryTruthy (readEntry (refs st) (schemaKey key s))
                         then alreadyExists (schemaKey key s)
                         else "schema must be object or boolean")), st)).
Proof.
  intros Ht.
  assert (Hadd : forall m vs a,
            _addSchema s m vs a st
            = (Throw (Error "schema must be object or boolean"), st)).
  { intros m vs a. unfold _addSchema. mstep. now rewrite Ht. }
  split.
  - intros m. unfold compile. now apply bind_Throw.
  - intros key m vs. unfold addSchema. mstep.
    assert (Hone : forall v, addSchemaWith s key m v = addSchemaOne s key m v).
    { intros v. destruct s; try reflexivity. discriminate Ht. }
    rewrite Hone. unfold addSchemaOne.
    assert (Hid : readId s st = (Ok VUndef, st)).
    { unfold readId. destruct s; try reflexivity; discriminate Ht. }
    assert (Hm : member s "$id" = VUndef).
    { destruct s; try reflexivity. discriminate Ht. }
    rewrite (bind_Ok _ _ _ _ _ Hid).
    unfold schemaKey. rewrite Hm.
    set (K := normalizeId (keyOrId key VUndef)).
    destruct (entryTruthy (readEntry (schemas st) K)
              || entryTruthy (readEntry (refs st) K)) eqn:Hfree.
    + apply bind_Throw. unfold _checkUnique. mstep. now rewrite Hfree.
    + assert (Hu : _checkUnique K st = (Ok tt, st)).
      { unfold _checkUnique. mstep. now rewrite Hfree. }
      rewrite (bind_Ok _ _ _ _ _ Hu). now apply bind_Throw.
Qed.

(** The schema environment [_addSchema] returns is the one the cache held
    for the schema, or a new one put together from the arguments. *)
Lemma addSchema_result (s : jsval) (m : bool) (vs : option ValidateSchemaOpt)
    (a : option bool) (st st1 : Ajv) (sch : SchemaEnv) :
  _addSchema s m vs a st = (Ok sch, st1) ->
  _cache st !! serialize s = Some sch
  \/ (_cache st !! serialize s = None
      /\ schema sch = s /\ meta sch = m /\ cacheKey sch = serialize s
      /\ baseId sch = normalizeId (schemaId s)).
Proof.
  unfold _addSchema, cache_get. mstep.
  destruct (negb (typeof s =? "object") && negb (typeof s =? "boolean"));
    [discriminate|].
  mstep. destruct (_cache st !! serialize s) as [s0|] eqn:Hc.
  - intros [= <- <-]. now left.
  - intros H. right. split; [reflexivity|].
    apply bind_inv_Ok in H as (lr & sta & _ & H).
    unfold newSchemaEnv in H. revert H. mstep. intros H.
    apply bind_inv_Ok in H as ([] & stb & _ & H).
    apply bind_inv_Ok in H as ([] & stc & _ & H).
    apply bind_inv_Ok in H as ([] & std & _ & H).
    injection H as <- _. repeat split.
Qed.

(** X9.  After [addSchema(s, key)] has returned for a schema that is not an
    array, [schemas] holds a schema environment under the normalised
    [key || s.$id], and [getSchEnv] finds it under every key that normalises
    to that one.  The environment is the one the cache held for [s] before
    the call, if any, and otherwise a new one for [s], with the [meta] flag
    of the call. *)
Theorem addSchema_registers (s : jsval) (key : option string) (m : bool)
    (vs : option ValidateSchemaOpt) (st st' : Ajv) :
  isArray s = false ->
  addSchema s key m vs st = (Ok tt, st') ->
  exists sch,
    schemas st' !! schemaKey key s = Some (Env sch)
    /\ (forall k, normalizeId (Some k) = schemaKey key s ->
          getSchEnv k st' = (Ok (Some (Env sch)), st'))
    /\ (_cache st !! serialize s = Some sch
        \/ (_cache st !! serialize s = None /\ schema sch = s /\ meta sch = m)).
Proof.
  intros Harr. unfold addSchema. mstep.
  assert (Hone : forall v, addSchemaWith s key m v = addSchemaOne s key m v).
  { intros v. destruct s; try reflexivity. discriminate Harr. }
  rewrite Hone. unfold addSchemaOne. fold (readId s). intros H.
  apply bind_inv_Ok in H as (id & s1 & Hid & H).
  destruct (readId_Ok _ _ _ _ Hid st) as (_ & -> & ->).
  fold (schemaKey key s) in H.
  apply bind_inv_Ok in H as ([] & s2 & Hu & H).
  apply checkUnique_Ok in Hu as ->.
  apply bind_inv_Ok in H as (sch & s3 & Ha & H).
  unfold modify in H. injection H as <-.
  exists sch. split; [simpl; apply lookup_insert_eq|]. split.
  - intros k Hk. unfold getSchEnv. mstep. rewrite Hk. simpl.
    now rewrite (readEntry_own _ _ (Env sch)) by apply lookup_insert_eq.
  - destruct (addSchema_result _ _ _ _ _ _ _ Ha) as [Hc|(Hc & Hs & Hm & _)];
      [now left | right; now repeat split].
Qed.

(** X10.  While a meta-schema is compiled [this.opts] is [this._metaOpts],
    and afterwards it is what it was before, also when the compiler throws:
    [_compileSchemaEnv] on a meta-schema environment never leaves the
    instance with the options of meta-schemas. *)
Theorem compileMetaSchema_restores_opts (sch : SchemaEnv) (st : Ajv) :
  (_compileMetaSchema sch st).1 = (compileSchema sch (set_opts (_metaOpts st) st)).1
  /\ opts (_compileMetaSchema sch st).2 = opts st
  /\ (meta sch = true -> opts (_compileSchemaEnv sch st).2 = opts st).
Proof.
  assert (H1 : opts (_compileMetaSchema sch st).2 = opts st).
  { unfold _compileMetaSchema, finally. mstep.
    now destruct (compileSchema sch (set_opts (_metaOpts st) st)). }
  split; [|split; [exact H1|]].
  - unfold _compileMetaSchema, finally. mstep.
    now destruct (compileSchema sch (set_opts (_metaOpts st) st)).
  - intros Hm. unfold _compileSchemaEnv. rewrite Hm. unfold bind at 1.
    destruct (_compileMetaSchema sch st) as [[[]|e] s1]; simpl in *; [|exact H1].
    unfold readValidate. mstep. now destruct (validateOf s1 !! envId sch).
Qed.

End Registration.

Section Validation.
Context `{C : Collaborators}.

(** Running a validator or resolving a reference removes or replaces no
    cache line. *)
Hypothesis validate_keeps : forall s d, keepsCache (validate s d).
Hypothesis getSchema_keeps : forall k, keepsCache (getSchema k).

(** X11.  [_addSchema] puts the new environment in the cache before the schema
    is validated against its meta-schema, and nothing takes it out: when
    [_addSchema] returns an environment with validation switched off, then
    with validation on, whether it returns or throws, the cache holds that
    environment for the schema afterwards, and every later [_addSchema] of
    the schema returns it at once, without validating. *)
Theorem addSchema_cached_before_validation (s : jsval) (m : bool) (addS : option bool)
    (st st0 : Ajv) (sch : SchemaEnv) :
  _addSchema s m (Some VSfalse) addS st = (Ok sch, st0) ->
  forall vs,
    let r := _addSchema s m vs addS st in
    _cache r.2 !! serialize s = Some sch
    /\ forall m' vs' addS', _addSchema s m' vs' addS' r.2 = (Ok sch, r.2).
Proof.
  intros H0 vs r.
  pose proof (addSchema_typeof _ _ _ _ _ _ _ H0) as Ht.
  pose proof (addSchema_cached validate_keeps getSchema_keeps _ _ _ _ _ _ _ H0) as Hc0.
  assert (Hc : _cache r.2 !! serialize s = Some sch).
  { subst r. revert H0. unfold _addSchema, cache_get. mstep. rewrite Ht. mstep.
    destruct (_cache st !! serialize s) as [s0|] eqn:Hhit.
    - intros [= <- <-]. exact Hhit.
    - intros H.
      apply bind_inv_Ok in H as (lr & sa & Hrefs & H).
      rewrite (bind_Ok _ _ _ _ _ Hrefs).
      unfold newSchemaEnv, cache_put in *. revert H. mstep. intros H.
      apply bind_inv_Ok in H as ([] & sd & HA & H).
      rewrite (bind_Ok _ _ _ _ _ HA).
      revert H. simpl vsTruthy. cbv iota. mstep. intros [= <- <-].
      match goal with
      | |- _cache (?m sd).2 !! _ = _ =>
          assert (Hk : keepsCache m);
          [ apply keepsCache_bind;
            [ apply keepsCache_if;
              [ apply keepsCache_bind;
                [ now apply keepsCache_validateSchema | intros; apply keepsCache_ret ]
              | apply keepsCache_ret ]
            | intros; apply keepsCache_ret ]
          | exact (Hk sd _ _ Hc0) ]
      end. }
  split; [exact Hc|]. intros m' vs' addS'. now apply addSchema_hit.
Qed.

End Validation.

Section Removal.
Context `{C : Collaborators}.

(** X12.  [removeSchema(key)] for a string returns; the entries of
    [schemas] and of [refs] under the key itself are deleted and no other
    entry is touched, so that [_checkUnique(key)] passes afterwards, unless
    the key is the name of a member of [Object.prototype], which the tables
    still give: then it throws [already exists].  The one cache line deleted
    is that of the schema environment that [getSchEnv(key)] found, under
    the normalised key (when it found [Object.prototype] itself, an object
    without [cacheKey], the line under [undefined]). *)
Theorem removeSchema_by_key (st : Ajv) (k : string) :
  let st' := (removeSchema (RmValue (VStr k)) st).2 in
  (removeSchema (RmValue (VStr k)) st).1 = Ok tt
  /\ schemas st' = delete k (schemas st)
  /\ refs st' = delete k (refs st)
  /\ _cache st' = match foundEnv st k with
                  | Some (Env e) => delete (cacheKey e) (_cache st)
                  | Some (Member name) =>
                      if String.eqb name "__proto__" then delete "undefined" (_cache st)
                      else _cache st
                  | _ => _cache st
                  end
  /\ _checkUnique k st'
     = (if inherited k then Throw (Error (alreadyExists k)) else Ok tt, st').
Proof.
  intros st'. subst st'. unfold removeSchema, getSchEnv, deleteKey, cache_del.
  mstep. fold (foundEnv st k).
  assert (Hfree : forall s : Ajv,
             schemas s = delete k (schemas st) -> refs s = delete k (refs st) ->
             _checkUnique k s
             = (if inherited k then Throw (Error (alreadyExists k)) else Ok tt, s)).
  { intros s Hs Hr. unfold _checkUnique, readEntry. mstep.
    rewrite Hs, Hr, !lookup_delete_eq. now destruct (inherited k). }
  destruct (foundEnv st k) as [[e|a|n]|]; mstep; simpl;
    try (destruct (String.eqb n "__proto__"); mstep; simpl);
    repeat split; now apply Hfree.
Qed.

(** X13.  [removeSchema(schema)] for a schema object deletes the cache line of
    the schema, whatever else happens.  When [$id] is a string that is not
    empty, the call returns and has deleted the entries of [schemas] and of
    [refs] under the normalised [$id], and only those; when [$id] is falsy
    (absent, or the empty string) the call returns and both tables are as
    they were, so a schema that was added without [$id] keeps its entries. *)
Theorem removeSchema_by_object (st : Ajv) (ps : list (string * jsval)) :
  let r := removeSchema (RmValue (VObj ps)) st in
  _cache r.2 = delete (serialize (VObj ps)) (_cache st)
  /\ (forall id, getProp ps "$id" = VStr id -> id <> EmptyString ->
        r.1 = Ok tt
        /\ schemas r.2 = delete (normalizeId (Some id)) (schemas st)
        /\ refs r.2 = delete (normalizeId (Some id)) (refs st))
  /\ (truthy (getProp ps "$id") = false ->
        r.1 = Ok tt /\ schemas r.2 = schemas st /\ refs r.2 = refs st).
Proof.
  intros r. subst r. unfold removeSchema, deleteKey, cache_del. mstep.
  unfold member. split; [|split].
  - destruct (truthy (getProp ps "$id")); [|reflexivity].
    destruct (getProp ps "$id"); mstep; reflexivity.
  - intros id Hid Hne. rewrite Hid. cbn [truthy].
    apply String.eqb_neq in Hne. rewrite Hne. cbn [negb]. cbv iota. mstep.
    repeat split.
  - intros Hf. rewrite Hf. repeat split.
Qed.

(** X14.  A bulk removal without a pattern, or with a pattern without the
    g and y flags, acts on the matching keys only, and takes from the cache
    exactly what it removes: an entry whose key the pattern does not match
    is left as it is; a matching alias (an entry that is a string) is
    deleted; with a pattern, a cache line goes exactly when it is the line
    of a schema environment that is removed from [schemas] or from [refs],
    so the lines of the meta-schemas and of the schemas that do not match
    stay; without an argument the whole cache is cleared, the lines of the
    meta-schemas that stay registered included. *)
Theorem removeSchema_bulk_exact (st : Ajv) (regex : option RegExp) :
  statelessArg regex ->
  let st' := (removeSchema (bulkArg regex) st).2 in
  (forall k, matchesKey regex k = false ->
     schemas st' !! k = schemas st !! k /\ refs st' !! k = refs st !! k)
  /\ (forall k a, matchesKey regex k = true ->
        (schemas st !! k = Some (Alias a) -> schemas st' !! k = None)
        /\ (refs st !! k = Some (Alias a) -> refs st' !! k = None))
  /\ match regex with
     | None => _cache st' = ∅
     | Some _ =>
         forall c,
           (removable regex (schemas st) c \/ removable regex (refs st) c ->
            _cache st' !! c = None)
           /\ (~ removable regex (schemas st) c -> ~ removable regex (refs st) c ->
               _cache st' !! c = _cache st !! c)
     end.
Proof.
  intros Hst.
  destruct (removeSchema_bulk_run st regex) as (_ & Hs & Hr & Hc).
  cbv zeta in *.
  set (r1 := _removeAllSchemas (schemas st) regex (_cache st) (firstIndex regex)) in *.
  set (li := match regex with Some _ => rm_lastIndex r1 | None => 0 end) in *.
  set (r2 := _removeAllSchemas (refs st) regex (rm_cache r1) li) in *.
  destruct (removeAllSchemas_spec (schemas st) regex (_cache st) (firstIndex regex) Hst)
    as (_ & S1 & S2 & S3). fold r1 in S1, S2, S3.
  destruct (removeAllSchemas_spec (refs st) regex (rm_cache r1) li Hst)
    as (_ & R1 & R2 & R3). fold r2 in R1, R2, R3.
  destruct (removeAllSchemas_keeps (refs st) regex (rm_cache r1) li) as (_ & _ & L3).
  fold r2 in L3.
  rewrite Hs, Hr, Hc. split; [|split].
  - intros k Hk. rewrite S1, R1, Hk. now rewrite !afterRemoval_false.
  - intros k a Hk. rewrite S1, R1, Hk. split; intros ->; reflexivity.
  - destruct regex as [r|]; [|reflexivity]. intros c. split.
    + intros [H|H]; [|now apply R2].
      destruct (L3 c) as [H'|H']; [exact H'|]. rewrite H'. now apply S2.
    + intros Hn1 Hn2. rewrite (R3 c Hn2). now apply S3.
Qed.

End Removal.

Section Keys.
Context `{C : Collaborators}.

(** What a successful [addSchema] of a schema that is not an array did. *)
Lemma addSchema_inv (s : jsval) (key : option string) (m : bool)
    (vs : option ValidateSchemaOpt) (st st' : Ajv) :
  isArray s = false ->
  addSchema s key m vs st = (Ok tt, st') ->
  exists sch s3 vs',
    _addSchema s m (Some vs') (Some true) st = (Ok sch, s3)
    /\ st' = set_schemas (<[schemaKey key s := Env sch]> (schemas s3)) s3.
Proof.
  intros Harr. unfold addSchema. mstep.
  assert (Hone : forall v, addSchemaWith s key m v = addSchemaOne s key m v).
  { intros v. destruct s; try reflexivity. discriminate Harr. }
  rewrite Hone. unfold addSchemaOne. fold (readId s). intros H.
  apply bind_inv_Ok in H as (id & s1 & Hid & H).
  destruct (readId_Ok _ _ _ _ Hid st) as (_ & -> & ->).
  fold (schemaKey key s) in H.
  apply bind_inv_Ok in H as ([] & s2 & Hu & H).
  apply checkUnique_Ok in Hu as ->.
  apply bind_inv_Ok in H as (sch & s3 & Ha & H).
  unfold modify in H. injection H as <-.
  now exists sch, s3, (default (opt_validateSchema (opts st)) vs).
Qed.

(** X22.  Keys are unique across schemas: once [addSchema(s1, key1)] has
    returned, an [addSchema] of any schema that is not an array and whose
    [$id] is absent or a string, under a key and [$id] that normalise to the
    key of the first, throws [schema with key or id "<key>" already exists]
    and changes nothing. *)
Theorem addSchema_key_taken (s1 s2 : jsval) (k1 k2 : option string) (m1 m2 : bool)
    (vs1 vs2 : option ValidateSchemaOpt) (st st1 : Ajv) :
  isArray s1 = false ->
  addSchema s1 k1 m1 vs1 st = (Ok tt, st1) ->
  isArray s2 = false ->
  s2 <> VNull ->
  typeof (member s2 "$id") = "undefined" \/ typeof (member s2 "$id") = "string" ->
  schemaKey k2 s2 = schemaKey k1 s1 ->
  addSchema s2 k2 m2 vs2 st1
  = (Throw (Error (alreadyExists (schemaKey k1 s1))), st1).
Proof.
  intros Harr1 H1 Harr2 Hnull Hid Hkey.
  destruct (addSchema_inv _ _ _ _ _ _ Harr1 H1) as (sch & s3 & vs' & _ & ->).
  unfold addSchema. mstep.
  assert (Hone : forall v, addSchemaWith s2 k2 m2 v = addSchemaOne s2 k2 m2 v).
  { intros v. destruct s2; try reflexivity. discriminate Harr2. }
  rewrite Hone. unfold addSchemaOne.
  assert (Hread : forall st', readId s2 st' = (Ok (member s2 "$id"), st')).
  { intros st'. unfold readId.
    destruct s2 as [| |b|n|x|xs|ps]; try reflexivity; [congruence|].
    simpl in *. destruct Hid as [-> | ->]; reflexivity. }
  rewrite (bind_Ok _ _ _ _ _ (Hread _)). fold (schemaKey k2 s2). rewrite Hkey.
  apply bind_Throw. apply checkUnique_taken. simpl.
  now rewrite (readEntry_own _ _ (Env sch)) by apply lookup_insert_eq.
Qed.

(** X23.  What a bulk removal does to a schema that has just been added, for
    a schema the cache did not hold.  Whatever the argument, [undefined] or
    a [RegExp], the entry of [schemas] stays in place when the schema was
    added as a meta-schema ([addMetaSchema]).  Without a pattern, and with a
    pattern without the g and y flags, the entry of a schema that is no
    meta-schema stays when its key does not match and is deleted when it
    does. *)
Theorem added_schema_after_bulk_removal (s : jsval) (key : option string) (m : bool)
    (vs : option ValidateSchemaOpt) (st st1 : Ajv) (regex : option RegExp) :
  isArray s = false ->
  _cache st !! serialize s = None ->
  addSchema s key m vs st = (Ok tt, st1) ->
  let K := schemaKey key s in
  let st2 := (removeSchema (bulkArg regex) st1).2 in
  exists sch,
    schemas st1 !! K = Some (Env sch)
    /\ schema sch = s
    /\ meta sch = m
    /\ (m = true -> schemas st2 !! K = Some (Env sch))
    /\ (statelessArg regex ->
        schemas st2 !! K
        = if m || negb (matchesKey regex K) then Some (Env sch) else None).
Proof.
  intros Harr Hmiss H K st2.
  destruct (addSchema_inv _ _ _ _ _ _ Harr H) as (sch & s3 & vs' & Ha & Hst1).
  destruct (addSchema_result _ _ _ _ _ _ _ Ha) as [Hc|(_ & Hs & Hm & _)]; [congruence|].
  assert (H1 : schemas st1 !! K = Some (Env sch)).
  { rewrite Hst1. simpl. apply lookup_insert_eq. }
  exists sch. split; [exact H1|]. split; [exact Hs|]. split; [exact Hm|].
  destruct (removeSchema_bulk_run st1 regex) as (_ & Hs2 & _). fold st2 in Hs2.
  rewrite Hs2. split.
  - intros ->.
    destruct (removeAllSchemas_keeps (schemas st1) regex (_cache st1) (firstIndex regex))
      as (K1 & _). now apply K1.
  - intros Hst.
    destruct (removeAllSchemas_spec (schemas st1) regex (_cache st1) (firstIndex regex)
                Hst) as (_ & S1 & _).
    rewrite S1, H1. simpl. rewrite Hm.
    destruct m, (matchesKey regex K); reflexivity.
Qed.

End Keys.

End SchemaFacts.

(** ** Lookup by key and validation *)

Module LookupFacts.
Import Js Ajv AjvFacts Lookup.

Section Composition.
Context `{C : Collaborators}.
Variable resolveSchema : string -> M (option SchemaEnv).
Variable callValidator : ValidateFunction -> jsval -> M (ValidateResult * ErrorsField).
Variable isAsync : ValidateFunction -> bool.

(** Compiling, resolving and running a validator remove or replace no
    cache line, and running a validator takes no compiled function off a
    schema environment. *)
Hypothesis compileSchema_keeps : forall sch, keepsCache (compileSchema sch).
Hypothesis validate_keeps : forall s d, keepsCache (Ajv.validate s d).
Hypothesis getSchema_keeps : forall k, keepsCache (Ajv.getSchema k).

(** Once an environment is cached for a schema and has its compiled
    function, [compile] returns that function and changes nothing. *)
Lemma compile_cached (s : jsval) (m : bool) (st : Ajv) (sch : SchemaEnv)
    (v : ValidateFunction) :
  negb (typeof s =? "object") && negb (typeof s =? "boolean") = false ->
  _cache st !! serialize s = Some sch ->
  validateOf st !! envId sch = Some v ->
  compile s m st = (Ok v, st).
Proof.
  intros Ht Hc Hv. unfold compile.
  rewrite (bind_Ok _ _ _ _ _ (addSchema_hit s m None None st sch Ht Hc)).
  unfold readValidate. mstep. now rewrite Hv.
Qed.

(** [sch.validate || this._compileSchemaEnv(sch)] leaves the function it
    returns on the environment and keeps the cache. *)
Lemma validateOrCompile_result (sch : SchemaEnv) (st st1 : Ajv) (v : ValidateFunction) :
  validateOrCompile sch st = (Ok v, st1) ->
  validateOf st1 !! envId sch = Some v
  /\ forall k e, _cache st !! k = Some e -> _cache st1 !! k = Some e.
Proof.
  unfold validateOrCompile, readValidate. mstep.
  destruct (validateOf st !! envId sch) as [f|] eqn:Hv.
  - intros [= <- <-]. now split.
  - unfold _compileSchemaEnv. intros H.
    apply bind_inv_Ok in H as ([] & s2 & Hcomp & H).
    unfold readValidate in H. revert H. mstep.
    destruct (validateOf s2 !! envId sch) as [f|] eqn:Hv2; [|discriminate].
    intros [= <- <-]. split; [exact Hv2|].
    intros k e Hk.
    pose proof (keepsCache_compileSchemaEnv compileSchema_keeps sch st _ _ Hk) as H.
    now rewrite Hcomp in H.
Qed.

(** X15.  A schema added under a key is found by [getSchema(key)] without the
    resolver and without following an alias, and what [getSchema(key)]
    returns is the function that [compile] returns for the schema: after
    [addSchema(s, key)], [getSchema(key)] is
    [sch.validate || _compileSchemaEnv(sch)] on the environment registered
    under the key, and once that has returned a function, [compile(s)]
    returns the same function and changes nothing. *)
Theorem getSchema_after_addSchema (s : jsval) (k : string) (m : bool)
    (vs : option ValidateSchemaOpt) (st st1 : Ajv) :
  isArray s = false ->
  k <> EmptyString ->
  addSchema s (Some k) m vs st = (Ok tt, st1) ->
  exists sch,
    schemas st1 !! normalizeId (Some k) = Some (Env sch)
    /\ (forall fuel,
          Lookup.getSchema resolveSchema (S fuel) k st1
          = (f <- validateOrCompile sch ;; ret (Done (Some f))) st1)
    /\ (forall v st2 m',
          validateOrCompile sch st1 = (Ok v, st2) ->
          compile s m' st2 = (Ok v, st2)).
Proof.
  intros Harr Hk. unfold addSchema. mstep.
  assert (Hone : forall v, addSchemaWith s (Some k) m v = addSchemaOne s (Some k) m v).
  { intros v. destruct s; try reflexivity. discriminate Harr. }
  rewrite Hone. unfold addSchemaOne. fold (readId s). intros H.
  apply bind_inv_Ok in H as (id & s1 & Hid & H).
  destruct (readId_Ok _ _ _ _ Hid st) as (_ & -> & ->).
  assert (Hkey : keyOrId (Some k) (member s "$id") = Some k).
  { unfold keyOrId. apply String.eqb_neq in Hk. now rewrite Hk. }
  rewrite Hkey in H.
  apply bind_inv_Ok in H as ([] & s2 & Hu & H).
  apply checkUnique_Ok in Hu as ->.
  apply bind_inv_Ok in H as (sch & s3 & Ha & H).
  unfold modify in H. injection H as <-.
  pose proof (addSchema_cached validate_keeps getSchema_keeps _ _ _ _ _ _ _ Ha) as Hc.
  pose proof (addSchema_typeof _ _ _ _ _ _ _ Ha) as Ht.
  exists sch. split; [simpl; apply lookup_insert_eq|]. split.
  - intros fuel. unfold Lookup.getSchema. cbn [followAliases]. unfold getSchEnv.
    mstep. simpl schemas.
    rewrite (readEntry_own _ _ (Env sch)) by apply lookup_insert_eq.
    simpl entryTruthy. cbv iota. mstep. reflexivity.
  - intros v st2 m' Hv.
    destruct (validateOrCompile_result _ _ _ _ Hv) as [Hv2 Hkeep].
    apply (compile_cached s m' st2 sch v Ht); [|exact Hv2].
    apply Hkeep. exact Hc.
Qed.

Hypothesis call_keeps_cache : forall v d, keepsCache (callValidator v d).
Hypothesis call_keeps_validators : forall v d, keepsValidators (callValidator v d).

(** X16.  [validate(schema, data)] compiles the schema at most once: after it
    has returned for a schema that is not a string, [compile(schema)]
    returns, without changing the instance, the function that [validate]
    ran, and a second [validate(schema, data')] does nothing but run that
    function. *)
Theorem validate_compiles_once (s d1 d2 : jsval) (fuel : nat) (st st1 : Ajv)
    (r1 : ValidateResult) :
  typeof s <> "string" ->
  Lookup.validate resolveSchema callValidator isAsync fuel s d1 st = (Ok (Done r1), st1) ->
  exists v,
    compile s false st1 = (Ok v, st1)
    /\ Lookup.validate resolveSchema callValidator isAsync fuel s d2 st1
       = (valid <- runValidator callValidator isAsync v d2 ;; ret (Done valid)) st1.
Proof.
  intros Hs.
  assert (Hbody : forall d,
            Lookup.validate resolveSchema callValidator isAsync fuel s d
            = (v <- (sch <- _addSchema s false None None ;;
                     f <- validateOrCompile sch ;; ret (Done f)) ;;
               match v with
               | OutOfFuel => ret OutOfFuel
               | Done f => valid <- runValidator callValidator isAsync f d ;;
                           ret (Done valid)
               end)).
  { intros d. unfold Lookup.validate. destruct s; try reflexivity. now elim Hs. }
  rewrite !Hbody. intros H.
  apply bind_inv_Ok in H as (lv & sa & H & Hrun).
  apply bind_inv_Ok in H as (sch & sb & Hadd & H).
  apply bind_inv_Ok in H as (v & sc & Hv & H).
  injection H as <- <-.
  apply bind_inv_Ok in Hrun as (valid & sd & Hrun & H).
  injection H as _ <-.
  pose proof (addSchema_cached validate_keeps getSchema_keeps _ _ _ _ _ _ _ Hadd) as Hc.
  pose proof (addSchema_typeof _ _ _ _ _ _ _ Hadd) as Ht.
  destruct (validateOrCompile_result _ _ _ _ Hv) as [Hv2 Hkeep].
  apply Hkeep in Hc.
  (* running the validator keeps the cache line and the compiled function *)
  assert (Hfin : _cache sd !! serialize s = Some sch
                 /\ validateOf sd !! envId sch = Some v).
  { unfold runValidator in Hrun.
    apply bind_inv_Ok in Hrun as (r & se & Hcall & H).
    pose proof (call_keeps_cache v d1 sc _ _ Hc) as Hc'.
    pose proof (call_keeps_validators v d1 sc _ _ Hv2) as Hv'.
    rewrite Hcall in Hc', Hv'. simpl in Hc', Hv'.
    destruct (negb (isAsync v)); revert H; mstep; intros [= _ <-]; now split. }
  destruct Hfin as [Hc' Hv'].
  exists v. split; [now apply (compile_cached s false sd sch v)|].
  rewrite (bind_Ok _ _ sd sd (Done v)); [reflexivity|].
  rewrite (bind_Ok _ _ _ _ _ (addSchema_hit s false None None sd sch Ht Hc')).
  unfold validateOrCompile, readValidate. mstep. now rewrite Hv'.
Qed.

End Composition.

Section Keys.
Context `{C : Collaborators}.
Variable resolveSchema : string -> M (option SchemaEnv).
Variable callValidator : ValidateFunction -> jsval -> M (ValidateResult * ErrorsField).
Variable isAsync : ValidateFunction -> bool.

Lemma getSchEnv_found (k : string) (st : Ajv) :
  getSchEnv k st = (Ok (foundEnv st k), st).
Proof. reflexivity. Qed.

Lemma followAliases_state (fuel : nat) :
  forall k st, (followAliases fuel k st).2 = st.
Proof.
  induction fuel as [|fuel IH]; intros k st; [reflexivity|].
  cbn [followAliases]. rewrite (bind_Ok _ _ _ _ _ (getSchEnv_found k st)).
  destruct (foundEnv st k) as [[e|a|n]|];
    [reflexivity | apply IH | reflexivity | reflexivity].
Qed.

Lemma followAliases_more_fuel (fuel : nat) :
  forall fuel' k st x,
    fuel <= fuel' ->
    followAliases fuel k st = (Ok (Done x), st) ->
    followAliases fuel' k st = (Ok (Done x), st).
Proof.
  induction fuel as [|fuel IH]; intros fuel' k st x Hle; [discriminate|].
  destruct fuel' as [|fuel']; [lia|].
  cbn [followAliases]. rewrite !(bind_Ok _ _ _ _ _ (getSchEnv_found k st)).
  destruct (foundEnv st k) as [[e|a|n]|]; trivial.
  apply IH. lia.
Qed.

(** X24.  [getSchema] on a key that names an alias returns what it returns on
    the target of the alias, and the result does not depend on how many
    iterations the loop is allowed once it has ended.  On a key under which
    the tables give nothing, neither an entry nor a member of
    [Object.prototype], the resolver is asked: when it finds nothing
    [getSchema] returns [undefined], and [validate(key, data)] then throws
    [no schema with key or ref "<key>"]; when it finds an environment, that
    is recorded in [refs] under the key before it is compiled.  On a key
    under which the tables give a member of [Object.prototype] the resolver
    is not asked: the member is taken for a schema environment and handed
    to the compiler. *)
Theorem getSchema_aliases_and_unknown_keys (k : string) (st : Ajv) :
  (forall k' fuel,
     foundEnv st k = Some (Alias k') ->
     Lookup.getSchema resolveSchema (S fuel) k st
     = Lookup.getSchema resolveSchema fuel k' st)
  /\ (forall fuel fuel' r st1,
        fuel <= fuel' ->
        Lookup.getSchema resolveSchema fuel k st = (Ok (Done r), st1) ->
        Lookup.getSchema resolveSchema fuel' k st = (Ok (Done r), st1))
  /\ (forall fuel st1 d,
        foundEnv st k = None ->
        resolveSchema k st = (Ok None, st1) ->
        Lookup.getSchema resolveSchema (S fuel) k st = (Ok (Done None), st1)
        /\ Lookup.validate resolveSchema callValidator isAsync (S fuel) (VStr k) d st
           = (Throw (Error (noSchema k)), st1))
  /\ (forall fuel st1 e,
        foundEnv st k = None ->
        resolveSchema k st = (Ok (Some e), st1) ->
        Lookup.getSchema resolveSchema (S fuel) k st
        = (f <- validateOrCompile e ;; ret (Done (Some f)))
            (set_refs (<[k := Env e]> (refs st1)) st1))
  /\ (forall fuel name,
        foundEnv st k = Some (Member name) ->
        Lookup.getSchema resolveSchema (S fuel) k st
        = (f <- compileMember name ;; ret (Done (Some f))) st).
Proof.
  split; [|split; [|split; [|split]]].
  - intros k' fuel Hf. unfold Lookup.getSchema. cbn [followAliases].
    rewrite (bind_bind (getSchEnv k)).
    rewrite (bind_Ok _ _ _ _ _ (getSchEnv_found k st)). now rewrite Hf.
  - intros fuel fuel' r st1 Hle. unfold Lookup.getSchema. intros H.
    pose proof (followAliases_state fuel k st) as Hs.
    destruct (followAliases fuel k st) as [[[|x]|e] s1] eqn:Hfa; simpl in Hs; subst s1.
    + rewrite (bind_Ok _ _ _ _ _ Hfa) in H. discriminate H.
    + rewrite (bind_Ok _ _ _ _ _ Hfa) in H.
      now rewrite (bind_Ok _ _ _ _ _ (followAliases_more_fuel _ _ _ _ _ Hle Hfa)).
    + rewrite (bind_Throw _ _ _ _ _ Hfa) in H. discriminate H.
  - intros fuel st1 d Hf Hr.
    assert (Hg : Lookup.getSchema resolveSchema (S fuel) k st = (Ok (Done None), st1)).
    { unfold Lookup.getSchema. cbn [followAliases].
      rewrite (bind_bind (getSchEnv k)).
      rewrite (bind_Ok _ _ _ _ _ (getSchEnv_found k st)). rewrite Hf. mstep.
      now rewrite (bind_Ok _ _ _ _ _ Hr). }
    split; [exact Hg|]. unfold Lookup.validate. mstep.
    now rewrite (bind_Ok _ _ _ _ _ Hg).
  - intros fuel st1 e Hf Hr. unfold Lookup.getSchema. cbn [followAliases].
    rewrite (bind_bind (getSchEnv k)).
    rewrite (bind_Ok _ _ _ _ _ (getSchEnv_found k st)). rewrite Hf. mstep.
    rewrite (bind_Ok _ _ _ _ _ Hr). mstep. reflexivity.
  - intros fuel name Hf. unfold Lookup.getSchema. cbn [followAliases].
    rewrite (bind_bind (getSchEnv k)).
    rewrite (bind_Ok _ _ _ _ _ (getSchEnv_found k st)). rewrite Hf. mstep.
    reflexivity.
Qed.

End Keys.

End LookupFacts.

(** *** On the instances of [Plain] *)

Module PlainSchemaFacts.
Import Js Ajv Plain AjvFacts PlainFacts SchemaFacts LookupFacts.

Lemma compile_rejects_non_schema_witness :
  compile (VStr "{}") false newAjv
  = (Throw (Error "schema must be object or boolean"), newAjv)
  /\ addSchema (VNum 1) (Some "one") false None newAjv
     = (Throw (Error "schema must be object or boolean"), newAjv)
  /\ addSchema (VNum 1) (Some "constructor") false None newAjv
     = (Throw (Error (alreadyExists "constructor")), newAjv).
Proof.
  split; [|split].
  - exact (proj1 (compile_rejects_non_schema (VStr "{}") newAjv eq_refl) false).
  - exact (proj2 (compile_rejects_non_schema (VNum 1) newAjv eq_refl)
             (Some "one") false None).
  - exact (proj2 (compile_rejects_non_schema (VNum 1) newAjv eq_refl)
             (Some "constructor") false None).
Defined.

Lemma addSchema_registers_witness :
  let s := VObj [("$id", VStr "a#")] in
  let st' := (addSchema s None false None newAjv).2 in
  exists sch, schemas st' !! "a" = Some (Env sch)
              /\ getSchEnv "a#" st' = (Ok (Some (Env sch)), st')
              /\ schema sch = s.
Proof.
  intros s st'.
  assert (H : addSchema s None false None newAjv = (Ok tt, st'))
    by (vm_compute; reflexivity).
  destruct (addSchema_registers s None false None newAjv st' eq_refl H)
    as (sch & H1 & H2 & H3).
  exists sch. split; [exact H1|]. split; [exact (H2 "a#" eq_refl)|].
  destruct H3 as [H3|(_ & H3 & _)]; [discriminate H3 | exact H3].
Defined.

Lemma rejecting_validate_keeps (s d : jsval) : keepsCache (@validate rejecting s d).
Proof. intros st k e H. exact H. Qed.

Lemma rejecting_getSchema_keeps (k : string) : keepsCache (@getSchema rejecting k).
Proof. intros st k' e H. exact H. Qed.

(** The meta-schema validator rejects the schema: [_addSchema] throws, and
    the schema is cached all the same. *)
Lemma addSchema_cached_before_validation_witness :
  let s := VObj [("$schema", VStr "m")] in
  let r := @_addSchema rejecting s false None None newAjv in
  r.1 = Throw (Error "schema is invalid: No errors")
  /\ exists sch, schema sch = s
                 /\ _cache r.2 !! @serialize rejecting s = Some sch
                 /\ @_addSchema rejecting s false None None r.2 = (Ok sch, r.2).
Proof.
  intros s r. split; [vm_compute; reflexivity|].
  set (r0 := @_addSchema rejecting s false (Some VSfalse) None newAjv).
  assert (H0 : exists sch st0, r0 = (Ok sch, st0) /\ schema sch = s).
  { eexists _, _. split; [vm_compute; reflexivity | reflexivity]. }
  destruct H0 as (sch & st0 & H0 & Hs).
  destruct (@addSchema_cached_before_validation rejecting rejecting_validate_keeps
              rejecting_getSchema_keeps s false None newAjv st0 sch H0 None) as [Hc Hhit].
  exists sch. split; [exact Hs|]. split; [exact Hc | exact (Hhit false None None)].
Defined.

Lemma getSchema_after_addSchema_witness :
  let s := VObj [("type", VStr "number")] in
  let st1 := (addSchema s (Some "num") false None newAjv).2 in
  exists v st2,
    Lookup.getSchema noResolver 1 "num" st1 = (Ok (Lookup.Done (Some v)), st2)
    /\ compile s false st2 = (Ok v, st2).
Proof.
  intros s st1.
  assert (H : addSchema s (Some "num") false None newAjv = (Ok tt, st1))
    by (vm_compute; reflexivity).
  assert (Hk : "num" <> EmptyString) by discriminate.
  destruct (getSchema_after_addSchema noResolver plain_compileSchema_keeps
              plain_validate_keeps plain_getSchema_keeps s "num" false None newAjv st1
              eq_refl Hk H) as (sch & H1 & H2 & H3).
  vm_compute in H1. injection H1 as <-.
  eexists _, _. split.
  - rewrite H2. vm_compute. reflexivity.
  - apply H3. vm_compute. reflexivity.
Defined.

Lemma accepting_keeps_cache (v : ValidateFunction) (d : jsval) :
  keepsCache (accepting v d).
Proof. intros st k e H. exact H. Qed.

Lemma accepting_keeps_validators (v : ValidateFunction) (d : jsval) :
  keepsValidators (accepting v d).
Proof. intros st k e H. exact H. Qed.

Lemma validate_compiles_once_witness :
  let s := VObj [("type", VStr "number")] in
  let st1 := (Lookup.validate noResolver accepting (fun _ => false) 1 s (VNum 1) newAjv).2 in
  exists v,
    compile s false st1 = (Ok v, st1)
    /\ Lookup.validate noResolver accepting (fun _ => false) 1 s (VNum 2) st1
       = (valid <- Lookup.runValidator accepting (fun _ => false) v (VNum 2) ;;
          ret (Lookup.Done valid)) st1.
Proof.
  intros s st1.
  assert (H : Lookup.validate noResolver accepting (fun _ => false) 1 s (VNum 1) newAjv
              = (Ok (Lookup.Done (Valid true)), st1)) by (vm_compute; reflexivity).
  assert (Hs : typeof s <> "string") by discriminate.
  exact (validate_compiles_once noResolver accepting (fun _ => false)
           plain_compileSchema_keeps plain_validate_keeps plain_getSchema_keeps
           accepting_keeps_cache accepting_keeps_validators
           s (VNum 1) (VNum 2) 1 newAjv st1 (Valid true) Hs H).
Defined.

(** Two different schemas with ids that normalise to the same key. *)
Lemma addSchema_key_taken_witness :
  let s1 := VObj [("$id", VStr "a")] in
  let s2 := VObj [("$id", VStr "a#"); ("type", VStr "number")] in
  let st1 := (addSchema s1 None false None newAjv).2 in
  addSchema s2 None false None st1 = (Throw (Error (alreadyExists "a")), st1).
Proof.
  intros s1 s2 st1.
  assert (H1 : addSchema s1 None false None newAjv = (Ok tt, st1))
    by (vm_compute; reflexivity).
  assert (Hn : s2 <> VNull) by discriminate.
  exact (addSchema_key_taken s1 s2 None None false false None None newAjv st1
           eq_refl H1 eq_refl Hn (or_intror eq_refl) eq_refl).
Defined.

Lemma startsWithA_stateless : stateless startsWithA.
Proof. intros li s. reflexivity. Qed.

(** A meta-schema and another schema, each added under [a1] and then
    removed in bulk: the meta-schema stays even with [/^a/g], the other
    schema goes with [/^a/]. *)
Lemma added_schema_after_bulk_removal_witness :
  let s := VObj [("$id", VStr "a1")] in
  let asMeta := (addMetaSchema s None None newAjv).2 in
  let plainly := (addSchema s None false None newAjv).2 in
  (exists sch, schemas (removeSchema (RmRegExp startsWithA_g) asMeta).2 !! "a1"
               = Some (Env sch)
               /\ schema sch = s)
  /\ schemas (removeSchema (RmRegExp startsWithA) plainly).2 !! "a1" = None.
Proof.
  intros s asMeta plainly. split.
  - assert (H : addSchema s None true None newAjv = (Ok tt, asMeta))
      by (vm_compute; reflexivity).
    destruct (added_schema_after_bulk_removal s None true None newAjv asMeta
                (Some startsWithA_g) eq_refl eq_refl H) as (sch & _ & Hs & _ & H2 & _).
    exists sch. split; [exact (H2 eq_refl) | exact Hs].
  - assert (H : addSchema s None false None newAjv = (Ok tt, plainly))
      by (vm_compute; reflexivity).
    destruct (added_schema_after_bulk_removal s None false None newAjv plainly
                (Some startsWithA) eq_refl eq_refl H) as (sch & _ & _ & _ & _ & H2).
    exact (H2 startsWithA_stateless).
Defined.

(** [removeSchema(/^a/)] on the instance that holds the meta-schema [m] and
    the schema [a]. *)
Lemma removeSchema_bulk_exact_witness :
  let st' := (removeSchema (RmRegExp startsWithA) twoSchemas).2 in
  schemas st' !! "m" = schemas twoSchemas !! "m"
  /\ refs st' !! "m" = refs twoSchemas !! "m"
  /\ _cache st' !! "{user}" = None.
Proof.
  intros st'.
  destruct (removeSchema_bulk_exact twoSchemas (Some startsWithA) startsWithA_stateless)
    as (H1 & _ & H3).
  destruct (H1 "m" eq_refl) as [Hs Hr].
  split; [exact Hs|]. split; [exact Hr|].
  apply (proj1 (H3 "{user}")). left. exists "a", (Env userEnv). now repeat split.
Defined.

End PlainSchemaFacts.

(** ** Error text, the enum template and the code of [properties] *)

Module TextFacts.
Import Js Ajv AjvFacts.

(** X17.  The edge cases of [errorsText].  The default [this.errors] is used
    only for an argument that is [undefined]: [null] and the empty array
    give [No errors] whatever [this.errors] holds, and so does [undefined]
    when [this.errors] is itself [undefined], [null] or empty.  For a single
    error the text is its message alone: [reduce] without an initial value
    returns the one element, so no separator follows it. *)
Theorem errorsText_edge_cases :
  (forall this_errors o,
     errorsText this_errors ErrorsNull o = "No errors"
     /\ errorsText this_errors (ErrorsArray []) o = "No errors")
  /\ (forall this_errors o,
        errorsText this_errors ErrorsUndefined o
        = match this_errors with
          | ErrorsUndefined => "No errors"
          | _ => errorsText ErrorsUndefined this_errors o
          end)
  /\ (forall this_errors e o,
        let o' := default (mkErrorsTextOptions None None) o in
        errorsText this_errors (ErrorsArray [e]) o
        = default "data" (dataVar o') +:+ Enum.dataPath e +:+ " "
          +:+ default "undefined" (Enum.message e)).
Proof.
  split; [|split].
  - intros this_errors o. split; reflexivity.
  - intros [| |l] o; reflexivity.
  - intros this_errors e o o'. reflexivity.
Qed.

End TextFacts.

Module EnumMemberFacts.
Import Js Enum EnumFacts.

(** X18.  Every value listed in [enum] validates, and a validation that
    succeeds leaves [validate.errors] as it was; a validation that fails
    appends exactly one error to it, with keyword [enum], the [dataPath] of
    the call, the list of allowed values and, when [verbose] is set, the
    data; the empty list accepts nothing. *)
Theorem enum_members_accepted :
  (forall verbose items x path errors,
     x ∈ items -> enumValidate verbose items x path errors = (true, errors))
  /\ (forall verbose items d path errors,
        (enumValidate verbose items d path errors).1 = true ->
        (enumValidate verbose items d path errors).2 = errors)
  /\ (forall verbose items d path errors,
        (enumValidate verbose items d path errors).1 = false ->
        (enumValidate verbose items d path errors).2
        = (errors ++ [mkError "enum" path (Some "should be equal to one of values")
                        (Some (VArr items)) (if verbose then Some d else None)])%list)
  /\ (forall verbose d path errors,
        (enumValidate verbose [] d path errors).1 = false).
Proof.
  split; [|split; [|split]].
  - intros verbose items x path errors Hx. unfold enumValidate.
    fold (serializedKey x). rewrite itemsHash_lookup.
    assert (Hex : existsb (fun m => String.eqb (serializedKey m) (serializedKey x)) items
                  = true).
    { apply existsb_exists. exists x.
      split; [now apply list_elem_of_In | apply String.eqb_refl]. }
    now rewrite Hex.
  - intros verbose items d path errors. unfold enumValidate. simpl.
    now destruct (default false _).
  - intros verbose items d path errors. unfold enumValidate. simpl.
    now destruct (default false _).
  - intros verbose d path errors. reflexivity.
Qed.

End EnumMemberFacts.

Module PropertiesCodeFacts.
Import Js Properties.

Lemma code_blocks (it : It) (schema_ : list (string * Schema)) :
  code it schema_
  = flat_map (fun prop => if hasDefault it schema_ prop then unguarded prop
                          else guarded it prop)
             (schemaProperties schema_).
Proof.
  unfold code. destruct (schemaProperties schema_) as [|p props]; [reflexivity|].
  cbn [length Nat.eqb]. apply flat_map_ext. intros prop.
  now destruct (hasDefault it schema_ prop).
Qed.

(** X19.  The code emitted for [properties] applies the subschema of each
    declared property exactly once, in the order of declaration, and calls
    [ok(valid)] once per property.  A property is validated unconditionally
    only when it has an applicable default; when [useDefaults] is off, or
    inside a composite rule, every property is validated under the test that
    it is in the data, whatever defaults the schema declares. *)
Theorem code_applies_each_property_once (it : It) (schema_ : list (string * Schema)) :
  applied (code it schema_) = schemaProperties schema_
  /\ okCalls (code it schema_) = length (schemaProperties schema_)
  /\ (truthy (useDefaults it) = false \/ compositeRule it = true ->
      code it schema_ = flat_map (guarded it) (schemaProperties schema_)).
Proof.
  rewrite code_blocks. split; [|split].
  - unfold applied.
    induction (schemaProperties schema_) as [|p props IH]; [reflexivity|].
    cbn [flat_map]. rewrite flat_map_app, IH.
    destruct (hasDefault it schema_ p); [reflexivity|].
    simpl. now destruct (allErrors it).
  - unfold okCalls.
    induction (schemaProperties schema_) as [|p props IH]; [reflexivity|].
    cbn [flat_map]. rewrite List.filter_app, length_app, IH.
    destruct (hasDefault it schema_ p); reflexivity.
  - intros Hoff. apply flat_map_ext. intros prop.
    assert (Hd : hasDefault it schema_ prop = false).
    { unfold hasDefault. destruct Hoff as [-> | ->]; [reflexivity|].
      now rewrite andb_false_r. }
    now rewrite Hd.
Qed.

End PropertiesCodeFacts.

(** ** The loader: entries and activations *)

Module LoaderEntryFacts.
Import Loader LoaderFacts.

(** X20.  In every state the loader can reach, the entries of [_loading] are
    exactly the activations of [_loadSchema] that are suspended at the
    [await]: there is no stale entry, and once every activation has resumed
    [_loading] is empty.  A call for a ref without an entry always calls
    [loadSchema]; if [loadSchema] throws at once, the [finally] block has
    run before the call ends: no entry is left, no promise is handed out,
    and the next call tries again. *)
Theorem loading_entries_are_pending (evs : list Event) (s : State) :
  run evs init = Some s ->
  (forall ref p, _loading s !! ref = Some p <-> suspended s !! p = Some ref)
  /\ (suspended s = ∅ -> _loading s = ∅)
  /\ (forall ref r, _loading s !! ref = None ->
        invocations ref (call ref r s).1 = S (invocations ref s))
  /\ (forall ref, _loading s !! ref = None ->
        let r := call ref Throws s in
        r.2 = None
        /\ _loading r.1 = _loading s
        /\ suspended r.1 = suspended s
        /\ invocations ref (call ref Returns r.1).1 = S (S (invocations ref s))).
Proof.
  intros Hrun. pose proof (Inv_run evs init s Inv_init Hrun) as [I1 I2 I3 I4].
  split; [|split; [|split]].
  - intros ref p. split; [apply I1 | apply I2].
  - intros Hs. apply map_empty. intros ref.
    destruct (_loading s !! ref) as [p|] eqn:Hl; [|reflexivity].
    apply I1 in Hl. rewrite Hs, lookup_empty in Hl. discriminate.
  - intros ref r Hl. unfold call. rewrite Hl.
    destruct r; unfold invocations; simpl; now rewrite String.eqb_refl.
  - intros ref Hl r. subst r.
    assert (Hc : call ref Throws s
                 = (mkState (delete ref (_loading s)) (unsettled s) (suspended s)
                            (ref :: invoked s) (nextPromise s), None)).
    { unfold call. now rewrite Hl. }
    rewrite Hc. cbn [fst snd _loading suspended].
    split; [reflexivity|]. split; [now apply delete_id|]. split; [reflexivity|].
    unfold call. cbn [_loading]. rewrite lookup_delete_eq.
    unfold invocations. cbn [fst invoked countRef]. now rewrite String.eqb_refl.
Qed.

Lemma loading_entries_are_pending_witness :
  let evs := [Call "a" Throws; Call "a" Returns; Settle 0 true; Resume 0] in
  exists s, run evs init = Some s
            /\ _loading s = ∅
            /\ invocations "a" s = 2.
Proof.
  intros evs.
  assert (Hrun : exists s, run evs init = Some s /\ suspended s = ∅ /\ invocations "a" s = 2).
  { eexists. split; [vm_compute; reflexivity|]. split; reflexivity. }
  destruct Hrun as (s & Hrun & Hs & Hn).
  exists s. split; [exact Hrun|]. split; [|exact Hn].
  exact (proj1 (proj2 (loading_entries_are_pending evs s Hrun)) Hs).
Defined.

End LoaderEntryFacts.

(** ** [$dataMetaSchema]: what is wrapped *)

Module DataMetaWrapFacts.
Import Js Ajv DataMeta DataMetaFacts.

Lemma lookupProp_assignProp (ps : list (string * val)) (k : string) (x : val) :
  lookupProp (assignProp ps k x) k = x.
Proof.
  induction ps as [|[k' v] ps IH]; simpl.
  - now rewrite String.eqb_refl.
  - destruct (String.eqb k' k) eqn:Hk; simpl; now rewrite Hk.
Qed.

Lemma lookupProp_assignProp_ne (ps : list (string * val)) (k k' : string) (x : val) :
  k' <> k -> lookupProp (assignProp ps k x) k' = lookupProp ps k'.
Proof.
  intros Hne. induction ps as [|[k0 v] ps IH]; simpl.
  - now rewrite (proj2 (String.eqb_neq k k') (not_eq_sym Hne)).
  - destruct (String.eqb k0 k) eqn:Hk; simpl.
    + apply String.eqb_eq in Hk. subst k0.
      now rewrite (proj2 (String.eqb_neq k k') (not_eq_sym Hne)).
    + now rewrite IH.
Qed.

Lemma assignProp_keys (ps : list (string * val)) (k : string) (x : val) :
  lookupProp ps k <> Undef -> (assignProp ps k x).*1 = ps.*1.
Proof.
  induction ps as [|[k0 v] ps IH]; [simpl; congruence|].
  cbn [lookupProp assignProp]. destruct (String.eqb k0 k); [reflexivity|].
  intros H. rewrite !fmap_cons. now rewrite IH.
Qed.

Lemma dataRule_absent (rules_ : list (string * RuleEntry)) (key : string) :
  key ∉ rules_.*1 -> dataRule rules_ key = false.
Proof.
  unfold dataRule. induction rules_ as [|[k e] rest IH]; simpl; [reflexivity|].
  intros Hn. rewrite IH by (intros H; apply Hn; now right).
  assert (k <> key) by (intros ->; apply Hn; left).
  now rewrite (proj2 (String.eqb_neq k key)).
Qed.

Lemma wrapped_weaken (h : heap) (n m : nat) (dataRef s v : val) :
  m <= n -> wrapped h n dataRef s v -> wrapped h m dataRef s v.
Proof.
  intros Hle (o & a & Hv & Ha & Ho & H1 & H2). exists o, a.
  repeat split; trivial; lia.
Qed.

(** X21.  The loop over the rules on an object [keywords]: it returns, and
    afterwards the object has the same properties in the same order, where
    the value under each key that has a rule with [$data] and held a truthy
    value is a new object [{anyOf: [value, $dataRef]}], and the value under
    every other key is what it was.  No other object that existed before is
    changed. *)
Theorem wrapKeywords_wraps (rules_ : list (string * RuleEntry)) (dataRef : val) (l : loc) :
  NoDup rules_.*1 ->
  forall (ps : list (string * val)) (h : heap),
    h !! l = Some (Obj ps) ->
    let r := wrapKeywords rules_ dataRef (Ref l) h in
    r.1 = Ok tt
    /\ length h <= length r.2
    /\ (forall l', l' <> l -> l' < length h -> r.2 !! l' = h !! l')
    /\ exists ps',
         r.2 !! l = Some (Obj ps')
         /\ ps'.*1 = ps.*1
         /\ forall key,
              if dataRule rules_ key && truthyVal (lookupProp ps key)
              then wrapped r.2 (length h) dataRef (lookupProp ps key) (lookupProp ps' key)
              else lookupProp ps' key = lookupProp ps key.
Proof.
  induction rules_ as [|[key0 entry] rest IH]; intros Hnd ps h Hl.
  - simpl. split; [reflexivity|]. split; [lia|]. split; [reflexivity|].
    exists ps. split; [exact Hl|]. split; [reflexivity|]. intros key. reflexivity.
  - cbn [fmap list_fmap fst] in Hnd. apply NoDup_cons in Hnd as [Hnin Hnd].
    pose proof (dataRule_absent rest key0 Hnin) as Hrest0.
    assert (Hlt : l < length h) by (apply lookup_lt_is_Some; eauto).
    assert (Hhead : forall key, key <> key0 ->
               dataRule ((key0, entry) :: rest) key = dataRule rest key).
    { intros key Hne. unfold dataRule. simpl.
      now rewrite (proj2 (String.eqb_neq key0 key) (not_eq_sym Hne)). }
    (* the rule is skipped, or the property is left alone *)
    assert (Hskip : dataRule ((key0, entry) :: rest) key0 && truthyVal (lookupProp ps key0)
                    = false ->
              let r := wrapKeywords rest dataRef (Ref l) h in
              r.1 = Ok tt
              /\ length h <= length r.2
              /\ (forall l', l' <> l -> l' < length h -> r.2 !! l' = h !! l')
              /\ exists ps',
                   r.2 !! l = Some (Obj ps')
                   /\ ps'.*1 = ps.*1
                   /\ forall key,
                        if dataRule ((key0, entry) :: rest) key
                           && truthyVal (lookupProp ps key)
                        then wrapped r.2 (length h) dataRef (lookupProp ps key)
                               (lookupProp ps' key)
                        else lookupProp ps' key = lookupProp ps key).
    { intros Hcond. destruct (IH Hnd ps h Hl) as (H1 & H2 & H3 & ps' & H4 & H5 & H6).
      split; [exact H1|]. split; [exact H2|]. split; [exact H3|].
      exists ps'. split; [exact H4|]. split; [exact H5|]. intros key.
      destruct (decide (key = key0)) as [->|Hne].
      - rewrite Hcond. specialize (H6 key0). now rewrite Hrest0 in H6.
      - rewrite (Hhead key Hne). apply H6. }
    destruct entry as [rule|b].
    + cbn [wrapKeywords]. unfold getMember. rewrite Hl.
      assert (Hd : dataRule ((key0, RuleObj rule) :: rest) key0
                   = def_data (definition rule)).
      { unfold dataRule. simpl. rewrite String.eqb_refl. simpl.
        fold (dataRule rest key0). rewrite Hrest0. apply orb_false_r. }
      destruct (def_data (definition rule) && truthyVal (lookupProp ps key0)) eqn:Hcond.
      * unfold schemaOrDataObj. cbn [fst snd].
        set (v := lookupProp ps key0).
        set (h2 := ((h ++ [Arr [v; dataRef]]) ++ [Obj [("anyOf", Ref (length h))]])%list).
        assert (Hl2 : h2 !! l = Some (Obj ps)).
        { unfold h2. rewrite <- app_assoc. now rewrite lookup_app_l. }
        assert (Hlen2 : length h2 = S (S (length h))).
        { unfold h2. rewrite !length_app. simpl. lia. }
        unfold assign. rewrite Hl2.
        set (o := length (h ++ [Arr [v; dataRef]])%list).
        assert (Ho : o = S (length h)) by (unfold o; rewrite length_app; simpl; lia).
        set (ps3 := assignProp ps key0 (Ref o)).
        set (h3 := <[l := Obj ps3]> h2).
        assert (Hl3 : h3 !! l = Some (Obj ps3)).
        { unfold h3. apply list_lookup_insert_eq. lia. }
        assert (Hlen3 : length h3 = S (S (length h))).
        { unfold h3. now rewrite length_insert. }
        destruct (IH Hnd ps3 h3 Hl3) as (H1 & H2 & H3 & ps' & H4 & H5 & H6).
        split; [exact H1|]. split; [lia|]. split.
        { intros l' Hne Hl'. rewrite H3 by (trivial; lia).
          unfold h3. rewrite list_lookup_insert_ne by congruence.
          unfold h2. rewrite <- app_assoc. now rewrite lookup_app_l. }
        exists ps'. split; [exact H4|]. split.
        { rewrite H5. unfold ps3. apply assignProp_keys.
          assert (Ht : truthyVal (lookupProp ps key0) = true)
            by (apply andb_prop in Hcond; tauto).
          intros Hu. unfold v in *. rewrite Hu in Ht. discriminate. }
        intros key. destruct (decide (key = key0)) as [->|Hne].
        -- rewrite Hd. rewrite Hcond.
           specialize (H6 key0). rewrite Hrest0 in H6. simpl in H6.
           rewrite H6. unfold ps3. rewrite lookupProp_assignProp.
           exists o, (length h). split; [reflexivity|]. split; [lia|]. split; [lia|].
           split.
           ++ rewrite H3 by lia. unfold h3. rewrite list_lookup_insert_ne by lia.
              unfold h2. rewrite lookup_app_r by (fold o; lia).
              fold o. now rewrite Nat.sub_diag.
           ++ rewrite H3 by lia. unfold h3. rewrite list_lookup_insert_ne by lia.
              unfold h2. rewrite <- app_assoc. rewrite lookup_app_r by lia.
              now rewrite Nat.sub_diag.
        -- rewrite (Hhead key Hne). specialize (H6 key).
           unfold ps3 in H6. rewrite (lookupProp_assignProp_ne ps key0 key _ Hne) in H6.
           destruct (dataRule rest key && truthyVal (lookupProp ps key)); [|exact H6].
           apply (wrapped_weaken _ (length h3)); [lia | exact H6].
      * apply Hskip. now rewrite Hd.
    + cbn [wrapKeywords]. apply Hskip.
      unfold dataRule. simpl. fold (dataRule rest key0). rewrite Hrest0.
      now rewrite andb_false_r.
Qed.

(** On the sample store: [maxLength] has a rule with [$data] and is
    wrapped, [title] has a rule without and is left alone. *)
Lemma wrapKeywords_wraps_witness :
  let r := wrapKeywords Plain.sampleRules (Ref 0) (Ref 3) Plain.sampleHeap in
  r.1 = Ok tt
  /\ exists ps',
       r.2 !! 3 = Some (Obj ps')
       /\ ps'.*1 = ["maxLength"; "title"]
       /\ wrapped r.2 5 (Ref 0) (Ref 1) (lookupProp ps' "maxLength")
       /\ lookupProp ps' "title" = Ref 2.
Proof.
  intros r.
  assert (Hnd : NoDup Plain.sampleRules.*1).
  { apply (bool_decide_unpack _). vm_compute. exact I. }
  destruct (wrapKeywords_wraps Plain.sampleRules (Ref 0) 3 Hnd _ Plain.sampleHeap eq_refl)
    as (H1 & _ & _ & ps' & H4 & H5 & H6).
  split; [exact H1|]. exists ps'. split; [exact H4|]. split; [exact H5|].
  split; [exact (H6 "maxLength") | exact (H6 "title")].
Defined.

End DataMetaWrapFacts.

(** ** [$dataMetaSchema]: the value it returns *)

Module DataMetaJsonFacts.
Import Js Ajv DataMeta DataMetaFacts.

(** *** Serialization needs no more fuel than the store has objects *)

Lemma jsize_arr (xs : list jsval) : jsize (VArr xs) = S (sum_list (jsize <$> xs)).
Proof.
  cbn [jsize]. f_equal. induction xs as [|x xs IH]; [reflexivity|].
  rewrite fmap_cons. simpl. now rewrite <- IH.
Qed.

Lemma jsize_obj (ps : list (string * jsval)) :
  jsize (VObj ps) = S (sum_list (jsize <$> ps.*2)).
Proof.
  cbn [jsize]. f_equal. induction ps as [|[k x] ps IH]; [reflexivity|].
  rewrite !fmap_cons. simpl. now rewrite <- IH.
Qed.

Lemma sum_list_elem (l : list nat) (x : nat) : x ∈ l -> x <= sum_list l.
Proof.
  induction 1 as [x l|x y l _ IH]; simpl; lia.
Qed.

Lemma toJSON_fuel (n m : nat) (h : heap) (v : val) (j : jsval) :
  n <= m -> toJSON n h v = Some j -> toJSON m h v = Some j.
Proof. intros Hle. now apply toJSON_mono. Qed.

Lemma toJSON_det (n m : nat) (h : heap) (v : val) (j1 j2 : jsval) :
  toJSON n h v = Some j1 -> toJSON m h v = Some j2 -> j1 = j2.
Proof.
  intros H1 H2.
  apply (toJSON_fuel n (n `max` m)) in H1; [|lia].
  apply (toJSON_fuel m (n `max` m)) in H2; [|lia].
  congruence.
Qed.

Lemma toJSON_undef (n : nat) (h : heap) (v : val) (j : jsval) :
  toJSON n h v = Some j -> (j = VUndef <-> v = Undef).
Proof.
  destruct n as [|n]; destruct v as [| | b | z | s | l]; cbn [toJSON];
    try (intros [= <-]; split; intros; congruence); try discriminate.
  destruct (h !! l) as [[ps|es]|]; simpl; [| |discriminate].
  - destruct (mapM _ _); simpl; [|discriminate]. intros [= <-].
    split; discriminate.
  - destruct (mapM _ _); simpl; [|discriminate]. intros [= <-].
    split; discriminate.
Qed.

(** The children of a serialized object or array are smaller than it. *)
Lemma child_size_obj (keys : list string) (js : list jsval) (y : jsval) :
  length keys = length js -> y ∈ js ->
  jsize y < jsize (VObj (List.filter keepProp (zip keys js))).
Proof.
  intros Hlen Hy. rewrite jsize_obj.
  assert (Hcase : y = VUndef \/ keepProp (EmptyString, y) = true)
    by (destruct y; simpl; auto).
  destruct Hcase as [->|Hne]; [simpl; lia|].
  apply Nat.lt_succ_r. apply sum_list_elem.
  apply list_elem_of_lookup in Hy as [i Hi].
  destruct (lookup_lt_is_Some_2 keys i) as [k Hk].
  { rewrite Hlen. apply lookup_lt_is_Some. eauto. }
  apply list_elem_of_fmap. exists y. split; [reflexivity|].
  apply list_elem_of_fmap. exists (k, y). split; [reflexivity|].
  apply list_elem_of_In. apply List.filter_In. split.
  - apply list_elem_of_In. apply list_elem_of_lookup. exists i.
    apply lookup_zip_with_Some. eauto.
  - exact Hne.
Qed.

Lemma child_size_arr (js : list jsval) (y : jsval) :
  y ∈ js -> jsize y < jsize (VArr (arrayItem <$> js)).
Proof.
  intros Hy. rewrite jsize_arr. apply Nat.lt_succ_r.
  transitivity (jsize (arrayItem y)); [destruct y; simpl; lia|].
  apply sum_list_elem. apply list_elem_of_fmap. exists (arrayItem y).
  split; [reflexivity|]. apply list_elem_of_fmap. now exists y.
Qed.

Lemma seen_bound (seen : list nat) (n : nat) :
  NoDup seen -> (forall a, a ∈ seen -> a < n) -> length seen <= n.
Proof.
  intros Hnd Hlt.
  assert (Hsub : seen ⊆+ seq 0 n).
  { apply NoDup_submseteq; [exact Hnd|]. intros a Ha. apply elem_of_seq.
    specialize (Hlt a Ha). lia. }
  apply submseteq_length in Hsub. now rewrite length_seq in Hsub.
Qed.

(** Serialization along a path that visits no object twice needs no more
    fuel than the store has objects. *)
Lemma toJSON_visited (n : nat) (h : heap) :
  forall (v : val) (j : jsval) (seen : list nat),
    toJSON n h v = Some j ->
    NoDup seen ->
    (forall a, a ∈ seen -> a < length h) ->
    (forall a m ja, a ∈ seen -> toJSON m h (Ref a) = Some ja -> jsize j < jsize ja) ->
    toJSON (S (length h) - length seen) h v = Some j.
Proof.
  induction n as [|n IH]; intros v j seen Hj Hnd Hlt Hsize;
    destruct v as [| | b | z | s | l]; cbn [toJSON] in Hj |- *;
    try (destruct (S (length h) - length seen); cbn [toJSON]; exact Hj).
  - discriminate.
  - destruct (h !! l) as [o|] eqn:Ho; [|discriminate].
    assert (Hl : l < length h) by (apply lookup_lt_is_Some; eauto).
    assert (Hself : toJSON (S n) h (Ref l) = Some j).
    { cbn [toJSON]. now rewrite Ho. }
    assert (Hnin : l ∉ seen).
    { intros Hin. specialize (Hsize l (S n) j Hin Hself). lia. }
    assert (Hnd' : NoDup (l :: seen)) by now constructor.
    assert (Hlt' : forall a, a ∈ l :: seen -> a < length h).
    { intros a Ha. apply elem_of_cons in Ha as [->|Ha]; auto. }
    pose proof (seen_bound (l :: seen) (length h) Hnd' Hlt') as Hb. simpl in Hb.
    replace (S (length h) - length seen) with (S (S (length h) - length (l :: seen)))
      by (simpl; lia).
    cbn [toJSON]. rewrite Ho.
    assert (Hchild : forall (vs : list val) (js : list jsval),
               mapM (toJSON n h) vs = Some js ->
               (forall y, y ∈ js -> jsize y < jsize j) ->
               mapM (toJSON (S (length h) - length (l :: seen)) h) vs = Some js).
    { intros vs js Hm Hy. apply mapM_Some in Hm. apply mapM_Some.
      apply Forall2_same_length_lookup. split; [now apply Forall2_length in Hm|].
      intros i x y Hx Hyi.
      pose proof (Forall2_lookup_lr _ _ _ _ _ _ Hm Hx Hyi) as Hxy.
      apply (IH x y (l :: seen) Hxy Hnd' Hlt').
      intros a m ja Ha Hja.
      assert (Hyy : jsize y < jsize j).
      { apply Hy. apply list_elem_of_lookup. eauto. }
      apply elem_of_cons in Ha as [->|Ha].
      - now rewrite <- (toJSON_det _ _ _ _ _ _ Hself Hja).
      - specialize (Hsize a m ja Ha Hja). lia. }
    destruct o as [ps|es].
    + destruct (mapM (toJSON n h) ps.*2) as [js|] eqn:Hm; [|discriminate].
      simpl in Hj. injection Hj as <-.
      rewrite (Hchild _ _ Hm); [reflexivity|].
      intros y Hy. apply child_size_obj; [|exact Hy].
      apply mapM_Some, Forall2_length in Hm. now rewrite !length_fmap in *.
    + destruct (mapM (toJSON n h) es) as [js|] eqn:Hm; [|discriminate].
      simpl in Hj. injection Hj as <-.
      rewrite (Hchild _ _ Hm); [reflexivity|].
      intros y Hy. now apply child_size_arr.
Qed.

(** A structure that serializes at all serializes with the fuel that
    [jsonClone] gives. *)
Lemma toJSON_enough (n : nat) (h : heap) (v : val) (j : jsval) :
  toJSON n h v = Some j -> toJSON (S (length h)) h v = Some j.
Proof.
  intros Hj.
  pose proof (toJSON_visited n h v j [] Hj (NoDup_nil_2)) as H.
  cbn [length] in H. rewrite Nat.sub_0_r in H. apply H.
  - intros a Ha. inversion Ha.
  - intros a m ja Ha. inversion Ha.
Qed.

(** *** Parsing what was serialized *)

Lemma fromJSON_arr (xs : list jsval) (h : heap) :
  fromJSON (VArr xs) h
  = (Ref (length (fromElems xs h).2), ((fromElems xs h).2 ++ [Arr (fromElems xs h).1])%list).
Proof. reflexivity. Qed.

Lemma fromJSON_obj (ps : list (string * jsval)) (h : heap) :
  fromJSON (VObj ps) h
  = (Ref (length (fromProps ps h).2), ((fromProps ps h).2 ++ [Obj (fromProps ps h).1])%list).
Proof. reflexivity. Qed.

Lemma fromJSON_prefix (j : jsval) (h : heap) : h `prefix_of` (fromJSON j h).2.
Proof.
  destruct (fromJSON_extends j h) as (ext & -> & _). now apply prefix_app_r.
Qed.

Lemma fromElems_prefix (xs : list jsval) : forall h, h `prefix_of` (fromElems xs h).2.
Proof.
  induction xs as [|x xs IH]; intros h; simpl; [reflexivity|].
  etransitivity; [apply (fromJSON_prefix x)|apply IH].
Qed.

Lemma fromProps_prefix (ps : list (string * jsval)) :
  forall h, h `prefix_of` (fromProps ps h).2.
Proof.
  induction ps as [|[k x] ps IH]; intros h; simpl; [reflexivity|].
  etransitivity; [apply (fromJSON_prefix x)|apply IH].
Qed.

Lemma agreeOn_sub (lo hi lo' hi' : nat) (h1 h1' h2 : heap) :
  agreeOn lo hi h1 h2 -> lo <= lo' -> hi' <= hi -> hi' <= length h1' ->
  h1' `prefix_of` h1 -> agreeOn lo' hi' h1' h2.
Proof.
  intros Ha Hlo Hhi Hlen Hp i Hi1 Hi2. rewrite Ha; [|lia|lia].
  destruct (lookup_lt_is_Some_2 h1' i) as [o Ho]; [lia|].
  rewrite Ho. now apply (prefix_lookup_Some h1' h1).
Qed.

Lemma agreeOn_refl (lo hi : nat) (h : heap) : agreeOn lo hi h h.
Proof. now intros i _ _. Qed.

Lemma clean_arrayItem (xs : list jsval) :
  forallb clean xs = true -> arrayItem <$> xs = xs.
Proof.
  induction xs as [|x xs IH]; [reflexivity|]. cbn [forallb].
  intros [Hx Hxs]%andb_prop. rewrite fmap_cons, (IH Hxs). f_equal.
  now destruct x.
Qed.

Lemma clean_keepProp (ps : list (string * jsval)) :
  forallb (fun kx => clean kx.2) ps = true -> List.filter keepProp ps = ps.
Proof.
  induction ps as [|[k x] ps IH]; [reflexivity|]. cbn [forallb List.filter].
  intros [Hx Hps]%andb_prop. unfold keepProp at 1. simpl in Hx |- *.
  rewrite (IH Hps). now destruct x.
Qed.

Lemma fromProps_keys (ps : list (string * jsval)) :
  forall h, (fromProps ps h).1.*1 = ps.*1.
Proof.
  induction ps as [|[k x] ps IH]; intros h; simpl; [reflexivity|].
  now rewrite IH.
Qed.

Lemma fromJSON_toJSON (j : jsval) :
  clean j = true ->
  forall (h h' : heap) (fuel : nat),
    agreeOn (length h) (length (fromJSON j h).2) (fromJSON j h).2 h' ->
    length (fromJSON j h).2 - length h <= fuel ->
    toJSON fuel h' (fromJSON j h).1 = Some j.
Proof.
  induction j as [| | b | z | s | xs IH | ps IH] using jsval_nested_ind;
    intros Hc h h' fuel Hag Hf;
    try discriminate; try (destruct fuel; reflexivity).
  - rewrite fromJSON_arr in *. cbn [fst snd] in *.
    assert (Hp := fromElems_prefix xs h). apply prefix_length in Hp.
    rewrite length_app in *. cbn [length] in *.
    destruct fuel as [|f]; [lia|]. cbn [toJSON].
    rewrite (Hag (length (fromElems xs h).2)); [|lia|lia].
    rewrite lookup_app_r, Nat.sub_diag by lia. cbn [lookup list_lookup].
    cbn [clean] in Hc.
    assert (Hm : mapM (toJSON f h') (fromElems xs h).1 = Some xs).
    { apply mapM_Some.
      assert (Hag' : agreeOn (length h) (length (fromElems xs h).2) (fromElems xs h).2 h').
      { eapply agreeOn_sub; [exact Hag| | | |]; [lia|lia|lia|now apply prefix_app_r]. }
      assert (Hf' : length (fromElems xs h).2 - length h <= f) by lia.
      clear Hag Hf Hp. revert h Hag' Hf'.
      induction IH as [|x xs IHx _ IHxs]; intros h Hag Hf; [constructor|].
      cbn [forallb] in Hc. apply andb_prop in Hc as [Hx Hxs].
      cbn [fromElems fst snd] in *.
      assert (Hp1 := fromJSON_prefix x h).
      assert (Hp2 := fromElems_prefix xs (fromJSON x h).2).
      assert (Hl1 := prefix_length _ _ Hp1). assert (Hl2 := prefix_length _ _ Hp2).
      constructor.
      - apply IHx; [exact Hx| |lia].
        eapply agreeOn_sub; [exact Hag| | | |exact Hp2]; lia.
      - apply IHxs; [exact Hxs| |lia].
        eapply agreeOn_sub; [exact Hag| | | |reflexivity]; lia. }
    rewrite Hm. simpl. now rewrite clean_arrayItem.
  - rewrite fromJSON_obj in *. cbn [fst snd] in *.
    assert (Hp := fromProps_prefix ps h). apply prefix_length in Hp.
    rewrite length_app in *. cbn [length] in *.
    destruct fuel as [|f]; [lia|]. cbn [toJSON].
    rewrite (Hag (length (fromProps ps h).2)); [|lia|lia].
    rewrite lookup_app_r, Nat.sub_diag by lia. cbn [lookup list_lookup].
    cbn [clean] in Hc.
    assert (Hm : mapM (toJSON f h') (fromProps ps h).1.*2 = Some ps.*2).
    { apply mapM_Some.
      assert (Hag' : agreeOn (length h) (length (fromProps ps h).2) (fromProps ps h).2 h').
      { eapply agreeOn_sub; [exact Hag| | | |]; [lia|lia|lia|now apply prefix_app_r]. }
      assert (Hf' : length (fromProps ps h).2 - length h <= f) by lia.
      clear Hag Hf Hp. revert h Hag' Hf'.
      induction IH as [|[k x] ps IHx _ IHps]; intros h Hag Hf; [constructor|].
      cbn [forallb] in Hc. apply andb_prop in Hc as [Hx Hps].
      cbn [fromProps fst snd] in *. rewrite !fmap_cons. cbn [fst snd] in *.
      assert (Hp1 := fromJSON_prefix x h).
      assert (Hp2 := fromProps_prefix ps (fromJSON x h).2).
      assert (Hl1 := prefix_length _ _ Hp1). assert (Hl2 := prefix_length _ _ Hp2).
      constructor.
      - apply IHx; [exact Hx| |lia].
        eapply agreeOn_sub; [exact Hag| | | |exact Hp2]; lia.
      - apply IHps; [exact Hps| |lia].
        eapply agreeOn_sub; [exact Hag| | | |reflexivity]; lia. }
    rewrite Hm. simpl. rewrite fromProps_keys, zip_fst_snd.
    now rewrite clean_keepProp.
Qed.

Lemma toJSON_clean (n : nat) (h : heap) :
  forall (v : val) (j : jsval),
    toJSON n h v = Some j -> j <> VUndef -> clean j = true.
Proof.
  induction n as [|n IH]; intros v j Hj Hne;
    destruct v as [| | b | z | s | l]; cbn [toJSON] in Hj;
    try (injection Hj as <-; try reflexivity; congruence); try discriminate.
  destruct (h !! l) as [[ps|es]|]; [| |discriminate].
  - destruct (mapM (toJSON n h) ps.*2) as [js|] eqn:Hm; [|discriminate].
    simpl in Hj. injection Hj as <-. cbn [clean].
    apply forallb_forall. intros [k y] [Hin Hk]%List.filter_In.
    apply list_elem_of_In, list_elem_of_lookup in Hin as [i Hi].
    apply lookup_zip_with_Some in Hi as (k' & y' & [= <- <-] & _ & Hy).
    apply mapM_Some in Hm.
    destruct (Forall2_lookup_r _ _ _ _ _ Hm Hy) as (x & _ & Hx).
    simpl. apply (IH x y Hx). intros ->. discriminate Hk.
  - destruct (mapM (toJSON n h) es) as [js|] eqn:Hm; [|discriminate].
    simpl in Hj. injection Hj as <-. cbn [clean].
    apply forallb_forall. intros y Hin.
    apply list_elem_of_In, list_elem_of_fmap in Hin as (y' & -> & Hin).
    apply list_elem_of_lookup in Hin as [i Hy].
    apply mapM_Some in Hm.
    destruct (Forall2_lookup_r _ _ _ _ _ Hm Hy) as (x & _ & Hx).
    destruct y'; try reflexivity; apply (IH x _ Hx); discriminate.
Qed.

(** Serialization reads the objects of the store it was given only. *)
Lemma toJSON_agree (n : nat) (h h' : heap) :
  (forall i, i < length h -> h' !! i = h !! i) ->
  forall (v : val) (j : jsval), toJSON n h v = Some j -> toJSON n h' v = Some j.
Proof.
  intros Hag. induction n as [|n IH]; intros v j;
    destruct v as [| | b | z | s | l]; cbn [toJSON]; trivial.
  destruct (h !! l) as [o|] eqn:Ho; [|discriminate].
  rewrite Hag, Ho by (apply lookup_lt_is_Some; eauto).
  assert (Hm : forall vs js, mapM (toJSON n h) vs = Some js ->
                             mapM (toJSON n h') vs = Some js).
  { intros vs js Hm. apply mapM_Some in Hm. apply mapM_Some.
    eapply Forall2_impl; [exact Hm|]. intros x y. apply IH. }
  destruct o as [ps|es].
  - destruct (mapM (toJSON n h) ps.*2) as [js|] eqn:Hjs; [|discriminate].
    now rewrite (Hm _ _ Hjs).
  - destruct (mapM (toJSON n h) es) as [js|] eqn:Hjs; [|discriminate].
    now rewrite (Hm _ _ Hjs).
Qed.

Lemma agreeExcept_refl (lk : loc) (h : heap) : agreeExcept lk h h.
Proof. now intros i _ _. Qed.

Lemma agreeExcept_trans (lk : loc) (h1 h2 h3 : heap) :
  length h1 <= length h2 ->
  agreeExcept lk h1 h2 -> agreeExcept lk h2 h3 -> agreeExcept lk h1 h3.
Proof.
  intros Hlen H12 H23 i Hi Hlt. rewrite H23, H12; trivial. lia.
Qed.

Lemma stable_later (lk : loc) (h1 h2 : heap) (v : val) (j : jsval) :
  length h1 <= length h2 -> agreeExcept lk h1 h2 ->
  stable lk h1 v j -> stable lk h2 v j.
Proof.
  intros Hlen H12 [Hne Hs]. split; [exact Hne|]. intros h' H2.
  apply Hs. now apply (agreeExcept_trans lk h1 h2 h').
Qed.

Lemma related_impl (R R' : val -> jsval -> Prop) ps jps :
  (forall v j, R v j -> R' v j) -> related R ps jps -> related R' ps jps.
Proof.
  intros HR Hrel. unfold related. eapply Forall2_impl; [exact Hrel|].
  intros p q [H1 H2]. auto.
Qed.

Lemma related_keys (R : val -> jsval -> Prop) ps jps :
  related R ps jps -> ps.*1 = jps.*1.
Proof.
  induction 1 as [|p q ps jps [Hk _] _ IH]; [reflexivity|].
  rewrite !fmap_cons. now f_equal.
Qed.

(** An object whose properties serialize serializes. *)
Lemma toJSON_props (h : heap) (ps : list (string * val)) (jps : list (string * jsval)) :
  related (fun v j => j <> VUndef /\ exists n, toJSON n h v = Some j) ps jps ->
  exists n, mapM (toJSON n h) ps.*2 = Some jps.*2
            /\ forallb (fun kx => keepProp kx) jps = true.
Proof.
  induction 1 as [|[k v] [k' j] ps jps [Hk [Hne [n Hn]]] _ (m & Hm & Hkeep)].
  - exists 0. now split.
  - exists (n `max` m). rewrite !fmap_cons. cbn [fst snd] in *. split.
    + apply mapM_Some. constructor.
      * apply (toJSON_fuel n); [lia|exact Hn].
      * apply mapM_Some in Hm. eapply Forall2_impl; [exact Hm|].
        intros x y. apply toJSON_fuel. lia.
    + cbn [forallb]. rewrite Hkeep, andb_true_r. unfold keepProp. simpl.
      now destruct j.
Qed.

Lemma filter_all {A} (f : A -> bool) (l : list A) :
  forallb f l = true -> List.filter f l = l.
Proof.
  induction l as [|x l IH]; [reflexivity|]. cbn [forallb List.filter].
  intros [-> Hl]%andb_prop. now rewrite IH.
Qed.

Lemma toJSON_object (h : heap) (r : loc) (ps : list (string * val))
    (jps : list (string * jsval)) :
  h !! r = Some (Obj ps) ->
  related (fun v j => j <> VUndef /\ exists n, toJSON n h v = Some j) ps jps ->
  exists n, toJSON n h (Ref r) = Some (VObj jps).
Proof.
  intros Hr Hrel. destruct (toJSON_props h ps jps Hrel) as (n & Hm & Hkeep).
  exists (S n). cbn [toJSON]. rewrite Hr, Hm. simpl.
  rewrite (related_keys _ _ _ Hrel), zip_fst_snd. now rewrite filter_all.
Qed.

Lemma fromJSON_stable (j : jsval) (h h1 : heap) (lk : loc) :
  clean j = true ->
  agreeOn (length h) (length (fromJSON j h).2) (fromJSON j h).2 h1 ->
  ~ (length h <= lk < length (fromJSON j h).2) ->
  stable lk h1 (fromJSON j h).1 j.
Proof.
  intros Hc Hag Hlk. split; [intros ->; discriminate|].
  intros h' Hex. exists (length (fromJSON j h).2 - length h).
  apply fromJSON_toJSON; [exact Hc| |lia].
  intros i Hi1 Hi2. rewrite <- (Hag i Hi1 Hi2). apply Hex; [lia|].
  apply lookup_lt_is_Some. rewrite (Hag i Hi1 Hi2). apply lookup_lt_is_Some. lia.
Qed.

Lemma fromProps_stable (ps : list (string * jsval)) (lk : loc) (h1 : heap) :
  forallb (fun kx => clean kx.2) ps = true ->
  forall h,
    agreeOn (length h) (length (fromProps ps h).2) (fromProps ps h).2 h1 ->
    ~ (length h <= lk < length (fromProps ps h).2) ->
    related (stable lk h1) (fromProps ps h).1 ps.
Proof.
  induction ps as [|[k x] ps IH]; intros Hc h Hag Hlk; [constructor|].
  cbn [forallb] in Hc. apply andb_prop in Hc as [Hx Hps].
  cbn [fromProps fst snd] in *.
  assert (Hp1 := fromJSON_prefix x h).
  assert (Hp2 := fromProps_prefix ps (fromJSON x h).2).
  assert (Hl1 := prefix_length _ _ Hp1). assert (Hl2 := prefix_length _ _ Hp2).
  constructor.
  - split; [reflexivity|]. cbn [snd]. apply fromJSON_stable; [exact Hx| |lia].
    eapply agreeOn_sub; [exact Hag| | | |exact Hp2]; lia.
  - apply IH; [exact Hps| |lia].
    eapply agreeOn_sub; [exact Hag| | | |reflexivity]; lia.
Qed.

Lemma updateAt_object f (segments : list string) (j j' : jsval) :
  updateAt f segments j = Some j' ->
  (exists ps, j = VObj ps) /\ exists ps', j' = VObj ps'.
Proof.
  destruct segments as [|seg rest]; destruct j; simpl; try discriminate.
  - intros [= <-]. eauto.
  - destruct (updateAt f rest _); simpl; [|discriminate]. intros [= <-]. eauto.
Qed.

Lemma agreeOn_lt (lo hi : nat) (h1 h2 : heap) (i : nat) :
  agreeOn lo hi h1 h2 -> hi <= length h1 -> lo <= i < hi -> i < length h2.
Proof.
  intros Hag Hhi Hi. apply lookup_lt_is_Some. rewrite Hag by lia.
  apply lookup_lt_is_Some. lia.
Qed.

(** *** The object a pointer leads to in the copy *)

Section Path.
Variable f : list (string * jsval) -> list (string * jsval).

Lemma fromProps_path (seg : string) (rest : list string)
    (IHrest : forall j j' h, clean j = true -> updateAt f rest j = Some j' ->
       exists lk tps, length h <= lk < length (fromJSON j h).2
         /\ forall h1,
              agreeOn (length h) (length (fromJSON j h).2) (fromJSON j h).2 h1 ->
              navigate h1 (fromJSON j h).1 rest = Ok (Ref lk)
              /\ (exists tp, h1 !! lk = Some (Obj tp) /\ related (stable lk h1) tp tps)
              /\ forall h', agreeExcept lk h1 h' ->
                   (exists n, toJSON n h' (Ref lk) = Some (VObj (f tps))) ->
                   exists n, toJSON n h' (fromJSON j h).1 = Some j') :
  forall ps jc' h,
    forallb (fun kx => clean kx.2) ps = true ->
    updateAt f rest (getProp ps seg) = Some jc' ->
    exists lk tps, length h <= lk < length (fromProps ps h).2
      /\ forall h1,
           agreeOn (length h) (length (fromProps ps h).2) (fromProps ps h).2 h1 ->
           navigate h1 (lookupProp (fromProps ps h).1 seg) rest = Ok (Ref lk)
           /\ (exists tp, h1 !! lk = Some (Obj tp) /\ related (stable lk h1) tp tps)
           /\ forall h', agreeExcept lk h1 h' ->
                (exists n, toJSON n h' (Ref lk) = Some (VObj (f tps))) ->
                related (fun v j => j <> VUndef /\ exists n, toJSON n h' v = Some j)
                        (fromProps ps h).1 (putProp ps seg jc').
Proof.
  induction ps as [|[k x] ps IH]; intros jc' h Hc Hu.
  { simpl in Hu. destruct rest; discriminate. }
  cbn [forallb] in Hc. apply andb_prop in Hc as [Hx Hps]. cbn [snd] in Hx.
  cbn [getProp putProp fromProps fst snd lookupProp] in *.
  assert (Hp1 := fromJSON_prefix x h).
  assert (Hp2 := fromProps_prefix ps (fromJSON x h).2).
  assert (Hl1 := prefix_length _ _ Hp1). assert (Hl2 := prefix_length _ _ Hp2).
  destruct (String.eqb k seg) eqn:E.
  - destruct (IHrest x jc' h Hx Hu) as (lk & tps & Hlk & Hspec).
    exists lk, tps. split; [lia|]. intros h1 Hag.
    assert (Hag1 : agreeOn (length h) (length (fromJSON x h).2) (fromJSON x h).2 h1).
    { eapply agreeOn_sub; [exact Hag| | | |exact Hp2]; lia. }
    assert (Hag2 : agreeOn (length (fromJSON x h).2) (length (fromProps ps (fromJSON x h).2).2)
                     (fromProps ps (fromJSON x h).2).2 h1).
    { eapply agreeOn_sub; [exact Hag| | | |reflexivity]; lia. }
    destruct (Hspec h1 Hag1) as (Hnav & Htgt & Hupd).
    split; [exact Hnav|]. split; [exact Htgt|]. intros h' Hex Ht.
    constructor.
    + split; [reflexivity|]. cbn [snd]. split.
      * destruct (updateAt_object _ _ _ _ Hu) as [_ [ps' ->]]. discriminate.
      * now apply Hupd.
    + apply (related_impl (stable lk h1)
               (fun v j => j <> VUndef /\ exists n, toJSON n h' v = Some j));
        [|apply (fromProps_stable ps lk h1 Hps _ Hag2); lia].
      intros v j [Hne Hs]. split; [exact Hne|]. now apply Hs.
  - destruct (IH jc' (fromJSON x h).2 Hps Hu) as (lk & tps & Hlk & Hspec).
    exists lk, tps. split; [lia|]. intros h1 Hag.
    assert (Hag1 : agreeOn (length h) (length (fromJSON x h).2) (fromJSON x h).2 h1).
    { eapply agreeOn_sub; [exact Hag| | | |exact Hp2]; lia. }
    assert (Hag2 : agreeOn (length (fromJSON x h).2) (length (fromProps ps (fromJSON x h).2).2)
                     (fromProps ps (fromJSON x h).2).2 h1).
    { eapply agreeOn_sub; [exact Hag| | | |reflexivity]; lia. }
    destruct (Hspec h1 Hag2) as (Hnav & Htgt & Hupd).
    split; [exact Hnav|]. split; [exact Htgt|]. intros h' Hex Ht.
    constructor.
    + split; [reflexivity|]. cbn [snd].
      destruct (fromJSON_stable x h h1 lk Hx Hag1) as [Hne Hs]; [lia|].
      split; [exact Hne|]. now apply Hs.
    + apply Hupd; assumption.
Qed.

Lemma fromJSON_path (segments : list string) :
  forall j j' h, clean j = true -> updateAt f segments j = Some j' ->
    exists lk tps, length h <= lk < length (fromJSON j h).2
      /\ forall h1,
           agreeOn (length h) (length (fromJSON j h).2) (fromJSON j h).2 h1 ->
           navigate h1 (fromJSON j h).1 segments = Ok (Ref lk)
           /\ (exists tp, h1 !! lk = Some (Obj tp) /\ related (stable lk h1) tp tps)
           /\ forall h', agreeExcept lk h1 h' ->
                (exists n, toJSON n h' (Ref lk) = Some (VObj (f tps))) ->
                exists n, toJSON n h' (fromJSON j h).1 = Some j'.
Proof.
  induction segments as [|seg rest IH]; intros j j' h Hc Hu;
    destruct j as [| | | | | |ps]; try discriminate; cbn [updateAt clean] in Hu, Hc;
    rewrite fromJSON_obj; cbn [fst snd];
    assert (Hp := fromProps_prefix ps h); assert (Hl := prefix_length _ _ Hp).
  - injection Hu as <-. exists (length (fromProps ps h).2), ps.
    rewrite length_app. cbn [length]. split; [lia|]. intros h1 Hag.
    split; [reflexivity|]. split.
    + exists (fromProps ps h).1. split.
      * rewrite Hag by lia. rewrite lookup_app_r, Nat.sub_diag by lia. reflexivity.
      * apply fromProps_stable; [exact Hc| |lia].
        eapply agreeOn_sub; [exact Hag| | | |now apply prefix_app_r]; lia.
    + intros h' _ Ht. exact Ht.
  - destruct (updateAt f rest (getProp ps seg)) as [jc'|] eqn:Hc'; [|discriminate].
    simpl in Hu. injection Hu as <-.
    destruct (fromProps_path seg rest IH ps jc' h Hc Hc') as (lk & tps & Hlk & Hspec).
    exists lk, tps. rewrite length_app. cbn [length]. split; [lia|]. intros h1 Hag.
    assert (Hroot : h1 !! length (fromProps ps h).2 = Some (Obj (fromProps ps h).1)).
    { rewrite Hag by lia. rewrite lookup_app_r, Nat.sub_diag by lia. reflexivity. }
    assert (Hag' : agreeOn (length h) (length (fromProps ps h).2) (fromProps ps h).2 h1).
    { eapply agreeOn_sub; [exact Hag| | | |now apply prefix_app_r]; lia. }
    destruct (Hspec h1 Hag') as (Hnav & Htgt & Hupd).
    split; [|split; [exact Htgt|]].
    + cbn [navigate getMember]. rewrite Hroot. exact Hnav.
    + intros h' Hex Ht. apply toJSON_object with (ps := (fromProps ps h).1).
      * rewrite Hex; [exact Hroot|lia|]. apply lookup_lt_is_Some. eauto.
      * now apply Hupd.
Qed.
End Path.

(** *** The loop over the rules *)

Lemma lookup_related (R : val -> jsval -> Prop) ps jps (k : string) :
  related R ps jps ->
  (lookupProp ps k = Undef /\ getProp jps k = VUndef)
  \/ R (lookupProp ps k) (getProp jps k).
Proof.
  induction 1 as [|[k1 v] [k2 j] ps jps [Hk HR] _ IH]; [now left|].
  cbn [fst snd] in *. subst k2. cbn [lookupProp getProp].
  destruct (String.eqb k1 k); [now right|exact IH].
Qed.

Lemma related_put (R : val -> jsval -> Prop) ps jps (k : string) (x : val) (y : jsval) :
  related R ps jps -> R x y -> related R (assignProp ps k x) (putProp jps k y).
Proof.
  intros Hrel Hxy.
  induction Hrel as [|[k1 v] [k2 j] ps jps [Hk HR] Hrest IH]; cbn [assignProp putProp].
  - constructor; [now split|constructor].
  - cbn [fst snd] in *. subst k2. destruct (String.eqb k1 k).
    + constructor; [now split|exact Hrest].
    + constructor; [now split|exact IH].
Qed.

Lemma toJSON_truthy (n : nat) (h : heap) (v : val) (j : jsval) :
  toJSON n h v = Some j -> truthyVal v = truthy j.
Proof.
  destruct n as [|n]; destruct v as [| | b | z | s | l]; cbn [toJSON];
    try (intros [= <-]; reflexivity); try discriminate.
  destruct (h !! l) as [[ps|es]|]; [| |discriminate].
  - destruct (mapM _ _); simpl; [|discriminate]. now intros [= <-].
  - destruct (mapM _ _); simpl; [|discriminate]. now intros [= <-].
Qed.

Lemma wrapKeywords_json (rules_ : list (string * RuleEntry)) (dataRef : val)
    (jd : jsval) (lk : loc) :
  forall h1 ps tps,
    h1 !! lk = Some (Obj ps) ->
    related (stable lk h1) ps tps ->
    stable lk h1 dataRef jd ->
    exists h2 ps',
      wrapKeywords rules_ dataRef (Ref lk) h1 = (Ok tt, h2)
      /\ h2 !! lk = Some (Obj ps')
      /\ related (stable lk h2) ps' (wrapProps rules_ jd tps)
      /\ agreeExcept lk h1 h2
      /\ length h1 <= length h2.
Proof.
  induction rules_ as [|[key [rule|b]] rest IH]; intros h1 ps tps Hlk Hrel Hd;
    cbn [wrapKeywords wrapProps].
  - exists h1, ps. split; [reflexivity|]. split; [exact Hlk|]. split; [exact Hrel|].
    split; [apply agreeExcept_refl|lia].
  - cbn [getMember]. rewrite Hlk.
    assert (Hlt : lk < length h1) by (apply lookup_lt_is_Some; eauto).
    destruct (lookup_related _ _ _ key Hrel) as [[Hu Hj]|[Hne Hs]].
    { rewrite Hu, Hj. cbn [truthyVal truthy]. rewrite andb_false_r.
      now apply (IH h1 ps). }
    destruct (Hs h1 (agreeExcept_refl lk h1)) as [n Hn].
    rewrite (toJSON_truthy _ _ _ _ Hn).
    destruct (def_data (definition rule) && truthy (getProp tps key));
      [|now apply (IH h1 ps)].
    unfold schemaOrDataObj. cbn [fst snd assign].
    set (v := lookupProp ps key) in *. set (jv := getProp tps key) in *.
    set (h2 := ((h1 ++ [Arr [v; dataRef]]) ++ [Obj [("anyOf", Ref (length h1))]])%list).
    assert (Hlen2 : length h2 = S (S (length h1))).
    { unfold h2. rewrite !length_app. simpl. lia. }
    assert (Hlk2 : h2 !! lk = Some (Obj ps)).
    { unfold h2. rewrite !lookup_app_l; [exact Hlk|lia|rewrite length_app; simpl; lia]. }
    rewrite Hlk2.
    set (o := length (h1 ++ [Arr [v; dataRef]])%list).
    assert (Ho : o = S (length h1)) by (unfold o; rewrite length_app; simpl; lia).
    set (h3 := <[lk := Obj (assignProp ps key (Ref o))]> h2).
    assert (Hlen3 : length h3 = S (S (length h1))).
    { unfold h3. now rewrite length_insert. }
    assert (H13 : agreeExcept lk h1 h3).
    { intros i Hi Hlti. unfold h3. rewrite list_lookup_insert_ne by congruence.
      unfold h2. rewrite !lookup_app_l; [reflexivity|lia|rewrite length_app; simpl; lia]. }
    assert (Ha3 : h3 !! length h1 = Some (Arr [v; dataRef])).
    { unfold h3. rewrite list_lookup_insert_ne by lia. unfold h2.
      rewrite lookup_app_l by (rewrite length_app; simpl; lia).
      rewrite lookup_app_r, Nat.sub_diag by lia. reflexivity. }
    assert (Ho3 : h3 !! o = Some (Obj [("anyOf", Ref (length h1))])).
    { unfold h3. rewrite list_lookup_insert_ne by lia. unfold h2.
      rewrite lookup_app_r by (unfold o; lia). fold o. now rewrite Nat.sub_diag. }
    assert (Hd3 : stable lk h3 dataRef jd).
    { apply (stable_later lk h1); [lia|exact H13|exact Hd]. }
    assert (Hw : stable lk h3 (Ref o) (schemaOrDataJSON jd jv)).
    { split; [discriminate|]. intros h' Hex.
      destruct Hd3 as [Hdne Hds]. destruct (Hds h' Hex) as [n2 Hn2].
      assert (Hv3 : stable lk h3 v jv).
      { apply (stable_later lk h1); [lia|exact H13|now split]. }
      destruct Hv3 as [_ Hvs]. destruct (Hvs h' Hex) as [n1 Hn1].
      exists (S (S (n1 `max` n2))). cbn [toJSON].
      rewrite (Hex o), Ho3 by lia. cbn [fmap list_fmap snd mapM mbind option_bind toJSON].
      rewrite (Hex (length h1)), Ha3 by lia. cbn [mapM mbind option_bind].
      rewrite (toJSON_fuel n1 _ _ _ _ (Nat.le_max_l n1 n2) Hn1).
      rewrite (toJSON_fuel n2 _ _ _ _ (Nat.le_max_r n1 n2) Hn2).
      simpl. unfold schemaOrDataJSON. repeat f_equal.
      - now destruct jv.
      - now destruct jd. }
    destruct (IH h3 (assignProp ps key (Ref o)) (putProp tps key (schemaOrDataJSON jd jv)))
      as (h4 & ps' & Hrun & Hlk4 & Hrel4 & H34 & Hlen4).
    + unfold h3. apply list_lookup_insert_eq. lia.
    + apply related_put; [|exact Hw].
      eapply related_impl; [|exact Hrel]. intros x y.
      apply (stable_later lk h1); [lia|exact H13].
    + exact Hd3.
    + exists h4, ps'. split; [exact Hrun|]. split; [exact Hlk4|].
      split; [exact Hrel4|]. split; [|lia].
      apply (agreeExcept_trans lk h1 h3 h4); [lia|exact H13|exact H34].
  - now apply (IH h1 ps).
Qed.

(** *** All the pointers *)

Lemma dataMetaSchemaWith_json (rules_ : list (string * RuleEntry)) (d : loc)
    (jd : jsval) (pointers : list string) :
  forall (v : val) (h : heap) (j j' : jsval),
    (exists n, toJSON n h v = Some j) ->
    (exists n, toJSON n h (Ref d) = Some jd) ->
    wrapAll rules_ jd pointers j = Some j' ->
    exists v' h',
      dataMetaSchemaWith rules_ (Ref d) v pointers h = (Ok v', h')
      /\ toJSON (S (length h')) h' v' = Some j'.
Proof.
  induction pointers as [|p rest IH]; intros v h j j' [n Hj] [nd Hd] Hw;
    cbn [wrapAll dataMetaSchemaWith] in *.
  { injection Hw as <-. exists v, h. split; [reflexivity|].
    now apply (toJSON_enough n). }
  destruct (updateAt (wrapProps rules_ jd) (tail (splitSlash p)) j) as [j1|] eqn:Hu;
    [|discriminate].
  simpl in Hw.
  destruct (updateAt_object _ _ _ _ Hu) as [[ps ->] _].
  assert (Hc : clean (VObj ps) = true) by (now apply (toJSON_clean n h v)).
  unfold jsonClone. rewrite (toJSON_enough _ _ _ _ Hj).
  destruct (fromJSON_path _ _ _ _ h Hc Hu) as (lk & tps & Hlk & Hspec).
  set (r := fromJSON (VObj ps) h) in *.
  assert (Hp : h `prefix_of` r.2) by apply fromJSON_prefix.
  destruct (Hspec r.2 (agreeOn_refl _ _ _)) as (Hnav & (tp & Htp & Hrel) & Hupd).
  cbn [fst snd]. rewrite Hnav.
  assert (Hds : stable lk r.2 (Ref d) jd).
  { split.
    - intros ->. destruct (toJSON_undef _ _ _ _ Hd) as [Hu' _].
      discriminate (Hu' eq_refl).
    - intros h' Hex. exists nd. apply (toJSON_agree nd h h'); [|exact Hd].
      intros i Hi. rewrite Hex; [|lia|apply prefix_length in Hp; lia].
      symmetry. now apply prefix_lookup_lt. }
  destruct (wrapKeywords_json rules_ (Ref d) jd lk r.2 tp tps Htp Hrel Hds)
    as (h2 & ps' & Hrun & Hlk2 & Hrel2 & Hex & Hlen).
  rewrite Hrun.
  apply (IH r.1 h2 j1 j'); [| |exact Hw].
  - apply Hupd; [exact Hex|]. apply toJSON_object with (ps := ps'); [exact Hlk2|].
    eapply related_impl; [|exact Hrel2]. intros x y [Hne Hs]. split; [exact Hne|].
    apply Hs, agreeExcept_refl.
  - destruct Hds as [_ Hds]. now apply Hds.
Qed.

(** *** What [wrapProps] does to each property *)

Lemma putProp_same (ps : list (string * jsval)) (k : string) (x : jsval) :
  getProp (putProp ps k x) k = x.
Proof.
  induction ps as [|[k' v] ps IH]; cbn [putProp getProp].
  - now rewrite String.eqb_refl.
  - destruct (String.eqb k' k) eqn:E; cbn [getProp]; now rewrite E.
Qed.

Lemma putProp_other (ps : list (string * jsval)) (k k0 : string) (x : jsval) :
  k <> k0 -> getProp (putProp ps k x) k0 = getProp ps k0.
Proof.
  intros Hne. induction ps as [|[k' v] ps IH]; cbn [putProp getProp].
  - apply String.eqb_neq in Hne. now rewrite Hne.
  - destruct (String.eqb k' k) eqn:E; cbn [getProp]; [|now rewrite IH].
    apply String.eqb_eq in E. subst k'. apply String.eqb_neq in Hne. now rewrite Hne.
Qed.

Lemma putProp_keys (ps : list (string * jsval)) (k : string) (x : jsval) :
  truthy (getProp ps k) = true -> (putProp ps k x).*1 = ps.*1.
Proof.
  induction ps as [|[k' v] ps IH]; cbn [putProp getProp]; [discriminate|].
  destruct (String.eqb k' k); [reflexivity|].
  intros Ht. rewrite !fmap_cons. now rewrite IH.
Qed.

Lemma dataRule_unlisted (rules_ : list (string * RuleEntry)) (k : string) :
  k ∉ rules_.*1 -> dataRule rules_ k = false.
Proof.
  unfold dataRule. induction rules_ as [|[k' e] rest IH]; [reflexivity|].
  rewrite fmap_cons. intros [Hne Hin]%not_elem_of_cons. cbn [existsb fst snd].
  rewrite (IH Hin), orb_false_r.
  assert (E : String.eqb k' k = false).
  { apply String.eqb_neq. intros ->. now apply Hne. }
  now rewrite E.
Qed.

(** The properties keep their names and order; the value of a property
    whose key has a rule with [$data] and which is truthy becomes
    [{anyOf: [value, $dataRef]}], every other value is kept. *)
Lemma wrapProps_properties (rules_ : list (string * RuleEntry)) (jd : jsval) :
  NoDup rules_.*1 ->
  forall ps,
    (wrapProps rules_ jd ps).*1 = ps.*1
    /\ forall k, getProp (wrapProps rules_ jd ps) k
                 = if dataRule rules_ k && truthy (getProp ps k)
                   then schemaOrDataJSON jd (getProp ps k)
                   else getProp ps k.
Proof.
  induction rules_ as [|[key [rule|b]] rest IH]; intros Hnd ps; cbn [wrapProps].
  - now split.
  - rewrite fmap_cons in Hnd. apply NoDup_cons in Hnd as [Hnin Hnd]. cbn [fst] in Hnin.
    pose proof (dataRule_unlisted rest key Hnin) as Habs.
    assert (Hhead : forall k, dataRule ((key, RuleObj rule) :: rest) k
                    = String.eqb key k && def_data (definition rule) || dataRule rest k)
      by reflexivity.
    destruct (def_data (definition rule) && truthy (getProp ps key)) eqn:Hc.
    + apply andb_prop in Hc as [Hd Ht].
      destruct (IH Hnd (putProp ps key (schemaOrDataJSON jd (getProp ps key))))
        as [Hk Hg].
      split; [now rewrite Hk, putProp_keys|].
      intros k. rewrite Hg, Hhead, Hd, andb_true_r.
      destruct (String.eqb key k) eqn:E.
      * apply String.eqb_eq in E. subst k.
        now rewrite Habs, putProp_same, Ht.
      * apply String.eqb_neq in E. now rewrite putProp_other.
    + destruct (IH Hnd ps) as [Hk Hg]. split; [exact Hk|].
      intros k. rewrite Hg, Hhead.
      destruct (String.eqb key k) eqn:E; [|reflexivity].
      apply String.eqb_eq in E. subst k. rewrite Habs. cbn [andb orb].
      rewrite orb_false_r. now rewrite Hc.
  - rewrite fmap_cons in Hnd. apply NoDup_cons in Hnd as [_ Hnd].
    destruct (IH Hnd ps) as [Hk Hg]. split; [exact Hk|].
    intros k. rewrite Hg.
    assert (Hhead : dataRule ((key, RuleFlag b) :: rest) k
                    = String.eqb key k && false || dataRule rest k) by reflexivity.
    now rewrite Hhead, andb_false_r.
Qed.

(** *** The two steps of a round, and the whole function *)

(** X25.  The copy step of [$dataMetaSchema],
    [JSON.parse(JSON.stringify(metaSchema))]: when the argument serializes to
    a JSON value, the step returns a value that serializes to the same JSON
    value; it is made of objects created by the step, which refer to such
    objects only, and every object that existed is left as it was. *)
Theorem jsonClone_round_trip (v : val) (h : heap) (n : nat) (j : jsval) :
  toJSON n h v = Some j ->
  j <> VUndef ->
  exists v' h',
    jsonClone v h = (Ok v', h')
    /\ extends h (v', h')
    /\ toJSON (S (length h')) h' v' = Some j.
Proof.
  intros Hj Hne. pose proof (toJSON_clean n h v j Hj Hne) as Hc.
  exists (fromJSON j h).1, (fromJSON j h).2.
  assert (Hrun : jsonClone v h = (Ok (fromJSON j h).1, (fromJSON j h).2)).
  { unfold jsonClone. rewrite (toJSON_enough _ _ _ _ Hj). now destruct j. }
  split; [exact Hrun|]. split.
  - apply (jsonClone_extends v _ h _ Hrun).
  - apply fromJSON_toJSON; [exact Hc|apply agreeOn_refl|lia].
Qed.

Lemma jsonClone_round_trip_witness :
  exists v' h',
    jsonClone (Ref 4) Plain.sampleHeap = (Ok v', h')
    /\ extends Plain.sampleHeap (v', h')
    /\ toJSON (S (length h')) h' v'
       = Some (VObj [("properties",
                      VObj [("maxLength", VObj [("type", VStr "integer")]);
                            ("title", VObj [("type", VStr "string")])])]).
Proof.
  apply (jsonClone_round_trip (Ref 4) Plain.sampleHeap 5);
    [vm_compute; reflexivity | discriminate].
Defined.

(** X26.  [$dataMetaSchema] on the JSON value [j] that [metaSchema]
    serializes to, with [$dataRef] an object that serializes to [jd]: when
    every pointer, taken in turn, leads from the root of the value reached so
    far through nested objects to an object (the text of the pointer before
    its first slash is ignored), the call returns a value that serializes
    to [j] with, under every pointer, the properties of that object rewritten
    by the loop over [RULES.all]: a property whose key has a rule with [$data]
    and whose value is truthy holds [{anyOf: [value, jd]}]; the rest of the
    value is as in [j]. *)
Theorem dataMetaSchema_json (this : Ajv) (d : loc) (metaSchema : val)
    (keywordsJsonPointers : list string) (h : heap) (n nd : nat) (j jd j' : jsval) :
  toJSON n h metaSchema = Some j ->
  toJSON nd h (Ref d) = Some jd ->
  wrapAll (map_to_list (vr_all (RULES this))) jd keywordsJsonPointers j = Some j' ->
  exists v' h',
    dataMetaSchema this (Ref d) metaSchema keywordsJsonPointers h = (Ok v', h')
    /\ toJSON (S (length h')) h' v' = Some j'.
Proof.
  intros Hj Hd Hw. unfold dataMetaSchema.
  apply (dataMetaSchemaWith_json _ d jd keywordsJsonPointers metaSchema h j j'); eauto.
Qed.

Lemma dataMetaSchema_json_witness :
  exists v' h',
    dataMetaSchema Plain.dataKeywords (Ref 0) (Ref 4) ["/properties"] Plain.sampleHeap
    = (Ok v', h')
    /\ toJSON (S (length h')) h' v'
       = Some (VObj
                 [("properties",
                   VObj
                     [("maxLength",
                       VObj
                         [("anyOf",
                           VArr
                             [VObj [("type", VStr "integer")];
                              VObj
                                [("$ref",
                                  VStr "https://raw.githubusercontent.com/ajv-validator/ajv/master/lib/refs/data.json#")]])]);
                      ("title", VObj [("type", VStr "string")])])]).
Proof.
  apply (dataMetaSchema_json Plain.dataKeywords 0 (Ref 4) ["/properties"]
           Plain.sampleHeap 5 1
           (VObj [("properties",
                   VObj [("maxLength", VObj [("type", VStr "integer")]);
                         ("title", VObj [("type", VStr "string")])])])
           (VObj [("$ref",
                   VStr "https://raw.githubusercontent.com/ajv-validator/ajv/master/lib/refs/data.json#")]));
    vm_compute; reflexivity.
Defined.

End DataMetaJsonFacts.

(** ** Names that the tables inherit *)

Module PrototypeFacts.
Import Js Ajv AjvFacts KeywordFacts.

Section Members.
Context `{C : Collaborators}.

Lemma inherited_name_error (r : ValidationRules) (k : string) :
  inherited k = true ->
  vr_keywords r !! k = None ->
  nameError r k = Some (Error ("Keyword " +:+ k +:+ " is already defined")).
Proof. intros Hi Hk. unfold nameError. now rewrite Hk, Hi. Qed.

(** X28.  The names of the members of [Object.prototype] are taken on every
    instance.  While [RULES.keywords] and [RULES.all] have no entry of their
    own for such a name, [addKeyword] of the name, with or without a
    definition, throws [Keyword <name> is already defined] and leaves the
    instance as it was, and [getKeyword] returns [true] for it
    ([undefined] for [__proto__]) although nothing is registered.  While
    [schemas] and [refs] have no entry of their own for it,
    [_checkUnique] throws [schema with key or id "<name>" already exists],
    and [removeSchema(name)] changes nothing about that. *)
Theorem prototype_names_are_taken (st : Ajv) (k : string) :
  inherited k = true ->
  (vr_keywords (RULES st) !! k = None ->
   vr_all (RULES st) !! k = None ->
   (forall d, def_keyword d = One k ->
      addKeyword (Def d) None st
      = (Throw (Error ("Keyword " +:+ k +:+ " is already defined")), st))
   /\ addKeyword (Kwd k) None st
      = (Throw (Error ("Keyword " +:+ k +:+ " is already defined")), st)
   /\ getKeyword k st
      = (Ok (inr (if String.eqb k "__proto__" then VUndef else VBool true)), st))
  /\ (schemas st !! k = None ->
      refs st !! k = None ->
      _checkUnique k st = (Throw (Error (alreadyExists k)), st)
      /\ (_checkUnique k (removeSchema (RmValue (VStr k)) st).2).1
         = Throw (Error (alreadyExists k))).
Proof.
  intros Hi. split.
  - intros Hk Ha.
    assert (He : forall kw : OneOrMany string, eachItem kw = [k] ->
              head (nameErrors (RULES st) (eachItem kw))
              = Some (Error ("Keyword " +:+ k +:+ " is already defined"))).
    { intros kw ->. unfold nameErrors. simpl.
      now rewrite (inherited_name_error _ _ Hi Hk). }
    split; [|split].
    + intros d Hd. unfold addKeyword, addKeywordWith. mstep. simpl fst. simpl snd.
      apply bind_Throw. apply checkKeyword_names. apply He. now rewrite Hd.
    + unfold addKeyword, addKeywordWith. mstep. simpl fst. simpl snd.
      apply bind_Throw. apply checkKeyword_names. now apply He.
    + unfold getKeyword. mstep. rewrite Ha, Hi.
      now destruct (String.eqb k "__proto__").
  - intros Hs Hr.
    assert (Hread : forall t : gmap string SchOrRef,
              t !! k = None -> entryTruthy (readEntry t k) = true).
    { intros t Ht. unfold readEntry. now rewrite Ht, Hi. }
    split.
    + apply checkUnique_taken. now apply Hread.
    + assert (Hdel : schemas (removeSchema (RmValue (VStr k)) st).2
                     = delete k (schemas st)).
      { unfold removeSchema, getSchEnv, deleteKey, cache_del. mstep.
        destruct (if entryTruthy _ then _ else _) as [[e|a|n]|]; mstep;
          try (destruct (String.eqb n "__proto__"); mstep); reflexivity. }
      rewrite checkUnique_taken; [reflexivity|].
      apply Hread. rewrite Hdel. apply lookup_delete_eq.
Qed.

End Members.

(** *** On the instances of [Plain] *)

Import Plain.

Lemma prototype_names_are_taken_witness :
  addKeyword (Def (numberKeyword "constructor" None)) None newAjv
  = (Throw (Error "Keyword constructor is already defined"), newAjv)
  /\ getKeyword "toString" newAjv = (Ok (inr (VBool true)), newAjv)
  /\ _checkUnique "__proto__" newAjv
     = (Throw (Error (alreadyExists "__proto__")), newAjv).
Proof.
  split; [|split].
  - destruct (prototype_names_are_taken newAjv "constructor" eq_refl)
      as [H _].
    destruct (H eq_refl eq_refl) as [H1 _].
    exact (H1 (numberKeyword "constructor" None) eq_refl).
  - destruct (prototype_names_are_taken newAjv "toString" eq_refl)
      as [H _].
    destruct (H eq_refl eq_refl) as (_ & _ & H3). exact H3.
  - destruct (prototype_names_are_taken newAjv "__proto__" eq_refl)
      as [_ H].
    destruct (H eq_refl eq_refl) as [H1 _]. exact H1.
Defined.

End PrototypeFacts.
